(** * Vulcan reverse proxy: a shallow embedding of the request pipeline

    The development follows the Go sources:
    - [proxy.go] (package vulcan): instructions, settings, the failover
      forwarder and the proxy-level request rewriting;
    - package httploc: location options and the location-level rewriting;
    - package roundrobin: the weight-adjusting FSM handler and the TTL'd
      cursor table.

    Go pointers are locations into arenas (lists addressed by index), Go
    maps that are shared by reference live in such an arena too, and every
    function that reads or writes through a pointer is a computation in a
    small state monad whose failure is a run-time panic. *)

From stdpp Require Import gmap strings list fin_maps.
From Stdlib Require Import ZArith Ascii.

Set Default Proof Using "Type".

(** ** Go run-time model *)

Module golang.

(** A pointer: an index into the arena of its type. *)
Abbreviation loc := nat (only parsing).

(** Go's [byte]. *)
Abbreviation byte := Byte.byte (only parsing).

(** Computations over a state [Σ]; [None] is a panic (nil dereference,
    index out of range). Go's [error] results are ordinary values. *)
Definition Go (Σ A : Type) : Type := Σ → option (A * Σ).

Definition ret {Σ A} (a : A) : Go Σ A := λ s, Some (a, s).

Definition bind {Σ A B} (m : Go Σ A) (k : A → Go Σ B) : Go Σ B :=
  λ s, match m s with
       | Some (a, s') => k a s'
       | None => None
       end.

Definition panic {Σ A} : Go Σ A := λ _, None.
Definition gets {Σ A} (f : Σ → A) : Go Σ A := λ s, Some (f s, s).
Definition modify {Σ} (f : Σ → Σ) : Go Σ unit := λ s, Some (tt, f s).

(** Dereference: a missing object is a nil dereference. *)
Definition deref {Σ A} (f : Σ → option A) : Go Σ A :=
  λ s, match f s with
       | Some a => Some (a, s)
       | None => None
       end.

(** Two's complement wrap-around of Go's 64-bit [int]. *)
Definition wrap64 (z : Z) : Z :=
  ((z + 2 ^ 63) `mod` 2 ^ 64 - 2 ^ 63)%Z.

(** Wrap-around of [uint32]. *)
Definition wrap32 (z : Z) : Z := (z `mod` 2 ^ 32)%Z.

End golang.

Export golang.

Declare Scope go_scope.
Delimit Scope go_scope with go.
Notation "x <~ m ;; k" := (bind m (λ x, k))
  (at level 100, m at next level, right associativity,
   format "'[v' x  <~  m  ;;  '/' k ']'") : go_scope.
Notation "m ;;; k" := (bind m (λ _, k))
  (at level 100, right associativity) : go_scope.

(** ** net/textproto, net/url, net/http: what the proxy relies on *)

Module textproto.

(** [textproto.MIMEHeader], the type under [http.Header]:
    [map[string][]string]. *)
Abbreviation MIMEHeader := (gmap string (list string)).

Definition is_lower (c : ascii) : bool :=
  (97 <=? nat_of_ascii c)%nat && (nat_of_ascii c <=? 122)%nat.
Definition is_upper (c : ascii) : bool :=
  (65 <=? nat_of_ascii c)%nat && (nat_of_ascii c <=? 90)%nat.
Definition is_digit (c : ascii) : bool :=
  (48 <=? nat_of_ascii c)%nat && (nat_of_ascii c <=? 57)%nat.

Definition to_upper (c : ascii) : ascii :=
  if is_lower c then ascii_of_nat (nat_of_ascii c - 32) else c.
Definition to_lower (c : ascii) : ascii :=
  if is_upper c then ascii_of_nat (nat_of_ascii c + 32) else c.

(** The bytes allowed in a header field name (RFC 7230 token characters). *)
Definition validHeaderFieldByte (c : ascii) : bool :=
  is_lower c || is_upper c || is_digit c ||
  bool_decide (c ∈ String.list_ascii_of_string "!#$%&'*+-.^_`|~").

Fixpoint canonical_from (upper : bool) (s : string) : string :=
  match s with
  | EmptyString => EmptyString
  | String c s' =>
      let c' := if upper then to_upper c else to_lower c in
      String c' (canonical_from (Ascii.eqb c' "-") s')
  end.

(** [textproto.CanonicalMIMEHeaderKey]: the first letter and every letter
    after a hyphen in upper case, the others in lower case; a key holding
    a byte that is not valid in a field name is returned unchanged. *)
Definition CanonicalMIMEHeaderKey (s : string) : string :=
  if forallb validHeaderFieldByte (String.list_ascii_of_string s)
  then canonical_from true s
  else s.

(** [Header.Add], [Header.Set], [Header.Get], [Header.Del]: every one of
    them canonicalises the key first. *)
Definition Add (h : MIMEHeader) (key value : string) : MIMEHeader :=
  let k := CanonicalMIMEHeaderKey key in
  <[k := default [] (h !! k) ++ [value]]> h.

Definition Set_ (h : MIMEHeader) (key value : string) : MIMEHeader :=
  <[CanonicalMIMEHeaderKey key := [value]]> h.

Definition Get (h : MIMEHeader) (key : string) : string :=
  match h !! CanonicalMIMEHeaderKey key with
  | Some (v :: _) => v
  | _ => ""
  end.

Definition Del (h : MIMEHeader) (key : string) : MIMEHeader :=
  delete (CanonicalMIMEHeaderKey key) h.

End textproto.

Module url.

(** [url.URL], the fields the proxy reads and writes. *)
Record URL := mkURL {
  Scheme : string;
  Host : string;
  Path : string;
  RawQuery : string;
}.

Definition with_Scheme (v : string) (u : URL) : URL :=
  mkURL v (Host u) (Path u) (RawQuery u).
Definition with_Host (v : string) (u : URL) : URL :=
  mkURL (Scheme u) v (Path u) (RawQuery u).
Definition with_Path (v : string) (u : URL) : URL :=
  mkURL (Scheme u) (Host u) v (RawQuery u).
Definition with_RawQuery (v : string) (u : URL) : URL :=
  mkURL (Scheme u) (Host u) (Path u) v.

End url.

Module io.

(** Request bodies ([io.ReadCloser] values the proxy meets). [NetBody] is
    the body the server hands over: the bytes still to come and whether
    reading them to the end fails. [Buffer] is [Buffer{*bytes.Reader}]
    of proxy.go: the slice [s] and the read index [i]. *)
Inductive ReadCloser :=
| NetBody (data : list byte) (failing : bool)
| Buffer (s : list byte) (i : Z).

(** The bytes a reader delivers from where it stands. *)
Definition remaining (b : ReadCloser) : list byte :=
  match b with
  | NetBody data _ => data
  | Buffer s i => drop (Z.to_nat i) s
  end.

(** Reading [n] bytes (or what is left) moves the reader on. *)
Definition advance (n : nat) (b : ReadCloser) : ReadCloser :=
  match b with
  | NetBody data failing => NetBody (drop n data) failing
  | Buffer s i => Buffer s (Z.min (i + Z.of_nat n) (Z.of_nat (length s)))
  end.

(** [ioutil.ReadAll]: everything up to the end or the error, and whether
    an error ended the read. *)
Definition ReadAll (b : ReadCloser) : (list byte * bool) * ReadCloser :=
  match b with
  | NetBody data failing => ((data, failing), NetBody [] failing)
  | Buffer s i => ((drop (Z.to_nat i) s, false), Buffer s (Z.of_nat (length s)))
  end.

(** [Seek] of [bytes.Reader]: the new absolute offset, or an error for an
    unknown [whence] or a negative position. *)
Definition Seek (offset whence : Z) (b : ReadCloser) : option Z * ReadCloser :=
  match b with
  | NetBody _ _ => (None, b)
  | Buffer s i =>
      let abs :=
        if (whence =? 0)%Z then Some offset
        else if (whence =? 1)%Z then Some (i + offset)%Z
        else if (whence =? 2)%Z then Some (Z.of_nat (length s) + offset)%Z
        else None in
      match abs with
      | Some a => if (a <? 0)%Z then (None, b) else (Some a, Buffer s a)
      | None => (None, b)
      end
  end.

End io.

Module http.

Definition StatusBadRequest : Z := 400.
Definition StatusInternalServerError : Z := 500.
Definition StatusBadGateway : Z := 502.

(** [http.Request]. The struct is copied by value ([*outReq = *req]); its
    [URL] is a pointer, its [Header] a map and its [Body] an interface
    holding a pointer, so these three are locations ([None]: a nil map). *)
Record Request := mkRequest {
  Method : string;
  URL : loc;
  Proto : string;
  ProtoMajor : Z;
  ProtoMinor : Z;
  Header : option loc;
  Body : loc;
  Close : bool;
  Host : string;
  RemoteAddr : string;
  TLS : bool;
}.

Record Response := mkResponse {
  StatusCode : Z;
  RespHeader : textproto.MIMEHeader;
  RespBody : list byte;
}.

(** What [http.ResponseWriter] has received: its header map, the status
    codes passed to [WriteHeader] and the bytes written. *)
Record ResponseWriter := mkResponseWriter {
  wHeader : textproto.MIMEHeader;
  wStatus : list Z;
  wBody : list byte;
}.

(** One round trip as the upstream side sees it: the URL, headers and
    body bytes of the outbound request at the time it is sent, and how
    it ended ([None]: a transport error). *)
Record Exchange := mkExchange {
  xURL : url.URL;
  xHeader : textproto.MIMEHeader;
  xBody : list byte;
  xResult : option Response;
}.

(** [http.Transport.RoundTrip] is the network: given what was exchanged
    so far and the request on the wire it answers with a response or an
    error, having read some of the body. *)
Record Transport := mkTransport {
  RoundTrip : list Exchange → url.URL → textproto.MIMEHeader → list byte →
              option Response * nat;
}.

(** The objects reachable from a request, and the two ends of the proxy. *)
Record world := mkWorld {
  urls : list url.URL;
  headers : list textproto.MIMEHeader;
  bodies : list io.ReadCloser;
  client : ResponseWriter;
  wire : list Exchange;
}.

Definition set_urls (f : list url.URL → list url.URL) (w : world) : world :=
  mkWorld (f (urls w)) (headers w) (bodies w) (client w) (wire w).
Definition set_headers
    (f : list textproto.MIMEHeader → list textproto.MIMEHeader) (w : world) : world :=
  mkWorld (urls w) (f (headers w)) (bodies w) (client w) (wire w).
Definition set_bodies (f : list io.ReadCloser → list io.ReadCloser) (w : world) : world :=
  mkWorld (urls w) (headers w) (f (bodies w)) (client w) (wire w).
Definition set_client (f : ResponseWriter → ResponseWriter) (w : world) : world :=
  mkWorld (urls w) (headers w) (bodies w) (f (client w)) (wire w).
Definition set_wire (f : list Exchange → list Exchange) (w : world) : world :=
  mkWorld (urls w) (headers w) (bodies w) (client w) (f (wire w)).

(** Reading a header map: a nil map reads as the empty one. *)
Definition read_header (h : option loc) : Go world textproto.MIMEHeader :=
  match h with
  | None => ret ∅
  | Some l => deref (λ w, headers w !! l)
  end.

(** Writing into a header map: an assignment into a nil map panics. *)
Definition update_header (h : option loc)
    (f : textproto.MIMEHeader → textproto.MIMEHeader) : Go world unit :=
  match h with
  | None => panic
  | Some l =>
      (m <~ deref (λ w, headers w !! l) ;;
       modify (set_headers (λ hs, <[l := f m]> hs)))%go
  end.

(** [delete] on a nil map is a no-op. *)
Definition delete_header (h : option loc)
    (f : textproto.MIMEHeader → textproto.MIMEHeader) : Go world unit :=
  match h with
  | None => ret tt
  | Some _ => update_header h f
  end.

(** [make(http.Header)]. *)
Definition make_header : Go world loc :=
  (l <~ gets (λ w, length (headers w)) ;;
   modify (set_headers (λ hs, hs ++ [∅])) ;;;
   ret l)%go.

(** Assignment through a [*url.URL]. *)
Definition update_url (l : loc) (f : url.URL → url.URL) : Go world unit :=
  (u <~ deref (λ w, urls w !! l) ;;
   modify (set_urls (λ us, <[l := f u]> us)))%go.

Definition with_Proto (proto : string) (major minor : Z) (r : Request) : Request :=
  mkRequest (Method r) (URL r) proto major minor (Header r) (Body r)
            (Close r) (Host r) (RemoteAddr r) (TLS r).
Definition with_Close (c : bool) (r : Request) : Request :=
  mkRequest (Method r) (URL r) (Proto r) (ProtoMajor r) (ProtoMinor r)
            (Header r) (Body r) c (Host r) (RemoteAddr r) (TLS r).
Definition with_Header (h : option loc) (r : Request) : Request :=
  mkRequest (Method r) (URL r) (Proto r) (ProtoMajor r) (ProtoMinor r)
            h (Body r) (Close r) (Host r) (RemoteAddr r) (TLS r).
Definition with_Body (b : loc) (r : Request) : Request :=
  mkRequest (Method r) (URL r) (Proto r) (ProtoMajor r) (ProtoMinor r)
            (Header r) b (Close r) (Host r) (RemoteAddr r) (TLS r).

End http.

(** ** Packages netutils, headers, loadbalance, failover *)

Module netutils.

(** Modelled from the spec: the header helper [CopyHeaders] is declared
    outside the files at hand (§2, component 1: header utilities copy
    headers). It adds every value of [src] to [dst] under its key; where
    two keys of [src] canonicalise to one, Go's map order decides the
    order of their values and the fold's order stands for it. *)
Definition CopyHeaders (dst src : textproto.MIMEHeader) : textproto.MIMEHeader :=
  map_fold (λ k vv d, foldl (λ d v, textproto.Add d k v) d vv) dst src.

(** Modelled from the spec: the header helper [HasHeaders] is declared
    outside the files at hand (§2, component 1; proxy.go calls it to
    learn whether a hop-by-hop header would be altered). It tells
    whether one of the names carries a value. *)
Definition HasHeaders (names : list string) (headers : textproto.MIMEHeader) : bool :=
  existsb (λ h, negb (String.eqb (textproto.Get headers h) "")) names.

(** Modelled from the spec: the header helper [RemoveHeaders] is
    declared outside the files at hand (§2, component 1: header utilities
    remove hop-by-hop headers; §4.10: hop-by-hop headers stripped). It
    deletes each of the names. *)
Definition RemoveHeaders (names : list string) (headers : textproto.MIMEHeader)
  : textproto.MIMEHeader :=
  foldl textproto.Del headers names.

End netutils.

Module headers.

(** Modelled from the spec: the constant [XForwardedProto] of package
    headers is declared outside the files at hand; §4.10 names the
    header. *)
Definition XForwardedProto : string := "X-Forwarded-Proto".

(** Modelled from the spec: the constant [XForwardedFor] of package
    headers is declared outside the files at hand; §4.10 names the
    header. *)
Definition XForwardedFor : string := "X-Forwarded-For".

(** Modelled from the spec: the constant [XForwardedHost] of package
    headers is declared outside the files at hand; §4.10 names the
    header. *)
Definition XForwardedHost : string := "X-Forwarded-Host".

(** Modelled from the spec: the constant [XForwardedServer] of package
    headers is declared outside the files at hand; §4.10 names the
    header. *)
Definition XForwardedServer : string := "X-Forwarded-Server".

(** Modelled from the spec: the list [HopHeaders] of package headers is
    declared outside the files at hand; §4.10 lists the hop-by-hop
    headers, the same eight as [hopHeaders] of proxy.go. *)
Definition HopHeaders : list string :=
  [ "Connection"; "Keep-Alive"; "Proxy-Authenticate"; "Proxy-Authorization";
    "Te"; "Trailers"; "Transfer-Encoding"; "Upgrade" ].

End headers.

Module loadbalance.

(** Modelled from the spec: the [Endpoint] interface is declared outside
    the files at hand; §3: an endpoint has a URL, an id used for equality
    and an [active] flag. The code calls [Id], [GetUrl] and [IsActive]. *)
Record Endpoint := mkEndpoint {
  Id : string;
  GetUrl : url.URL;
  IsActive : bool;
}.

End loadbalance.

Module failover.

(** Modelled from the spec: failover predicates (§4.9) are composed from
    [MaxAttempts], [OnErrors] and [OnGets] with [And] and [Or]; only their
    construction matters here. *)
#[warnings="-register-all"]
Inductive Predicate :=
| MaxAttempts (n : Z)
| OnErrors
| OnGets
| And (ps : list Predicate)
| Or (ps : list Predicate).

End failover.

(** ** proxy.go (package vulcan) *)

Module vulcan.

(** Modelled from the spec: the [HttpError] type is declared outside the
    files at hand. §7: an HttpError carries a status code and a JSON body
    and is surfaced verbatim; §6: the 429 reply includes
    [Retry-After: <seconds>]. The record keeps the status code and the
    retry-after seconds. *)
Record HttpError := mkHttpError {
  StatusCode : Z;
  RetryAfter : option Z;
}.

(** Modelled from the spec: [NewHttpError] is declared outside the files
    at hand; §7: an HttpError carrying the given status code. *)
Definition NewHttpError (statusCode : Z) : HttpError :=
  mkHttpError statusCode None.

(** Modelled from the spec: [TooManyRequestsError] is declared outside
    the files at hand; §7: the specialisation of HttpError for 429, and
    §6: surfaced with [Retry-After: <seconds>]. *)
Definition TooManyRequestsError (retrySeconds : Z) : HttpError :=
  mkHttpError 429 (Some retrySeconds).

(** Go's [error] values met here: a [*HttpError] or any other error. *)
Inductive error :=
| HttpErr (e : HttpError)
| OtherErr (msg : string).

(** Modelled from the spec: the [Token] type is declared outside the
    files at hand; §3: an opaque string naming a rate-accounting bucket. *)
Definition Token := string.

(** Modelled from the spec: the [Upstream] type is declared outside the
    files at hand; §3: a backend URL with optional header overrides. The
    code reads [upstream.Url] and [upstream.Headers] (nil when there are
    none) and never writes through them, so both are kept by value. *)
Record Upstream := mkUpstream {
  Url : url.URL;
  Headers : option textproto.MIMEHeader;
}.

(** Modelled from the spec: the type of the throttler's statistics is
    declared outside the files at hand; §4.3: a feasible upstream with
    its current counters. *)
Record UpstreamStats := mkUpstreamStats {
  upstream : Upstream;
  counters : list Z;
}.

(** [ProxyInstructions]; its [Headers] field is [InstrHeaders] here, the
    name being taken by [Upstream]. *)
Record ProxyInstructions := mkProxyInstructions {
  Failover : bool;
  Tokens : list Token;
  Upstreams : list Upstream;
  InstrHeaders : textproto.MIMEHeader;
}.

(** The [LoadBalancer] interface, declared outside the files at hand: an
    interface value is the record of the methods proxy.go calls on it,
    each returning a list and an error. *)
Record LoadBalancer := mkLoadBalancer {
  sortedUrls : list url.URL → list url.URL * option error;
  sortedUpstreams : list Upstream → list Upstream * option error;
  sortedUpstreamsByStats : list UpstreamStats → list Upstream * option error;
}.

(** The [Throttler], declared outside the files at hand, as the record
    of the methods proxy.go calls on it: [throttle] answers with the
    feasible upstreams' statistics, the retry-after seconds and an
    error, [updateStats] with an error. *)
Record Throttler := mkThrottler {
  throttle : ProxyInstructions → list UpstreamStats * Z * option error;
  updateStats : list Token → Upstream → option error;
}.

(** [ProxySettings], over the type of throttler backends (the [Backend]
    interface is declared outside the files at hand); a nil interface
    value is [None]. The [LoadBalancer] field is [LoadBalancer_] here. *)
Record ProxySettings (Backend : Type) := mkProxySettings {
  ControlServers : list string;
  ThrottlerBackend : option Backend;
  LoadBalancer_ : option LoadBalancer;
  HttpReadTimeout : Z;
  HttpDialTimeout : Z;
}.
Arguments mkProxySettings {Backend}.
Arguments ControlServers {Backend}.
Arguments ThrottlerBackend {Backend}.
Arguments LoadBalancer_ {Backend}.
Arguments HttpReadTimeout {Backend}.
Arguments HttpDialTimeout {Backend}.

Record ReverseProxy := mkReverseProxy {
  controlServers : list url.URL;
  throttler : Throttler;
  loadBalancer : LoadBalancer;
  httpTransport : http.Transport;
}.

(** [time.Duration] counts nanoseconds. *)
Definition Second : Z := 1000000000.
Definition DefaultHttpReadTimeout : Z := 10 * Second.
Definition DefaultHttpDialTimeout : Z := 10 * Second.

Definition hopHeaders : list string :=
  [ "Connection"; "Keep-Alive"; "Proxy-Authenticate"; "Proxy-Authorization";
    "Te"; "Trailers"; "Transfer-Encoding"; "Upgrade" ].

Definition NewProxyInstructions (failover : bool) (tokens : list Token)
    (upstreams : list Upstream) (headers : textproto.MIMEHeader)
  : option ProxyInstructions * option error :=
  if bool_decide (length upstreams ≤ 0)
  then (None, Some (OtherErr "At least one upstream is required"))
  else (Some (mkProxyInstructions failover tokens upstreams headers), None).

Definition getUpstreams (p : ReverseProxy) (instructions : ProxyInstructions)
  : list Upstream * option error :=
  let '(upstreamStats, retrySeconds, err) := throttle (throttler p) instructions in
  match err with
  | Some _ => sortedUpstreams (loadBalancer p) (Upstreams instructions)
  | None =>
      if bool_decide (length upstreamStats = 0)
      then ([], Some (HttpErr (TooManyRequestsError retrySeconds)))
      else sortedUpstreamsByStats (loadBalancer p) upstreamStats
  end.

(** Modelled from the spec: package vulcan's helper [copyHeaders] is
    declared outside the files at hand (§2, component 1); it is the
    header copy of [netutils]. *)
Definition copyHeaders := netutils.CopyHeaders.

(** Modelled from the spec: package vulcan's helper [hasHeaders] is
    declared outside the files at hand (§2, component 1); it is the test
    of [netutils]. *)
Definition hasHeaders := netutils.HasHeaders.

(** Modelled from the spec: package vulcan's helper [removeHeaders] is
    declared outside the files at hand (§2, component 1; §4.10); it is
    the removal of [netutils]. *)
Definition removeHeaders := netutils.RemoveHeaders.

Definition rewriteRequest (upstream : Upstream) (req : http.Request)
  : Go http.world http.Request :=
  (let outReq := req in
   http.update_url (http.URL outReq) (url.with_Scheme (url.Scheme (Url upstream))) ;;;
   http.update_url (http.URL outReq) (url.with_Host (url.Host (Url upstream))) ;;;
   http.update_url (http.URL outReq) (url.with_Path (url.Path (Url upstream))) ;;;
   q <~ deref (λ w, http.urls w !! http.URL req) ;;
   http.update_url (http.URL outReq) (url.with_RawQuery (url.RawQuery q)) ;;;
   let outReq := http.with_Proto "HTTP/1.1" 1 1 outReq in
   let outReq := http.with_Close false outReq in
   reqHeader <~ http.read_header (http.Header req) ;;
   outReq <~ (if bool_decide (is_Some (Headers upstream))
                 || hasHeaders hopHeaders reqHeader
              then
                h <~ http.make_header ;;
                http.update_header (Some h) (λ dst, copyHeaders dst reqHeader) ;;;
                ret (http.with_Header (Some h) outReq)
              else ret outReq) ;;
   match Headers upstream with
   | Some upstreamHeaders =>
       http.update_header (http.Header outReq) (λ dst, copyHeaders dst upstreamHeaders)
   | None => ret tt
   end ;;;
   http.delete_header (http.Header outReq) (removeHeaders hopHeaders) ;;;
   ret outReq)%go.

Definition proxyToUpstream (p : ReverseProxy) (req : http.Request) (upstream : Upstream)
  : Go http.world (option error) :=
  (outReq <~ rewriteRequest upstream req ;;
   u <~ deref (λ w, http.urls w !! http.URL outReq) ;;
   h <~ http.read_header (http.Header outReq) ;;
   b <~ deref (λ w, http.bodies w !! http.Body outReq) ;;
   sofar <~ gets http.wire ;;
   let '(res, n) := http.RoundTrip (httpTransport p) sofar u h (io.remaining b) in
   modify (http.set_bodies (λ bs, <[http.Body outReq := io.advance n b]> bs)) ;;;
   modify (http.set_wire (λ x, x ++ [http.mkExchange u h (io.remaining b) res])) ;;;
   match res with
   | None => ret (Some (HttpErr (NewHttpError http.StatusBadGateway)))
   | Some res =>
       modify (http.set_client (λ c,
         http.mkResponseWriter
           (copyHeaders (http.wHeader c) (http.RespHeader res))
           (http.wStatus c ++ [http.StatusCode res])
           (http.wBody c ++ http.RespBody res))) ;;;
       ret None
   end)%go.

(** The loop of [proxyRequest] over the upstreams, the body being the
    buffer at [reader]. *)
Fixpoint proxyRequest_loop (p : ReverseProxy) (req : http.Request) (reader : loc)
    (upstreams : list Upstream) : Go http.world (option Upstream * option error) :=
  match upstreams with
  | [] => ret (None, Some (HttpErr (NewHttpError http.StatusBadGateway)))
  | upstream :: rest =>
      (r <~ deref (λ w, http.bodies w !! reader) ;;
       let '(pos, r') := io.Seek 0 0 r in
       modify (http.set_bodies (λ bs, <[reader := r']> bs)) ;;;
       match pos with
       | None => ret (None, Some (OtherErr "bytes.Reader.Seek"))
       | Some _ =>
           err <~ proxyToUpstream p req upstream ;;
           match err with
           | Some _ => proxyRequest_loop p req reader rest
           | None => ret (Some upstream, None)
           end
       end)%go
  end.

Definition proxyRequest (p : ReverseProxy) (failover : bool) (req : http.Request)
    (upstreams : list Upstream) : Go http.world (option Upstream * option error) :=
  if negb failover then
    match upstreams with
    | [] => panic
    | first :: _ =>
        (err <~ proxyToUpstream p req first ;; ret (Some first, err))%go
    end
  else
    (body <~ deref (λ w, http.bodies w !! http.Body req) ;;
     let '(buffer, failed, body') := io.ReadAll body in
     modify (http.set_bodies (λ bs, <[http.Body req := body']> bs)) ;;;
     if (failed : bool) then
       ret (None, Some (HttpErr (NewHttpError http.StatusBadRequest)))
     else
       reader <~ gets (λ w, length (http.bodies w)) ;;
       modify (http.set_bodies (λ bs, bs ++ [io.Buffer buffer 0])) ;;;
       let req := http.with_Body reader req in
       proxyRequest_loop p req reader upstreams)%go.

Definition validateProxySettings {Backend} (s : option (ProxySettings Backend))
  : option (ProxySettings Backend) * option error :=
  match s with
  | None => (None, Some (OtherErr "Provide proxy settings"))
  | Some s =>
      if bool_decide (length (ControlServers s) = 0) then
        (None, Some (OtherErr "Supply at least one control server"))
      else if bool_decide (ThrottlerBackend s = None :> option Backend) then
        (None, Some (OtherErr "Backend can not be nil"))
      else if bool_decide (LoadBalancer_ s = None :> option LoadBalancer) then
        (None, Some (OtherErr "Load balancer can not be nil"))
      else
        let s := if (HttpReadTimeout s =? 0)%Z
                 then mkProxySettings (ControlServers s) (ThrottlerBackend s)
                        (LoadBalancer_ s) DefaultHttpReadTimeout (HttpDialTimeout s)
                 else s in
        let s := if (HttpReadTimeout s =? 0)%Z
                 then mkProxySettings (ControlServers s) (ThrottlerBackend s)
                        (LoadBalancer_ s) (HttpReadTimeout s) DefaultHttpDialTimeout
                 else s in
        (Some s, None)
  end.

Section replyError.

(** The [Body] of an [HttpError] is declared outside the files at hand;
    what follows holds for any function in its place. *)
Variable Body : HttpError → list byte.

(** [replyError]: an error that is no [HttpError] is answered as a 500;
    [io.Copy(ioutil.Discard, req.Body)] reads the request body to its
    end. *)
Definition replyError (err : error) (req : http.Request) : Go http.world unit :=
  (let httpErr :=
     match err with
     | HttpErr e => e
     | OtherErr _ => NewHttpError http.StatusInternalServerError
     end in
   body <~ deref (λ w, http.bodies w !! http.Body req) ;;
   modify (http.set_bodies (λ bs, <[http.Body req := snd (io.ReadAll body)]> bs)) ;;;
   modify (http.set_client (λ c,
     http.mkResponseWriter
       (textproto.Set_ (http.wHeader c) "Content-Type" "application/json")
       (http.wStatus c ++ [StatusCode httpErr])
       (http.wBody c ++ Body httpErr))))%go.

End replyError.

End vulcan.

(** ** Package httploc: location options and request rewriting *)

Module httploc.

(** The time providers of the gotools-time library the sources name: the
    real clock and a frozen one. Only whether one was supplied matters
    to [parseOptions]. *)
Inductive TimeProvider :=
| RealTime
| FreezedTime (CurrentTime : Z).

Record Timeouts_t := mkTimeouts {
  Read : Z;
  Dial : Z;
}.

Record Options := mkOptions {
  Timeouts : Timeouts_t;
  ShouldFailover : option failover.Predicate;
  Hostname : string;
  TrustForwardHeader : bool;
  TimeProvider_ : option TimeProvider;
}.

(** The fields of [HttpLocation] that rewriting reads. *)
Record HttpLocation := mkHttpLocation {
  id : string;
  options : Options;
}.

Definition Second : Z := 1000000000.
Definition DefaultHttpReadTimeout : Z := 10 * Second.
Definition DefaultHttpDialTimeout : Z := 10 * Second.

Definition BalancerId : string := "__loadBalancer".

Section environment.

(** [os.Hostname()] as the operating system answers it: a name and an
    error ([None]: nil). *)
Variable os_Hostname : string * option string.

(** [net.SplitHostPort]: host and port, or [None] on an error. *)
Variable net_SplitHostPort : string → option (string * string).

Definition parseOptions (o : Options) : Options * option string :=
  let o := if bool_decide (Read (Timeouts o) ≤ 0)%Z
           then mkOptions (mkTimeouts DefaultHttpReadTimeout (Dial (Timeouts o)))
                  (ShouldFailover o) (Hostname o) (TrustForwardHeader o) (TimeProvider_ o)
           else o in
  let o := if bool_decide (Dial (Timeouts o) ≤ 0)%Z
           then mkOptions (mkTimeouts (Read (Timeouts o)) DefaultHttpDialTimeout)
                  (ShouldFailover o) (Hostname o) (TrustForwardHeader o) (TimeProvider_ o)
           else o in
  let o := if String.eqb (Hostname o) ""
           then
             let '(h, err) := os_Hostname in
             if bool_decide (err ≠ None)
             then mkOptions (Timeouts o) (ShouldFailover o) h
                    (TrustForwardHeader o) (TimeProvider_ o)
             else o
           else o in
  let o := if bool_decide (TimeProvider_ o = None)
           then mkOptions (Timeouts o) (ShouldFailover o) (Hostname o)
                  (TrustForwardHeader o) (Some RealTime)
           else o in
  let o := if bool_decide (ShouldFailover o = None)
           then mkOptions (Timeouts o)
                  (Some (failover.And [failover.MaxAttempts 2; failover.OnErrors;
                                       failover.OnGets]))
                  (Hostname o) (TrustForwardHeader o) (TimeProvider_ o)
           else o in
  (o, None).

(** [strings.Join]. *)
Fixpoint Join (elems : list string) (sep : string) : string :=
  match elems with
  | [] => ""
  | [e] => e
  | e :: rest => e +:+ sep +:+ Join rest sep
  end.

Definition rewriteRequest (l : HttpLocation) (req : http.Request)
    (endpoint : loadbalance.Endpoint) : Go http.world http.Request :=
  (let outReq := req in
   http.update_url (http.URL outReq)
     (url.with_Scheme (url.Scheme (loadbalance.GetUrl endpoint))) ;;;
   http.update_url (http.URL outReq)
     (url.with_Host (url.Host (loadbalance.GetUrl endpoint))) ;;;
   q <~ deref (λ w, http.urls w !! http.URL req) ;;
   http.update_url (http.URL outReq) (url.with_RawQuery (url.RawQuery q)) ;;;
   let outReq := http.with_Proto "HTTP/1.1" 1 1 outReq in
   let outReq := http.with_Close false outReq in
   h <~ http.make_header ;;
   let outReq := http.with_Header (Some h) outReq in
   reqHeader <~ http.read_header (http.Header req) ;;
   http.update_header (http.Header outReq)
     (λ dst, netutils.CopyHeaders dst reqHeader) ;;;
   match net_SplitHostPort (http.RemoteAddr req) with
   | Some (clientIP, _) =>
       out <~ http.read_header (http.Header outReq) ;;
       let clientIP :=
         if TrustForwardHeader (options l) then
           match out !! headers.XForwardedFor with
           | Some prior => Join prior ", " +:+ ", " +:+ clientIP
           | None => clientIP
           end
         else clientIP in
       http.update_header (http.Header outReq)
         (λ m, textproto.Set_ m headers.XForwardedFor clientIP)
   | None => ret tt
   end ;;;
   http.update_header (http.Header outReq)
     (λ m, textproto.Set_ m headers.XForwardedProto
             (if http.TLS req then "https" else "http")) ;;;
   (if negb (String.eqb (http.Host req) "")
    then http.update_header (http.Header outReq)
           (λ m, textproto.Set_ m headers.XForwardedHost (http.Host req))
    else ret tt) ;;;
   http.update_header (http.Header outReq)
     (λ m, textproto.Set_ m headers.XForwardedServer (Hostname (options l))) ;;;
   http.delete_header (http.Header outReq)
     (netutils.RemoveHeaders headers.HopHeaders) ;;;
   ret outReq)%go.

End environment.

End httploc.

(** ** Package roundrobin: the weight-adjusting FSM handler *)

Module roundrobin.

(** What a [*WeightedEndpoint] shows at the time of a call: its id, its
    fixed original weight, its current effective weight (set by the load
    balancer between calls) and its meter. *)
Record WeightedEndpoint := mkWeightedEndpoint {
  GetId : string;
  GetOriginalWeight : Z;
  GetEffectiveWeight : Z;
  meter_IsReady : bool;
  meter_GetWindowSize : Z;
}.

(** [EndpointWeight], the [SuggestedWeight] the handler hands out. *)
Record EndpointWeight := mkEndpointWeight {
  Endpoint : loc;
  Weight : Z;
}.

(** The surroundings of one call: the clock, the endpoints behind the
    handler's pointers, and for each endpoint the outcome of the
    floating-point test [e.failRate() > m+mAbs*1.5] of [splitEndpoints]
    (medians over [float64] are not modelled). *)
Record env := mkEnv {
  UtcNow : Z;
  at_ : loc → WeightedEndpoint;
  failRateAboveThreshold : loc → bool;
}.

Record FSMHandler := mkFSMHandler {
  backoffDuration : Z;
  timer : Z;
  endpoints : list loc;
  originalWeights : list EndpointWeight;
  lastWeights : list EndpointWeight;
}.

Definition FSMMaxWeight : Z := 4096.
Definition FSMGrowFactor : Z := 16.

Definition Second : Z := 1000000000.

(** [NewFSMHandler]: every field at its zero value. *)
Definition NewFSMHandler : FSMHandler := mkFSMHandler 0 0 [] [] [].

Definition increase (weight : Z) : Z := wrap64 (weight * FSMGrowFactor).

Definition decrease (target current : Z) : Z :=
  let adjusted := (current ÷ FSMGrowFactor)%Z in
  if (adjusted <? target)%Z then target else adjusted.

Definition makeOriginalWeights (e : env) (endpoints : list loc) : list EndpointWeight :=
  map (λ l, mkEndpointWeight l (GetOriginalWeight (at_ e l))) endpoints.

Definition metricsReady (e : env) (endpoints : list loc) : bool :=
  forallb (λ l, meter_IsReady (at_ e l)) endpoints.

Definition splitEndpoints (e : env) (endpoints : list loc) : gset string * gset string :=
  foldl (λ '(good, bad) l,
           if failRateAboveThreshold e l
           then (good, {[GetId (at_ e l)]} ∪ bad)
           else ({[GetId (at_ e l)]} ∪ good, bad))
        (∅, ∅) endpoints.

Definition Init (e : env) (endpoints : list loc) (fsm : FSMHandler) : FSMHandler :=
  let originalWeights := makeOriginalWeights e endpoints in
  let backoffDuration :=
    match endpoints with
    | first :: _ => (meter_GetWindowSize (at_ e first) ÷ 2)%Z
    | [] => backoffDuration fsm
    end in
  mkFSMHandler backoffDuration (UtcNow e + -1 * Second)%Z endpoints
               originalWeights originalWeights.

Definition setTimer (e : env) (fsm : FSMHandler) : FSMHandler :=
  mkFSMHandler (backoffDuration fsm) (UtcNow e + backoffDuration fsm)%Z
               (endpoints fsm) (originalWeights fsm) (lastWeights fsm).

Definition timerExpired (e : env) (fsm : FSMHandler) : bool :=
  (timer fsm <? UtcNow e)%Z.

Definition set_lastWeights (weights : list EndpointWeight) (fsm : FSMHandler) : FSMHandler :=
  mkFSMHandler (backoffDuration fsm) (timer fsm) (endpoints fsm)
               (originalWeights fsm) weights.

Section gcd.

(** [gcd] is declared outside the files at hand; what follows holds for
    any function in its place. *)
Variable gcd : Z → Z → Z.

Definition weightsGcd (weights : list EndpointWeight) : Z :=
  foldl (λ divisor w,
           if (divisor =? -1)%Z then Weight w else gcd divisor (Weight w))
        (-1)%Z weights.

Definition normalizeWeights (weights : list EndpointWeight) : list EndpointWeight :=
  let g := weightsGcd weights in
  if (g <=? 1)%Z then weights
  else map (λ w, mkEndpointWeight (Endpoint w) (Weight w ÷ g)%Z) weights.

Definition convergeWeights (e : env) (fsm : FSMHandler) : list EndpointWeight * bool :=
  let weights :=
    map (λ l, mkEndpointWeight l
                (decrease (GetOriginalWeight (at_ e l)) (GetEffectiveWeight (at_ e l))))
        (endpoints fsm) in
  let changed :=
    existsb (λ l, negb (GetEffectiveWeight (at_ e l) =? GetOriginalWeight (at_ e l))%Z)
            (endpoints fsm) in
  (normalizeWeights weights, changed).

Definition adjustWeights (e : env) (fsm : FSMHandler) (good bad : gset string)
  : list EndpointWeight :=
  normalizeWeights
    (map (λ l,
            if bool_decide (GetId (at_ e l) ∈ good)
               && (increase (GetEffectiveWeight (at_ e l)) <=? FSMMaxWeight)%Z
            then mkEndpointWeight l (increase (GetEffectiveWeight (at_ e l)))
            else mkEndpointWeight l (GetEffectiveWeight (at_ e l)))
         (endpoints fsm)).

(** [AdjustWeights]: the suggested weights (the error is always nil) and
    the handler afterwards. *)
Definition AdjustWeights (e : env) (fsm : FSMHandler) : list EndpointWeight * FSMHandler :=
  if bool_decide (length (endpoints fsm) < 2) then (originalWeights fsm, fsm)
  else if negb (metricsReady e (endpoints fsm)) then (originalWeights fsm, fsm)
  else if negb (timerExpired e fsm) then (lastWeights fsm, fsm)
  else
    let '(good, bad) := splitEndpoints e (endpoints fsm) in
    if bool_decide (size bad = 0) || bool_decide (size good = 0) then
      let '(weights, changed) := convergeWeights e fsm in
      let fsm := if changed then setTimer e (set_lastWeights weights fsm) else fsm in
      (lastWeights fsm, fsm)
    else
      let fsm := set_lastWeights (adjustWeights e fsm good bad) fsm in
      let fsm := setTimer e fsm in
      (lastWeights fsm, fsm).

(** A call on the handler together with its surroundings. *)
Inductive call :=
| CallInit (e : env) (endpoints : list loc)
| CallAdjustWeights (e : env).

(** The weight lists [AdjustWeights] publishes over a sequence of calls. *)
Fixpoint published (fsm : FSMHandler) (calls : list call) : list (list EndpointWeight) :=
  match calls with
  | [] => []
  | CallInit e endpoints :: rest => published (Init e endpoints fsm) rest
  | CallAdjustWeights e :: rest =>
      let '(weights, fsm') := AdjustWeights e fsm in
      weights :: published fsm' rest
  end.

End gcd.

(** *** The cursor table *)

(** [fnv.New32]: 32-bit FNV-1, multiply then xor, byte by byte. *)
Definition offset32 : Z := 2166136261.
Definition prime32 : Z := 16777619.

Definition sum32_Write (h : Z) (data : string) : Z :=
  foldl (λ hash ch, Z.lxor (wrap32 (hash * prime32)) (Z.of_N (N_of_ascii ch)))
        h (String.list_ascii_of_string data).

Definition computeHash (endpoints : list loadbalance.Endpoint) : Z :=
  foldl (λ h endpoint, sum32_Write h (loadbalance.Id endpoint)) offset32 endpoints.

Record cursor := mkCursor {
  index : Z;
  hash : Z;
  item : option loc;
  endpointIds : list string;
}.

(** Modelled from the spec: [pqItem] and [priorityQueue] are declared
    outside the files at hand. §4.6: expiry times are kept in a min-heap
    keyed by expiry time, each cursor holding a back-reference to its
    heap item; the code reads the item's cursor [c] and its [priority].
    The queue is the list of its items; [Peek] and [heap.Pop] take the
    first item of least priority, [heap.Push] adds an item and [Update]
    sets an item's priority. *)
Record pqItem := mkPqItem {
  c : loc;
  priority : Z;
}.

(** The [cursorMap] and the cursors and queue items it points to. *)
Record cursorMap := mkCursorMap {
  cursors : gmap Z (list loc);
  expiryTimes : list loc;
  cursor_at : list cursor;
  item_at : list pqItem;
}.

Definition set_cursors (f : gmap Z (list loc) → gmap Z (list loc)) (cm : cursorMap) :=
  mkCursorMap (f (cursors cm)) (expiryTimes cm) (cursor_at cm) (item_at cm).
Definition set_expiryTimes (f : list loc → list loc) (cm : cursorMap) :=
  mkCursorMap (cursors cm) (f (expiryTimes cm)) (cursor_at cm) (item_at cm).
Definition set_cursor_at (f : list cursor → list cursor) (cm : cursorMap) :=
  mkCursorMap (cursors cm) (expiryTimes cm) (f (cursor_at cm)) (item_at cm).
Definition set_item_at (f : list pqItem → list pqItem) (cm : cursorMap) :=
  mkCursorMap (cursors cm) (expiryTimes cm) (cursor_at cm) (f (item_at cm)).

Definition newCursorMap : cursorMap := mkCursorMap ∅ [] [] [].

(** Index of the first least element. *)
Fixpoint argmin (ps : list Z) : option nat :=
  match ps with
  | [] => None
  | p :: rest =>
      match argmin rest with
      | Some j => if (default p (rest !! j) <? p)%Z then Some (S j) else Some 0%nat
      | None => Some 0%nat
      end
  end.

(** The priorities of the queued items, in queue order. *)
Definition priorities : Go cursorMap (list Z) :=
  deref (λ cm, mapM (λ i, priority <$> item_at cm !! i) (expiryTimes cm)).

Definition pq_Len : Go cursorMap nat := gets (λ cm, length (expiryTimes cm)).

Definition pq_Peek : Go cursorMap loc :=
  (ps <~ priorities ;;
   match argmin ps with
   | Some j => deref (λ cm, expiryTimes cm !! j)
   | None => panic
   end)%go.

Definition heap_Pop : Go cursorMap loc :=
  (ps <~ priorities ;;
   match argmin ps with
   | Some j =>
       i <~ deref (λ cm, expiryTimes cm !! j) ;;
       modify (set_expiryTimes (delete j)) ;;;
       ret i
   | None => panic
   end)%go.

Definition heap_Push (i : loc) : Go cursorMap unit :=
  modify (set_expiryTimes (λ pq, pq ++ [i])).

Definition pq_Update (i : option loc) (expiryTime : Z) : Go cursorMap unit :=
  match i with
  | None => panic
  | Some i =>
      (it <~ deref (λ cm, item_at cm !! i) ;;
       modify (set_item_at (λ items, <[i := mkPqItem (c it) expiryTime]> items)))%go
  end.

Definition newCursor (endpoints : list loadbalance.Endpoint) : cursor :=
  mkCursor 0 (computeHash endpoints) None (map loadbalance.Id endpoints).

Definition sameEndpoints (co : cursor) (endpoints : list loadbalance.Endpoint) : bool :=
  if negb (length (endpointIds co) =? length endpoints)%nat then false
  else forallb (λ '(a, b), String.eqb a (loadbalance.Id b))
               (zip (endpointIds co) endpoints).

Fixpoint getCursor_loop (cs : list loc) (endpoints : list loadbalance.Endpoint)
  : Go cursorMap (option loc) :=
  match cs with
  | [] => ret None
  | c :: rest =>
      (co <~ deref (λ cm, cursor_at cm !! c) ;;
       if sameEndpoints co endpoints then ret (Some c)
       else getCursor_loop rest endpoints)%go
  end.

Definition getCursor (endpoints : list loadbalance.Endpoint) : Go cursorMap (option loc) :=
  (let cursorHash := computeHash endpoints in
   found <~ gets (λ cm, cursors cm !! cursorHash) ;;
   match found with
   | None => ret None
   | Some cs =>
       if (length cs =? 1)%nat then ret (cs !! 0%nat)
       else getCursor_loop cs endpoints
   end)%go.

Definition addCursor (endpoints : list loadbalance.Endpoint) : Go cursorMap loc :=
  (let co := newCursor endpoints in
   c <~ gets (λ cm, length (cursor_at cm)) ;;
   modify (set_cursor_at (λ objs, objs ++ [co])) ;;;
   found <~ gets (λ cm, cursors cm !! hash co) ;;
   match found with
   | None => modify (set_cursors (λ m, <[hash co := [c]]> m))
   | Some cs => modify (set_cursors (λ m, <[hash co := cs ++ [c]]> m))
   end ;;;
   ret c)%go.

Definition upsertCursor (endpoints : list loadbalance.Endpoint) (expiryTime : Z)
  : Go cursorMap loc :=
  (found <~ getCursor endpoints ;;
   match found with
   | Some c =>
       co <~ deref (λ cm, cursor_at cm !! c) ;;
       pq_Update (item co) expiryTime ;;;
       ret c
   | None =>
       c <~ addCursor endpoints ;;
       i <~ gets (λ cm, length (item_at cm)) ;;
       modify (set_item_at (λ items, items ++ [mkPqItem c expiryTime])) ;;;
       co <~ deref (λ cm, cursor_at cm !! c) ;;
       modify (set_cursor_at (λ objs,
         <[c := mkCursor (index co) (hash co) (Some i) (endpointIds co)]> objs)) ;;;
       heap_Push i ;;;
       ret c
   end)%go.

Definition cursorIndex (c : loc) : Go cursorMap Z :=
  (co <~ deref (λ cm, cursor_at cm !! c) ;;
   found <~ gets (λ cm, cursors cm !! hash co) ;;
   match found with
   | None => ret (-1)%Z
   | Some cs =>
       match list_find (λ c2, c2 = c) cs with
       | Some (i, _) => ret (Z.of_nat i)
       | None => ret (-1)%Z
       end
   end)%go.

(** [deleteCursor]: the error it returns ([None]: nil). *)
Definition deleteCursor (c : loc) : Go cursorMap (option string) :=
  (co <~ deref (λ cm, cursor_at cm !! c) ;;
   found <~ gets (λ cm, cursors cm !! hash co) ;;
   match found with
   | None => ret (Some "Cursor not found")
   | Some cs =>
       index <~ cursorIndex c ;;
       if (index =? -1)%Z then ret (Some "Cursor not found")
       else if (index =? 0)%Z && (length cs =? 1)%nat then
         modify (set_cursors (delete (hash co))) ;;;
         ret None
       else
         modify (set_cursors (λ m,
           <[hash co := take (Z.to_nat index) cs ++ drop (Z.to_nat (index + 1)) cs]> m)) ;;;
         ret None
   end)%go.

Definition endpointSetsEqual (a b : list loadbalance.Endpoint) : bool :=
  if negb (length a =? length b)%nat then false
  else forallb (λ '(x, y), String.eqb (loadbalance.Id x) (loadbalance.Id y)) (zip a b).

(** The loop of [deleteExpiredCursors]; every turn that does not break
    pops an item, so the queue length bounds the number of turns ([None]
    past that bound as on a panic). *)
Fixpoint deleteExpiredCursors_loop (turns : nat) (now : Z) : Go cursorMap unit :=
  (n <~ pq_Len ;;
   if (n =? 0)%nat then ret tt
   else
     i <~ pq_Peek ;;
     it <~ deref (λ cm, item_at cm !! i) ;;
     if (priority it >? now)%Z then ret tt
     else
       match turns with
       | O => panic
       | S turns =>
           i <~ heap_Pop ;;
           it <~ deref (λ cm, item_at cm !! i) ;;
           deleteCursor (c it) ;;;
           deleteExpiredCursors_loop turns now
       end)%go.

Definition deleteExpiredCursors (now : Z) : Go cursorMap unit :=
  (n <~ pq_Len ;; deleteExpiredCursors_loop n now)%go.

(** The loop of the cursor's [next] method, [turns] iterations being
    left; the result is the endpoint and the error. [c.index] has just
    addressed the slice when one is added to it, so the sum is within
    [int]. *)
Fixpoint next_loop (turns : nat) (c : loc) (endpoints : list loadbalance.Endpoint)
  : Go cursorMap (option loadbalance.Endpoint * option string) :=
  match turns with
  | O => ret (None, Some "No available endpoints!")
  | S turns =>
      (co <~ deref (λ cm, cursor_at cm !! c) ;;
       endpoint <~ (if (index co <? 0)%Z then panic
                    else deref (λ _, endpoints !! Z.to_nat (index co))) ;;
       modify (set_cursor_at (λ objs,
         <[c := mkCursor (Z.rem (index co + 1) (Z.of_nat (length endpoints)))
                         (hash co) (item co) (endpointIds co)]> objs)) ;;;
       if loadbalance.IsActive endpoint then ret (Some endpoint, None)
       else next_loop turns c endpoints)%go
  end.

Definition next (c : loc) (endpoints : list loadbalance.Endpoint)
  : Go cursorMap (option loadbalance.Endpoint * option string) :=
  next_loop (length endpoints) c endpoints.

End roundrobin.

(** * Specification vocabulary and sample inputs *)

(** ** Settings validation (proxy.go) *)

(** What [validateProxySettings] accepts. *)
Definition accepted {Backend} (s : vulcan.ProxySettings Backend) : Prop :=
  vulcan.ControlServers s ≠ [] ∧ vulcan.ThrottlerBackend s ≠ None ∧
  vulcan.LoadBalancer_ s ≠ None.

(** Settings that pass every check and leave both timeouts at zero. *)
Definition zero_timeout_settings : vulcan.ProxySettings unit :=
  vulcan.mkProxySettings ["http://localhost:5000"] (Some tt)
    (Some (vulcan.mkLoadBalancer (λ us, (us, None)) (λ us, (us, None))
             (λ stats, (map vulcan.upstream stats, None))))
    0 0.

(** ** Running computations *)

(** The map behind a request's [Header] field. *)
Definition header_of (h : option loc) (hs : list textproto.MIMEHeader)
  : option textproto.MIMEHeader :=
  match h with
  | None => Some ∅
  | Some l => hs !! l
  end.

(** What location-level rewriting leaves in the outbound header map, from
    the inbound map [reqHeader]. *)
Definition location_outbound_header
    (net_SplitHostPort : string → option (string * string))
    (l : httploc.HttpLocation) (req : http.Request)
    (reqHeader : textproto.MIMEHeader) : textproto.MIMEHeader :=
  let h := netutils.CopyHeaders ∅ reqHeader in
  let h :=
    match net_SplitHostPort (http.RemoteAddr req) with
    | Some (clientIP, _) =>
        textproto.Set_ h headers.XForwardedFor
          (if httploc.TrustForwardHeader (httploc.options l) then
             match h !! headers.XForwardedFor with
             | Some prior => httploc.Join prior ", " +:+ ", " +:+ clientIP
             | None => clientIP
             end
           else clientIP)
    | None => h
    end in
  let h := textproto.Set_ h headers.XForwardedProto
             (if http.TLS req then "https" else "http") in
  let h := if negb (String.eqb (http.Host req) "")
           then textproto.Set_ h headers.XForwardedHost (http.Host req)
           else h in
  let h := textproto.Set_ h headers.XForwardedServer
             (httploc.Hostname (httploc.options l)) in
  netutils.RemoveHeaders headers.HopHeaders h.

(** Whether proxy-level rewriting allocates a header map of its own. *)
Definition proxy_copies_headers (upstream : vulcan.Upstream)
    (reqHeader : textproto.MIMEHeader) : bool :=
  bool_decide (is_Some (vulcan.Headers upstream))
  || vulcan.hasHeaders vulcan.hopHeaders reqHeader.

(** What proxy-level rewriting leaves in the outbound header map, from
    the inbound map [reqHeader]. *)
Definition proxy_outbound_header (upstream : vulcan.Upstream)
    (reqHeader : textproto.MIMEHeader) : textproto.MIMEHeader :=
  let h := if proxy_copies_headers upstream reqHeader
           then vulcan.copyHeaders ∅ reqHeader
           else reqHeader in
  let h := match vulcan.Headers upstream with
           | Some upstreamHeaders => vulcan.copyHeaders h upstreamHeaders
           | None => h
           end in
  vulcan.removeHeaders vulcan.hopHeaders h.

(** The inbound URL object after proxy-level rewriting. *)
Definition proxy_outbound_url (upstream : vulcan.Upstream) (u : url.URL) : url.URL :=
  url.mkURL (url.Scheme (vulcan.Url upstream)) (url.Host (vulcan.Url upstream))
            (url.Path (vulcan.Url upstream)) (url.RawQuery u).

(** ** Header hygiene *)

(** A request whose URL pointer and header map are objects of the world
    (a nil header map counts). *)
Definition request_allocated (req : http.Request) (w : http.world) : Prop :=
  is_Some (http.urls w !! http.URL req) ∧
  is_Some (header_of (http.Header req) (http.headers w)).

(** No hop-by-hop header name is a key of the map. *)
Definition no_hop_headers (m : textproto.MIMEHeader) : Prop :=
  ∀ k, k ∈ vulcan.hopHeaders → m !! k = None.

(** ** Sharing between the inbound and the outbound request *)

(** The outbound header map is an object of its own: it is none of the
    maps of [w] (the inbound one included), the rewriting left the
    inbound map as it was, and so does every later write through the
    outbound request. *)
Definition outbound_header_fresh (req outReq : http.Request) (w w' : http.world) : Prop :=
  ∃ h, http.Header outReq = Some h ∧
       length (http.headers w) ≤ h ∧
       http.Header outReq ≠ http.Header req ∧
       header_of (http.Header req) (http.headers w')
       = header_of (http.Header req) (http.headers w) ∧
       ∀ f w'', http.update_header (http.Header outReq) f w' = Some (tt, w'') →
                header_of (http.Header req) (http.headers w'')
                = header_of (http.Header req) (http.headers w).

(** ** Sample inputs *)

Definition sample_bytes (s : string) : list byte := String.list_byte_of_string s.

(** An inbound request [POST /v1/items?page=2] with a [Connection] header
    and a five-byte body, and the world holding its URL, header map and
    body. *)
Definition sample_request : http.Request :=
  http.mkRequest "POST" 0 "HTTP/1.0" 1 0 (Some 0%nat) 0 true
                 "proxy.example" "10.0.0.7:51234" false.

Definition sample_world : http.world :=
  http.mkWorld
    [url.mkURL "http" "proxy.example" "/v1/items" "page=2"]
    [<["Connection" := ["close"]]> {["Accept" := ["*/*"]]}]
    [io.NetBody (sample_bytes "hello") false]
    (http.mkResponseWriter ∅ [] [])
    [].

(** The same request when the client sent no hop-by-hop header. *)
Definition plain_world : http.world :=
  http.mkWorld
    [url.mkURL "http" "proxy.example" "/v1/items" "page=2"]
    [{["Accept" := ["*/*"]]}]
    [io.NetBody (sample_bytes "hello") false]
    (http.mkResponseWriter ∅ [] [])
    [].

Definition upstream_a : vulcan.Upstream :=
  vulcan.mkUpstream (url.mkURL "http" "a.internal:8080" "/api" "") None.
Definition upstream_b : vulcan.Upstream :=
  vulcan.mkUpstream (url.mkURL "https" "b.internal:8443" "/api" "")
                    (Some {["X-Upstream" := ["b"]]}).

Definition endpoint_a : loadbalance.Endpoint :=
  loadbalance.mkEndpoint "a" (url.mkURL "http" "a.internal:8080" "" "") true.

Definition sample_location : httploc.HttpLocation :=
  httploc.mkHttpLocation "loc1"
    (httploc.mkOptions (httploc.mkTimeouts 0 0) None "" false None).

(** A splitter good enough for the sample address. *)
Definition sample_SplitHostPort (hostport : string) : option (string * string) :=
  if String.eqb hostport "10.0.0.7:51234" then Some ("10.0.0.7", "51234") else None.

(** A load balancer that keeps the order it is given, a transport that
    refuses every connection, and a throttler whose backend reports that
    every budget is spent for the next thirty seconds. *)
Definition keep_order : vulcan.LoadBalancer :=
  vulcan.mkLoadBalancer (λ us, (us, None)) (λ us, (us, None))
                        (λ stats, (map vulcan.upstream stats, None)).

Definition refusing_transport : http.Transport :=
  http.mkTransport (λ _ _ _ _, (None, 0%nat)).

Definition throttled_proxy : vulcan.ReverseProxy :=
  vulcan.mkReverseProxy []
    (vulcan.mkThrottler (λ _, ([], 30%Z, None)) (λ _ _, None))
    keep_order refusing_transport.

Definition sample_instructions : vulcan.ProxyInstructions :=
  vulcan.mkProxyInstructions true ["account-7"] [upstream_a; upstream_b] ∅.

(** ** The FSM handler's weights *)

(** A weight list within [FSMMaxWeight]. *)
Definition weights_bounded (ws : list roundrobin.EndpointWeight) : Prop :=
  Forall (λ w, (roundrobin.Weight w ≤ roundrobin.FSMMaxWeight)%Z) ws.

(** An endpoint whose original and effective weights are within
    [FSMMaxWeight]. *)
Definition endpoint_bounded (e : roundrobin.WeightedEndpoint) : Prop :=
  (roundrobin.GetOriginalWeight e ≤ roundrobin.FSMMaxWeight)%Z ∧
  (roundrobin.GetEffectiveWeight e ≤ roundrobin.FSMMaxWeight)%Z.

(** Every call of the sequence sees the handler's endpoints (those of
    the latest [Init]) within bounds. *)
Fixpoint calls_bounded (current : list loc) (calls : list roundrobin.call) : Prop :=
  match calls with
  | [] => True
  | roundrobin.CallInit e endpoints :: rest =>
      (∀ l, l ∈ endpoints → endpoint_bounded (roundrobin.at_ e l)) ∧
      calls_bounded endpoints rest
  | roundrobin.CallAdjustWeights e :: rest =>
      (∀ l, l ∈ current → endpoint_bounded (roundrobin.at_ e l)) ∧
      calls_bounded current rest
  end.

(** What the handler stores stays within bounds. *)
Definition fsm_bounded (fsm : roundrobin.FSMHandler) : Prop :=
  weights_bounded (roundrobin.originalWeights fsm) ∧
  weights_bounded (roundrobin.lastWeights fsm).

(** Two ready endpoints an hour after start: [a] with weight 5000 and a
    fail rate below the threshold, [b] with weight 1 and a fail rate
    above it. *)
Definition heavy_env : roundrobin.env :=
  roundrobin.mkEnv 3600000000000
    (λ l, match l with
          | O => roundrobin.mkWeightedEndpoint "a" 5000 5000 true 10000000000
          | _ => roundrobin.mkWeightedEndpoint "b" 1 1 true 10000000000
          end)
    (λ l, match l with O => false | _ => true end).

Definition heavy_calls : list roundrobin.call :=
  [roundrobin.CallInit heavy_env [0; 1]%nat; roundrobin.CallAdjustWeights heavy_env].

(** Three ready endpoints of weight 1, the third with a fail rate above
    the threshold. *)
Definition demo_env : roundrobin.env :=
  roundrobin.mkEnv 3600000000000
    (λ l, roundrobin.mkWeightedEndpoint
            (match l with O => "a" | S O => "b" | _ => "c" end)
            1 1 true 10000000000)
    (λ l, match l with S (S _) => true | _ => false end).

Definition demo_calls : list roundrobin.call :=
  [roundrobin.CallInit demo_env [0; 1; 2]%nat; roundrobin.CallAdjustWeights demo_env].

(** ** Forwarding with failover *)

(** The exchange is an attempt at [upstream]. *)
Definition sent_to (upstream : vulcan.Upstream) (x : http.Exchange) : Prop :=
  url.Scheme (http.xURL x) = url.Scheme (vulcan.Url upstream) ∧
  url.Host (http.xURL x) = url.Host (vulcan.Url upstream) ∧
  url.Path (http.xURL x) = url.Path (vulcan.Url upstream).

(** What the client has received once a response was mirrored to it. *)
Definition mirrored (cl : http.ResponseWriter) (res : option http.Response)
  : http.ResponseWriter :=
  match res with
  | None => cl
  | Some r =>
      http.mkResponseWriter
        (vulcan.copyHeaders (http.wHeader cl) (http.RespHeader r))
        (http.wStatus cl ++ [http.StatusCode r])
        (http.wBody cl ++ http.RespBody r)
  end.

(** The error [proxyToUpstream] returns for a round trip's outcome. *)
Definition forward_error (res : option http.Response) : option vulcan.error :=
  match res with
  | None => Some (vulcan.HttpErr (vulcan.NewHttpError http.StatusBadGateway))
  | Some _ => None
  end.

(** How a failover run over [upstreams] went, read off the exchanges it
    added to the wire: the upstreams are tried in list order, every
    attempt is sent the whole [buffer], an attempt that fails is followed
    by the next upstream, the first that succeeds ends the run with that
    upstream, and when the list is exhausted the run ends with 502. *)
Inductive failover_run (buffer : list byte)
  : list vulcan.Upstream → list http.Exchange →
    option vulcan.Upstream * option vulcan.error → Prop :=
| run_exhausted :
    failover_run buffer [] []
      (None, Some (vulcan.HttpErr (vulcan.NewHttpError http.StatusBadGateway)))
| run_succeeded upstream rest x r :
    sent_to upstream x → http.xBody x = buffer → http.xResult x = Some r →
    failover_run buffer (upstream :: rest) [x] (Some upstream, None)
| run_failed upstream rest x xs res :
    sent_to upstream x → http.xBody x = buffer → http.xResult x = None →
    failover_run buffer rest xs res →
    failover_run buffer (upstream :: rest) (x :: xs) res.

(** A transport on which only [b.internal:8443] answers (with 200 "ok",
    having read the whole body); every other host refuses the
    connection. *)
Definition only_b_answers : http.Transport :=
  http.mkTransport (λ _ target _ body,
    if String.eqb (url.Host target) "b.internal:8443"
    then (Some (http.mkResponse 200 ∅ (sample_bytes "ok")), length body)
    else (None, 0%nat)).

Definition sample_proxy : vulcan.ReverseProxy :=
  vulcan.mkReverseProxy []
    (vulcan.mkThrottler (λ _, ([], 0%Z, Some (vulcan.OtherErr "backend down")))
                        (λ _ _, None))
    keep_order only_b_answers.

(** The sample request when the client's connection breaks after three
    bytes of the body. *)
Definition broken_world : http.world :=
  http.mkWorld
    [url.mkURL "http" "proxy.example" "/v1/items" "page=2"]
    [<["Connection" := ["close"]]> {["Accept" := ["*/*"]]}]
    [io.NetBody (sample_bytes "hel") true]
    (http.mkResponseWriter ∅ [] [])
    [].

(** ** The cursor table *)

(** The priority of a queued item and the cursor it points back to. *)
Definition prio (cm : roundrobin.cursorMap) (i : loc) : Z :=
  default 0%Z (roundrobin.priority <$> roundrobin.item_at cm !! i).

(** Cursor [r] and queue item [i] point to each other. *)
Definition slot (cm : roundrobin.cursorMap) (r i : loc) : Prop :=
  ∃ co it, roundrobin.cursor_at cm !! r = Some co ∧ roundrobin.item co = Some i ∧
           roundrobin.item_at cm !! i = Some it ∧ roundrobin.c it = r.

(** Cursor [r] is held by the table, in the bucket of hash [h]. *)
Definition in_bucket (cm : roundrobin.cursorMap) (h : Z) (r : loc) : Prop :=
  ∃ cs, roundrobin.cursors cm !! h = Some cs ∧ r ∈ cs.

Definition in_table (cm : roundrobin.cursorMap) (r : loc) : Prop :=
  ∃ h, in_bucket cm h r.

(** The hash recorded in cursor [r]. *)
Definition hash_of (cm : roundrobin.cursorMap) (r : loc) : option Z :=
  roundrobin.hash <$> roundrobin.cursor_at cm !! r.

(** The expiry time of cursor [r]: the priority of its queue item. *)
Definition expiry_of (cm : roundrobin.cursorMap) (r : loc) : option Z :=
  co ← roundrobin.cursor_at cm !! r;
  i ← roundrobin.item co;
  roundrobin.priority <$> roundrobin.item_at cm !! i.

(** The number of cursors the map holds, over all its buckets. *)
Definition cursor_count (cm : roundrobin.cursorMap) : nat :=
  length (mjoin (snd <$> map_to_list (roundrobin.cursors cm))).

(** Every bucket of the map holds a single cursor, so that the cursors
    are as many as the keys, [len(cm.cursors)]. *)
Definition single_buckets (cm : roundrobin.cursorMap) : Prop :=
  ∀ h cs, roundrobin.cursors cm !! h = Some cs → length cs = 1%nat.

(** Each cursor occupies exactly one heap slot: the queue has no item
    twice and each of its items is the item of a cursor held by the
    table; a bucket has no cursor twice, holds its cursors under their
    own hash, and the item of each of them is in the queue. *)
Record cursorMap_wf (cm : roundrobin.cursorMap) : Prop := mk_cursorMap_wf {
  wf_queue_NoDup : NoDup (roundrobin.expiryTimes cm);
  wf_queue : ∀ i, i ∈ roundrobin.expiryTimes cm →
               ∃ r h, slot cm r i ∧ hash_of cm r = Some h ∧ in_bucket cm h r;
  wf_bucket_NoDup : ∀ h cs, roundrobin.cursors cm !! h = Some cs → NoDup cs;
  wf_bucket : ∀ h r, in_bucket cm h r →
                hash_of cm r = Some h ∧
                ∃ i, slot cm r i ∧ i ∈ roundrobin.expiryTimes cm;
}.

(** *** Counting cursors and heap slots *)

(** The cursor a queued item points back to. *)
Definition cursor_of (cm : roundrobin.cursorMap) (i : loc) : loc :=
  default 0%nat (roundrobin.c <$> roundrobin.item_at cm !! i).

(** *** Running the garbage collection *)

(** The buckets once cursor [r], recorded under hash [h], is deleted. *)
Definition remove_cursor (r : loc) (h : Z) (m : gmap Z (list loc)) : gmap Z (list loc) :=
  match m !! h with
  | None => m
  | Some cs =>
      match list_find (λ c2, c2 = r) cs with
      | None => m
      | Some (idx, _) =>
          if (Z.of_nat idx =? 0)%Z && (length cs =? 1)%nat then delete h m
          else <[h := take idx cs ++ drop (S idx) cs]> m
      end
  end.

(** The table once the queue item at position [j] is popped and its
    cursor deleted. *)
Definition collect (j : nat) (cm : roundrobin.cursorMap) : roundrobin.cursorMap :=
  match roundrobin.expiryTimes cm !! j with
  | Some i =>
      let r := cursor_of cm i in
      roundrobin.mkCursorMap
        (remove_cursor r (default 0%Z (hash_of cm r)) (roundrobin.cursors cm))
        (delete j (roundrobin.expiryTimes cm))
        (roundrobin.cursor_at cm) (roundrobin.item_at cm)
  | None => cm
  end.

(** The position of the first item of least priority. *)
Definition least (cm : roundrobin.cursorMap) : option nat :=
  roundrobin.argmin (prio cm <$> roundrobin.expiryTimes cm).

Definition endpoint_b : loadbalance.Endpoint :=
  loadbalance.mkEndpoint "b" (url.mkURL "http" "b.internal:8080" "" "") true.

(** A table with a cursor for [[a]] expiring at 10 and one for [[b]]
    expiring at 30. *)
Definition demo_table : roundrobin.cursorMap :=
  roundrobin.mkCursorMap
    (<[roundrobin.computeHash [endpoint_b] := [1%nat]]>
       {[roundrobin.computeHash [endpoint_a] := [0%nat]]})
    [0; 1]%nat
    [roundrobin.mkCursor 0 (roundrobin.computeHash [endpoint_a]) (Some 0%nat) ["a"];
     roundrobin.mkCursor 0 (roundrobin.computeHash [endpoint_b]) (Some 1%nat) ["b"]]
    [roundrobin.mkPqItem 0 10; roundrobin.mkPqItem 1 30].

(** *** Cursor lookup *)

Definition endpoint_at (id : string) : loadbalance.Endpoint :=
  loadbalance.mkEndpoint id (url.mkURL "http" id "" "") true.

(** Two endpoints whose ids differ and whose FNV-1 hashes agree. *)
Definition backend_229599 : loadbalance.Endpoint :=
  endpoint_at "http://backend-229599:8080".
Definition backend_432382 : loadbalance.Endpoint :=
  endpoint_at "http://backend-432382:8080".

(** *** Running [upsertCursor] *)

(** The search of [getCursor_loop] over a bucket ([None]: a panic). *)
Fixpoint find_same (ca : list roundrobin.cursor) (endpoints : list loadbalance.Endpoint)
    (cs : list loc) : option (option loc) :=
  match cs with
  | [] => Some None
  | c :: rest =>
      match ca !! c with
      | None => None
      | Some co =>
          if roundrobin.sameEndpoints co endpoints then Some (Some c)
          else find_same ca endpoints rest
      end
  end.

(** What [getCursor] returns ([None]: a panic). *)
Definition find_cursor (m : gmap Z (list loc)) (ca : list roundrobin.cursor)
    (endpoints : list loadbalance.Endpoint) : option (option loc) :=
  match m !! roundrobin.computeHash endpoints with
  | None => Some None
  | Some cs =>
      if (length cs =? 1)%nat then Some (cs !! 0%nat) else find_same ca endpoints cs
  end.

(** What [upsertCursor] returns and leaves behind ([None]: a panic). *)
Definition upsert (endpoints : list loadbalance.Endpoint) (expiryTime : Z)
    (cm : roundrobin.cursorMap) : option (loc * roundrobin.cursorMap) :=
  let '(roundrobin.mkCursorMap m pq ca ia) := cm in
  match find_cursor m ca endpoints with
  | None => None
  | Some (Some c) =>
      co ← ca !! c;
      i ← roundrobin.item co;
      it ← ia !! i;
      Some (c, roundrobin.mkCursorMap m pq ca
                 (<[i := roundrobin.mkPqItem (roundrobin.c it) expiryTime]> ia))
  | Some None =>
      let h := roundrobin.computeHash endpoints in
      Some (length ca,
            roundrobin.mkCursorMap
              (<[h := default [] (m !! h) ++ [length ca]]> m)
              (pq ++ [length ia])
              (ca ++ [roundrobin.mkCursor 0 h (Some (length ia))
                        (map loadbalance.Id endpoints)])
              (ia ++ [roundrobin.mkPqItem (length ca) expiryTime]))
  end.

(** ** Further vocabulary *)

(** The endpoints the handler holds at each [AdjustWeights] call of a
    sequence, [current] being those it holds at the start. *)
Fixpoint endpoints_at_calls (current : list loc) (calls : list roundrobin.call)
  : list (list loc) :=
  match calls with
  | [] => []
  | roundrobin.CallInit _ endpoints :: rest => endpoints_at_calls endpoints rest
  | roundrobin.CallAdjustWeights _ :: rest => current :: endpoints_at_calls current rest
  end.

(** The table with the position of cursor [c] set to [i]. *)
Definition at_index (c : loc) (i : Z) (cm : roundrobin.cursorMap) : roundrobin.cursorMap :=
  roundrobin.set_cursor_at
    (λ objs, match objs !! c with
             | Some co =>
                 <[c := roundrobin.mkCursor i (roundrobin.hash co) (roundrobin.item co)
                          (roundrobin.endpointIds co)]> objs
             | None => objs
             end) cm.

(** [k] calls of [next] in a row, with what each of them returned. *)
Fixpoint next_calls (k : nat) (c : loc) (endpoints : list loadbalance.Endpoint)
  : Go roundrobin.cursorMap (list (option loadbalance.Endpoint * option string)) :=
  match k with
  | O => ret []
  | S k =>
      (r <~ roundrobin.next c endpoints ;;
       rs <~ next_calls k c endpoints ;;
       ret (r :: rs))%go
  end.

(** The tables the code builds: from [newCursorMap] by [upsertCursor],
    [next] on a cursor and [deleteExpiredCursors]. *)
Inductive built : roundrobin.cursorMap → Prop :=
| built_new : built roundrobin.newCursorMap
| built_upsert cm endpoints expiryTime c cm' :
    built cm →
    roundrobin.upsertCursor endpoints expiryTime cm = Some (c, cm') → built cm'
| built_next cm c endpoints r cm' :
    built cm → roundrobin.next c endpoints cm = Some (r, cm') → built cm'
| built_collected cm now cm' :
    built cm → roundrobin.deleteExpiredCursors now cm = Some (tt, cm') → built cm'.

(** An endpoint that is not active. *)
Definition endpoint_down : loadbalance.Endpoint :=
  loadbalance.mkEndpoint "down" (url.mkURL "http" "down.internal:8080" "" "") false.

(** The table after [upsertCursor] for [[endpoint_a]] with expiry 10 on
    a new one. *)
Definition table_a : roundrobin.cursorMap :=
  roundrobin.mkCursorMap
    {[roundrobin.computeHash [endpoint_a] := [0%nat]]}
    [0%nat]
    [roundrobin.mkCursor 0 (roundrobin.computeHash [endpoint_a]) (Some 0%nat) ["a"]]
    [roundrobin.mkPqItem 0 10].

(** A table whose only cursor walks over three endpoints and stands at
    the second. *)
Definition table_three : roundrobin.cursorMap :=
  roundrobin.mkCursorMap
    {[roundrobin.computeHash [endpoint_a; endpoint_down; endpoint_b] := [0%nat]]}
    [0%nat]
    [roundrobin.mkCursor 1 (roundrobin.computeHash [endpoint_a; endpoint_down; endpoint_b])
       (Some 0%nat) ["a"; "down"; "b"]]
    [roundrobin.mkPqItem 0 10].

(** Settings that pass every check, with a negative read timeout. *)
Definition negative_timeout_settings : vulcan.ProxySettings unit :=
  vulcan.mkProxySettings ["http://localhost:5000"] (Some tt) (Some keep_order)
    (-1) 0.




(** * Properties *)

(** ** Settings validation (proxy.go) *)

Section settings.

Context {Backend : Type}.
Implicit Types s : vulcan.ProxySettings Backend.

Lemma validateProxySettings_accepts s :
  accepted s → ∃ s', vulcan.validateProxySettings (Some s) = (Some s', None).
Proof.
  intros (Hcs & Hb & Hlb). unfold vulcan.validateProxySettings.
  rewrite bool_decide_eq_false_2 by (destruct (vulcan.ControlServers s); naive_solver).
  rewrite !bool_decide_eq_false_2 by done. eauto.
Qed.

(** The read timeout does get its default. *)
Lemma validateProxySettings_read_timeout s s' :
  vulcan.validateProxySettings (Some s) = (Some s', None) →
  vulcan.HttpReadTimeout s = 0%Z →
  vulcan.HttpReadTimeout s' = vulcan.DefaultHttpReadTimeout.
Proof.
  unfold vulcan.validateProxySettings. intros H Hz.
  repeat case_bool_decide; try discriminate. rewrite Hz in H. simpl in H.
  by inversion H.
Qed.

(** The second test reads [HttpReadTimeout] again, which by then is never
    zero: the dial timeout comes back as it went in. *)
Lemma validateProxySettings_dial_timeout_kept s s' :
  vulcan.validateProxySettings (Some s) = (Some s', None) →
  vulcan.HttpDialTimeout s' = vulcan.HttpDialTimeout s.
Proof.
  unfold vulcan.validateProxySettings. intros H.
  repeat case_bool_decide; try discriminate.
  destruct (vulcan.HttpReadTimeout s =? 0)%Z eqn:Hz; simpl in H.
  - by inversion H.
  - rewrite Hz in H. by inversion H.
Qed.

End settings.

(** C4, at settings that are accepted and whose [HttpDialTimeout] is zero:
    [validateProxySettings] returns them with [HttpReadTimeout] defaulted
    to ten seconds and [HttpDialTimeout] still zero, not the ten-second
    [DefaultHttpDialTimeout] the claim asks for. *)
Theorem validateProxySettings_zero_dial_timeout :
  ∃ s', vulcan.validateProxySettings (Some zero_timeout_settings) = (Some s', None) ∧
        vulcan.HttpReadTimeout s' = vulcan.DefaultHttpReadTimeout ∧
        vulcan.HttpDialTimeout s' = 0%Z ∧
        vulcan.HttpDialTimeout s' ≠ vulcan.DefaultHttpDialTimeout.
Proof.
  destruct (validateProxySettings_accepts zero_timeout_settings) as [s' Hs'].
  { repeat split; discriminate. }
  exists s'. split; [done|].
  pose proof (validateProxySettings_dial_timeout_kept _ _ Hs') as Hd.
  pose proof (validateProxySettings_read_timeout _ _ Hs' eq_refl) as Hr.
  rewrite Hd. repeat split; [done | discriminate].
Qed.

(** ** Upstream selection (proxy.go) *)

Section upstreams.

Variable p : vulcan.ReverseProxy.
Variable instructions : vulcan.ProxyInstructions.

(** C2: with [(stats, retry, err)] the throttler's answer, [getUpstreams]
    returns the load balancer's ordering of all the candidate upstreams
    when [err] is set, a [TooManyRequestsError] (status 429 carrying
    [retry] as its retry-after seconds) when there is no error and
    [stats] is empty, and the load balancer's ordering by [stats]
    otherwise. *)
Theorem getUpstreams_cases stats retry err :
  vulcan.throttle (vulcan.throttler p) instructions = (stats, retry, err) →
  (err ≠ None →
     vulcan.getUpstreams p instructions
     = vulcan.sortedUpstreams (vulcan.loadBalancer p) (vulcan.Upstreams instructions)) ∧
  (err = None → stats = [] →
     ∃ e, vulcan.getUpstreams p instructions = ([], Some (vulcan.HttpErr e)) ∧
          e = vulcan.TooManyRequestsError retry ∧
          vulcan.StatusCode e = 429%Z ∧ vulcan.RetryAfter e = Some retry) ∧
  (err = None → stats ≠ [] →
     vulcan.getUpstreams p instructions
     = vulcan.sortedUpstreamsByStats (vulcan.loadBalancer p) stats).
Proof.
  intros Ht. unfold vulcan.getUpstreams. rewrite Ht. repeat split.
  - by destruct err.
  - intros -> ->. eexists. by repeat split.
  - intros -> Hne. rewrite bool_decide_eq_false_2; [done|].
    by destruct stats.
Qed.

End upstreams.

(** ** Running computations *)

Lemma bind_run {Σ A B} (m : Go Σ A) (k : A → Go Σ B) s a s' :
  m s = Some (a, s') → bind m k s = k a s'.
Proof. unfold bind. by intros ->. Qed.

Lemma bind_panic {Σ A B} (m : Go Σ A) (k : A → Go Σ B) s :
  m s = None → bind m k s = None.
Proof. unfold bind. by intros ->. Qed.

Lemma bind_bind {Σ A B C} (m : Go Σ A) (k : A → Go Σ B) (k' : B → Go Σ C) s :
  bind (bind m k) k' s = bind m (λ a, bind (k a) k') s.
Proof. unfold bind. by destruct (m s) as [[a s']|]. Qed.

Lemma bind_ret {Σ A B} (a : A) (k : A → Go Σ B) s : bind (ret a) k s = k a s.
Proof. reflexivity. Qed.

Lemma bind_gets {Σ A B} (f : Σ → A) (k : A → Go Σ B) s :
  bind (gets f) k s = k (f s) s.
Proof. reflexivity. Qed.

Lemma bind_modify {Σ B} (f : Σ → Σ) (k : unit → Go Σ B) s :
  bind (modify f) k s = k tt (f s).
Proof. reflexivity. Qed.

Lemma deref_run {Σ A} (f : Σ → option A) s a :
  f s = Some a → deref f s = Some (a, s).
Proof. unfold deref. by intros ->. Qed.

Section http_steps.

Implicit Types (l : loc) (us : list url.URL) (hs : list textproto.MIMEHeader).

Lemma update_url_run l f us hs bs cl x u :
  us !! l = Some u →
  http.update_url l f (http.mkWorld us hs bs cl x)
  = Some (tt, http.mkWorld (<[l := f u]> us) hs bs cl x).
Proof.
  intros Hu. unfold http.update_url.
  by rewrite (bind_run _ _ _ _ _ (deref_run (λ w, http.urls w !! l)
                (http.mkWorld us hs bs cl x) u Hu)).
Qed.

Lemma deref_url_run l us hs bs cl x u :
  us !! l = Some u →
  deref (λ w, http.urls w !! l) (http.mkWorld us hs bs cl x)
  = Some (u, http.mkWorld us hs bs cl x).
Proof. intros Hu. by apply (deref_run (λ w, http.urls w !! l)). Qed.

Lemma read_header_run h us hs bs cl x m :
  header_of h hs = Some m →
  http.read_header h (http.mkWorld us hs bs cl x)
  = Some (m, http.mkWorld us hs bs cl x).
Proof.
  destruct h as [l|]; simpl.
  - intros Hm. by apply (deref_run (λ w, http.headers w !! l)).
  - by intros [= <-].
Qed.

Lemma update_header_run l f us hs bs cl x m :
  hs !! l = Some m →
  http.update_header (Some l) f (http.mkWorld us hs bs cl x)
  = Some (tt, http.mkWorld us (<[l := f m]> hs) bs cl x).
Proof.
  intros Hm. unfold http.update_header.
  by rewrite (bind_run _ _ _ _ _ (deref_run (λ w, http.headers w !! l)
                (http.mkWorld us hs bs cl x) m Hm)).
Qed.

Lemma delete_header_run l f us hs bs cl x m :
  hs !! l = Some m →
  http.delete_header (Some l) f (http.mkWorld us hs bs cl x)
  = Some (tt, http.mkWorld us (<[l := f m]> hs) bs cl x).
Proof. apply update_header_run. Qed.

Lemma make_header_run us hs bs cl x :
  http.make_header (http.mkWorld us hs bs cl x)
  = Some (length hs, http.mkWorld us (hs ++ [∅]) bs cl x).
Proof. reflexivity. Qed.

End http_steps.

(** One step of a computation whose first action is known to run. *)
Ltac go_step lem :=
  rewrite ?bind_bind;
  erewrite bind_run; [ | eapply lem; eauto ]; cbv beta iota zeta.

Lemma lookup_snoc_new {A} (xs : list A) (x : A) : (xs ++ [x]) !! length xs = Some x.
Proof. by rewrite lookup_app_r, Nat.sub_diag. Qed.

Lemma insert_snoc_new {A} (xs : list A) (x y : A) :
  <[length xs := y]> (xs ++ [x]) = xs ++ [y].
Proof.
  replace (length xs) with (length xs + 0) at 1 by lia.
  by rewrite insert_app_r.
Qed.

Lemma lookup_insert_same {A} (xs : list A) i (x y : A) :
  xs !! i = Some x → <[i := y]> xs !! i = Some y.
Proof. intros H. apply list_lookup_insert_eq. by eapply lookup_lt_Some. Qed.

#[local] Hint Resolve lookup_insert_same lookup_snoc_new : core.

Section location_rewrite.

Variable net_SplitHostPort : string → option (string * string).
Variables (l : httploc.HttpLocation) (req : http.Request)
          (endpoint : loadbalance.Endpoint).

Lemma location_rewriteRequest_run us hs bs cl x u reqHeader :
  us !! http.URL req = Some u →
  header_of (http.Header req) hs = Some reqHeader →
  httploc.rewriteRequest net_SplitHostPort l req endpoint (http.mkWorld us hs bs cl x)
  = Some (http.with_Header (Some (length hs))
            (http.with_Close false (http.with_Proto "HTTP/1.1" 1 1 req)),
          http.mkWorld
            (<[http.URL req :=
                 url.mkURL (url.Scheme (loadbalance.GetUrl endpoint))
                           (url.Host (loadbalance.GetUrl endpoint))
                           (url.Path u) (url.RawQuery u)]> us)
            (hs ++ [location_outbound_header net_SplitHostPort l req reqHeader])
            bs cl x).
Proof.
  intros Hu Hh. unfold httploc.rewriteRequest.
  go_step update_url_run. go_step update_url_run.
  go_step deref_url_run. go_step update_url_run.
  rewrite !list_insert_insert_eq.
  go_step make_header_run.
  assert (header_of (http.Header req) (hs ++ [∅]) = Some reqHeader) as Hh'.
  { destruct (http.Header req) as [k|]; simpl in *; [|done].
    rewrite lookup_app_l; [done | by eapply lookup_lt_Some]. }
  go_step read_header_run.
  simpl http.Header.
  go_step update_header_run. rewrite insert_snoc_new.
  unfold location_outbound_header.
  assert (∀ m : textproto.MIMEHeader,
            (hs ++ [m]) !! length hs = Some m) as Hnew by auto.
  destruct u as [sch hst pth qry]; simpl url.with_RawQuery.
  destruct (net_SplitHostPort (http.RemoteAddr req)) as [[clientIP port]|].
  - go_step read_header_run.
    go_step update_header_run. rewrite insert_snoc_new.
    go_step update_header_run. rewrite insert_snoc_new.
    destruct (negb _).
    + go_step update_header_run. rewrite insert_snoc_new.
      go_step update_header_run. rewrite insert_snoc_new.
      go_step delete_header_run. by rewrite insert_snoc_new.
    + rewrite bind_ret.
      go_step update_header_run. rewrite insert_snoc_new.
      go_step delete_header_run. by rewrite insert_snoc_new.
  - rewrite bind_ret.
    go_step update_header_run. rewrite insert_snoc_new.
    destruct (negb _).
    + go_step update_header_run. rewrite insert_snoc_new.
      go_step update_header_run. rewrite insert_snoc_new.
      go_step delete_header_run. by rewrite insert_snoc_new.
    + rewrite bind_ret.
      go_step update_header_run. rewrite insert_snoc_new.
      go_step delete_header_run. by rewrite insert_snoc_new.
Qed.

End location_rewrite.

Section proxy_rewrite.

Variables (upstream : vulcan.Upstream) (req : http.Request).

Lemma proxy_rewriteRequest_run_fresh us hs bs cl x u reqHeader :
  us !! http.URL req = Some u →
  header_of (http.Header req) hs = Some reqHeader →
  proxy_copies_headers upstream reqHeader = true →
  vulcan.rewriteRequest upstream req (http.mkWorld us hs bs cl x)
  = Some (http.with_Header (Some (length hs))
            (http.with_Close false (http.with_Proto "HTTP/1.1" 1 1 req)),
          http.mkWorld
            (<[http.URL req := proxy_outbound_url upstream u]> us)
            (hs ++ [proxy_outbound_header upstream reqHeader])
            bs cl x).
Proof.
  intros Hu Hh Hc. unfold vulcan.rewriteRequest.
  go_step update_url_run. go_step update_url_run. go_step update_url_run.
  go_step deref_url_run. go_step update_url_run.
  rewrite !list_insert_insert_eq.
  go_step read_header_run.
  unfold proxy_outbound_header. fold (proxy_copies_headers upstream reqHeader).
  rewrite Hc.
  assert (∀ m : textproto.MIMEHeader,
            (hs ++ [m]) !! length hs = Some m) as Hnew by auto.
  go_step make_header_run.
  go_step update_header_run. rewrite insert_snoc_new. rewrite bind_ret.
  simpl http.Header. destruct u as [sch hst pth qry].
  destruct (vulcan.Headers upstream) as [upstreamHeaders|].
  - go_step update_header_run. rewrite insert_snoc_new.
    go_step delete_header_run. by rewrite insert_snoc_new.
  - rewrite bind_ret.
    go_step delete_header_run. by rewrite insert_snoc_new.
Qed.

Lemma proxy_rewriteRequest_run_shared us hs bs cl x u reqHeader :
  us !! http.URL req = Some u →
  header_of (http.Header req) hs = Some reqHeader →
  proxy_copies_headers upstream reqHeader = false →
  vulcan.rewriteRequest upstream req (http.mkWorld us hs bs cl x)
  = Some (http.with_Close false (http.with_Proto "HTTP/1.1" 1 1 req),
          http.mkWorld
            (<[http.URL req := proxy_outbound_url upstream u]> us)
            (match http.Header req with
             | Some k => <[k := proxy_outbound_header upstream reqHeader]> hs
             | None => hs
             end)
            bs cl x).
Proof.
  intros Hu Hh Hc. unfold vulcan.rewriteRequest.
  go_step update_url_run. go_step update_url_run. go_step update_url_run.
  go_step deref_url_run. go_step update_url_run.
  rewrite !list_insert_insert_eq.
  go_step read_header_run.
  unfold proxy_outbound_header. fold (proxy_copies_headers upstream reqHeader).
  rewrite Hc. rewrite bind_ret.
  apply orb_false_iff in Hc as [Hnone _].
  apply bool_decide_eq_false in Hnone.
  destruct (vulcan.Headers upstream) as [upstreamHeaders|].
  { destruct Hnone. eauto. }
  rewrite bind_ret. simpl http.Header. destruct u as [sch hst pth qry].
  destruct (http.Header req) as [k|]; simpl in Hh.
  - by go_step delete_header_run.
  - unfold http.delete_header. by rewrite bind_ret.
Qed.

End proxy_rewrite.

(** ** Header hygiene *)

Lemma RemoveHeaders_absent names (h : textproto.MIMEHeader) k :
  h !! k = None → netutils.RemoveHeaders names h !! k = None.
Proof.
  unfold netutils.RemoveHeaders. revert h.
  induction names as [|n names IH]; intros h Hk; simpl; [done|].
  apply IH. unfold textproto.Del.
  destruct (decide (k = textproto.CanonicalMIMEHeaderKey n)) as [->|Hne].
  - apply lookup_delete_eq.
  - by rewrite lookup_delete_ne.
Qed.

Lemma RemoveHeaders_removed names (h : textproto.MIMEHeader) k :
  k ∈ textproto.CanonicalMIMEHeaderKey <$> names →
  netutils.RemoveHeaders names h !! k = None.
Proof.
  revert h. induction names as [|n names IH]; intros h Hk.
  - by apply elem_of_nil in Hk.
  - rewrite fmap_cons in Hk. apply elem_of_cons in Hk as [->|Hk].
    + apply (RemoveHeaders_absent names). apply lookup_delete_eq.
    + apply (IH (textproto.Del h n) Hk).
Qed.

Lemma RemoveHeaders_kept names (h : textproto.MIMEHeader) k :
  k ∉ textproto.CanonicalMIMEHeaderKey <$> names →
  netutils.RemoveHeaders names h !! k = h !! k.
Proof.
  unfold netutils.RemoveHeaders. revert h.
  induction names as [|n names IH]; intros h Hk; simpl; [done|].
  rewrite fmap_cons in Hk. apply not_elem_of_cons in Hk as [Hne Hk].
  rewrite IH by done. unfold textproto.Del. by rewrite lookup_delete_ne.
Qed.

Lemma hopHeaders_canonical :
  textproto.CanonicalMIMEHeaderKey <$> vulcan.hopHeaders = vulcan.hopHeaders.
Proof. reflexivity. Qed.

Lemma HopHeaders_same : headers.HopHeaders = vulcan.hopHeaders.
Proof. reflexivity. Qed.

Lemma RemoveHeaders_hop (h : textproto.MIMEHeader) k :
  k ∈ vulcan.hopHeaders → netutils.RemoveHeaders vulcan.hopHeaders h !! k = None.
Proof.
  intros Hk. apply RemoveHeaders_removed. by rewrite hopHeaders_canonical.
Qed.

Lemma RemoveHeaders_other (h : textproto.MIMEHeader) k :
  k ∉ vulcan.hopHeaders → netutils.RemoveHeaders vulcan.hopHeaders h !! k = h !! k.
Proof.
  intros Hk. apply RemoveHeaders_kept. by rewrite hopHeaders_canonical.
Qed.

Lemma proxy_outbound_header_no_hop upstream reqHeader :
  no_hop_headers (proxy_outbound_header upstream reqHeader).
Proof. intros k Hk. by apply RemoveHeaders_hop. Qed.

Lemma location_outbound_header_no_hop split l req reqHeader :
  no_hop_headers (location_outbound_header split l req reqHeader).
Proof.
  intros k Hk. unfold location_outbound_header. rewrite HopHeaders_same.
  by apply RemoveHeaders_hop.
Qed.

(** Both rewritings run on an allocated request, and what they return. *)
Lemma proxy_rewriteRequest_total upstream req w :
  request_allocated req w →
  ∃ u reqHeader outReq hs',
    http.urls w !! http.URL req = Some u ∧
    header_of (http.Header req) (http.headers w) = Some reqHeader ∧
    vulcan.rewriteRequest upstream req w
    = Some (outReq,
            http.mkWorld (<[http.URL req := proxy_outbound_url upstream u]> (http.urls w))
                         hs' (http.bodies w) (http.client w) (http.wire w)) ∧
    http.URL outReq = http.URL req ∧
    http.Body outReq = http.Body req ∧
    header_of (http.Header outReq) hs' = Some (proxy_outbound_header upstream reqHeader) ∧
    if proxy_copies_headers upstream reqHeader
    then http.Header outReq = Some (length (http.headers w)) ∧
         hs' = http.headers w ++ [proxy_outbound_header upstream reqHeader]
    else http.Header outReq = http.Header req ∧ length hs' = length (http.headers w).
Proof.
  intros [[u Hu] [reqHeader Hh]]. destruct w as [us hs bs cl x]; simpl in *.
  exists u, reqHeader.
  destruct (proxy_copies_headers upstream reqHeader) eqn:Hc.
  - eexists _, _. split; [done|]. split; [done|].
    split; [by apply proxy_rewriteRequest_run_fresh|].
    split_and!; try done. simpl. auto.
  - eexists _, _. split; [done|]. split; [done|].
    split; [by apply proxy_rewriteRequest_run_shared|].
    split; [done|]. split; [done|]. split.
    + simpl. destruct (http.Header req) as [k|]; simpl in *; [by eauto|].
      inversion Hh; subst. f_equal. apply map_eq. intros k.
      rewrite lookup_empty. symmetry. unfold proxy_outbound_header.
      apply RemoveHeaders_absent. rewrite Hc.
      unfold proxy_copies_headers in Hc. apply orb_false_iff in Hc as [Hnone _].
      apply bool_decide_eq_false in Hnone.
      destruct (vulcan.Headers upstream); [destruct Hnone; eauto|].
      apply lookup_empty.
    + simpl. split; [done|].
      destruct (http.Header req); [by rewrite length_insert | done].
Qed.

Lemma location_rewriteRequest_total split l req endpoint w :
  request_allocated req w →
  ∃ u reqHeader outReq,
    http.urls w !! http.URL req = Some u ∧
    header_of (http.Header req) (http.headers w) = Some reqHeader ∧
    httploc.rewriteRequest split l req endpoint w
    = Some (outReq,
            http.mkWorld
              (<[http.URL req :=
                   url.mkURL (url.Scheme (loadbalance.GetUrl endpoint))
                             (url.Host (loadbalance.GetUrl endpoint))
                             (url.Path u) (url.RawQuery u)]> (http.urls w))
              (http.headers w ++ [location_outbound_header split l req reqHeader])
              (http.bodies w) (http.client w) (http.wire w)) ∧
    http.URL outReq = http.URL req ∧
    http.Header outReq = Some (length (http.headers w)).
Proof.
  intros [[u Hu] [reqHeader Hh]]. destruct w as [us hs bs cl x]; simpl in *.
  exists u, reqHeader. eexists. split; [done|]. split; [done|].
  split; [by apply location_rewriteRequest_run|]. done.
Qed.

(** C5: on a request whose URL and header map are allocated, the
    proxy-level [rewriteRequest] (for every upstream) and the
    location-level one (for every location and endpoint) return an
    outbound request whose header map has none of [Connection],
    [Keep-Alive], [Proxy-Authenticate], [Proxy-Authorization], [Te],
    [Trailers], [Transfer-Encoding], [Upgrade] as a key. *)
Theorem rewriteRequest_strips_hop_headers req w :
  request_allocated req w →
  (∀ upstream, ∃ outReq w' m,
     vulcan.rewriteRequest upstream req w = Some (outReq, w') ∧
     header_of (http.Header outReq) (http.headers w') = Some m ∧
     no_hop_headers m) ∧
  (∀ split l endpoint, ∃ outReq w' m,
     httploc.rewriteRequest split l req endpoint w = Some (outReq, w') ∧
     header_of (http.Header outReq) (http.headers w') = Some m ∧
     no_hop_headers m).
Proof.
  intros Hreq. split.
  - intros upstream.
    destruct (proxy_rewriteRequest_total upstream req w Hreq)
      as (u & reqHeader & outReq & hs' & _ & _ & Hrun & _ & _ & Hout & _).
    eexists _, _, _. split; [exact Hrun|]. split; [exact Hout|].
    apply proxy_outbound_header_no_hop.
  - intros split l endpoint.
    destruct (location_rewriteRequest_total split l req endpoint w Hreq)
      as (u & reqHeader & outReq & _ & _ & Hrun & _ & Hhdr).
    eexists _, _, _. split; [exact Hrun|]. rewrite Hhdr. simpl.
    split; [apply lookup_snoc_new|]. apply location_outbound_header_no_hop.
Qed.

(** ** Sharing between the inbound and the outbound request *)

Lemma update_header_inv h f w w'' :
  http.update_header (Some h) f w = Some (tt, w'') →
  ∃ m, http.headers w !! h = Some m ∧
       http.headers w'' = <[h := f m]> (http.headers w).
Proof.
  unfold http.update_header, bind, deref, modify.
  destruct (http.headers w !! h) as [m|] eqn:Hm; [|done].
  intros [= <-]. eauto.
Qed.

Lemma appended_header_fresh req outReq w w' m :
  is_Some (header_of (http.Header req) (http.headers w)) →
  http.Header outReq = Some (length (http.headers w)) →
  http.headers w' = http.headers w ++ [m] →
  outbound_header_fresh req outReq w w'.
Proof.
  intros [reqHeader Hh] Hout Hhs. exists (length (http.headers w)).
  assert (∀ k, http.Header req = Some k → k < length (http.headers w)) as Hlt.
  { intros k Hk. rewrite Hk in Hh. by eapply lookup_lt_Some. }
  assert (header_of (http.Header req) (http.headers w')
          = header_of (http.Header req) (http.headers w)) as Hsame.
  { rewrite Hhs. destruct (http.Header req) as [k|]; simpl; [|done].
    apply lookup_app_l. by apply Hlt. }
  split_and!; try done.
  - rewrite Hout. intros Heq. symmetry in Heq. apply Hlt in Heq. lia.
  - intros f w'' Hrun. rewrite Hout in Hrun.
    apply update_header_inv in Hrun as (m' & _ & ->).
    rewrite <- Hsame. destruct (http.Header req) as [k|] eqn:Hk; simpl; [|done].
    apply list_lookup_insert_ne. specialize (Hlt k eq_refl). lia.
Qed.

(** C6, as the code has it: the location-level [rewriteRequest] always
    gives the outbound request a header map of its own; the proxy-level
    one does so exactly when the upstream carries header overrides or
    [hasHeaders] finds a hop-by-hop header on the inbound request, and
    otherwise the outbound request keeps the inbound request's map. *)
Theorem rewriteRequest_header_map_fresh_when_copied req w :
  request_allocated req w →
  (∀ split l endpoint, ∃ outReq w',
     httploc.rewriteRequest split l req endpoint w = Some (outReq, w') ∧
     outbound_header_fresh req outReq w w') ∧
  (∀ upstream, ∃ reqHeader outReq w',
     header_of (http.Header req) (http.headers w) = Some reqHeader ∧
     vulcan.rewriteRequest upstream req w = Some (outReq, w') ∧
     if bool_decide (is_Some (vulcan.Headers upstream))
        || vulcan.hasHeaders vulcan.hopHeaders reqHeader
     then outbound_header_fresh req outReq w w'
     else http.Header outReq = http.Header req).
Proof.
  intros Hreq. split.
  - intros split l endpoint.
    destruct (location_rewriteRequest_total split l req endpoint w Hreq)
      as (u & reqHeader & outReq & _ & Hh & Hrun & _ & Hhdr).
    eexists _, _. split; [exact Hrun|].
    eapply appended_header_fresh; [by eexists | done | done].
  - intros upstream.
    destruct (proxy_rewriteRequest_total upstream req w Hreq)
      as (u & reqHeader & outReq & hs' & _ & Hh & Hrun & _ & _ & _ & Hcase).
    exists reqHeader. eexists _, _. split; [done|]. split; [exact Hrun|].
    fold (proxy_copies_headers upstream reqHeader).
    destruct (proxy_copies_headers upstream reqHeader).
    + destruct Hcase as [Hhdr ->].
      eapply appended_header_fresh; [by eexists | done | done].
    + by destruct Hcase.
Qed.

(** C9: on an allocated request both rewritings write the chosen
    endpoint's scheme and host (the proxy-level one its path too) into
    the URL object the inbound request points to; the outbound request
    points to that same object, and nothing restores it. *)
Theorem rewriteRequest_mutates_inbound_url req w :
  request_allocated req w →
  (∀ upstream, ∃ outReq w' u',
     vulcan.rewriteRequest upstream req w = Some (outReq, w') ∧
     http.URL outReq = http.URL req ∧
     http.urls w' !! http.URL req = Some u' ∧
     url.Scheme u' = url.Scheme (vulcan.Url upstream) ∧
     url.Host u' = url.Host (vulcan.Url upstream) ∧
     url.Path u' = url.Path (vulcan.Url upstream)) ∧
  (∀ split l endpoint, ∃ outReq w' u',
     httploc.rewriteRequest split l req endpoint w = Some (outReq, w') ∧
     http.URL outReq = http.URL req ∧
     http.urls w' !! http.URL req = Some u' ∧
     url.Scheme u' = url.Scheme (loadbalance.GetUrl endpoint) ∧
     url.Host u' = url.Host (loadbalance.GetUrl endpoint)).
Proof.
  intros Hreq. split.
  - intros upstream.
    destruct (proxy_rewriteRequest_total upstream req w Hreq)
      as (u & reqHeader & outReq & hs' & Hu & _ & Hrun & Hurl & _).
    eexists _, _, _. split; [exact Hrun|]. split; [done|]. simpl.
    split; [by eapply lookup_insert_same|]. done.
  - intros split l endpoint.
    destruct (location_rewriteRequest_total split l req endpoint w Hreq)
      as (u & reqHeader & outReq & Hu & _ & Hrun & Hurl & _).
    eexists _, _, _. split; [exact Hrun|]. split; [done|]. simpl.
    split; [by eapply lookup_insert_same|]. done.
Qed.

(** ** Location options *)

Lemma location_outbound_header_server split l req reqHeader :
  location_outbound_header split l req reqHeader !! headers.XForwardedServer
  = Some [httploc.Hostname (httploc.options l)].
Proof.
  unfold location_outbound_header. rewrite HopHeaders_same.
  rewrite RemoveHeaders_other.
  - apply lookup_insert_eq.
  - vm_compute. intros H. repeat (apply elem_of_cons in H as [H|H]; [discriminate H|]).
    by apply elem_of_nil in H.
Qed.

(** C10: for options whose [Hostname] is empty, [parseOptions] takes the
    name [os.Hostname()] returned only when that call failed; when it
    succeeded [Hostname] stays empty, and every request a location with
    these options rewrites then carries [X-Forwarded-Server] with the
    empty string as its value. *)
Theorem parseOptions_hostname_only_on_error os_Hostname o :
  httploc.Hostname o = "" →
  let o' := fst (httploc.parseOptions os_Hostname o) in
  (snd os_Hostname ≠ None → httploc.Hostname o' = fst os_Hostname) ∧
  (snd os_Hostname = None →
     httploc.Hostname o' = "" ∧
     ∀ split l req endpoint w,
       httploc.options l = o' → request_allocated req w →
       ∃ outReq w' m,
         httploc.rewriteRequest split l req endpoint w = Some (outReq, w') ∧
         header_of (http.Header outReq) (http.headers w') = Some m ∧
         m !! "X-Forwarded-Server" = Some [""]).
Proof.
  intros Hempty.
  assert (∀ err : option string,
            httploc.Hostname
              (fst (httploc.parseOptions (fst os_Hostname, err) o))
            = if bool_decide (err ≠ None) then fst os_Hostname else "") as Hname.
  { intros err. unfold httploc.parseOptions.
    repeat (case_bool_decide; simpl); rewrite ?Hempty; simpl; try done.
    all: repeat (case_bool_decide; simpl); try done; by rewrite ?Hempty. }
  destruct os_Hostname as [h err]. simpl in *. split.
  - intros Herr. rewrite Hname. by rewrite bool_decide_eq_true_2.
  - intros ->. rewrite Hname. split; [done|].
    intros split l req endpoint w Hl Hreq.
    destruct (location_rewriteRequest_total split l req endpoint w Hreq)
      as (u & reqHeader & outReq & _ & _ & Hrun & _ & Hhdr).
    eexists _, _, _. split; [exact Hrun|]. rewrite Hhdr. simpl.
    split; [apply lookup_snoc_new|].
    pose proof (location_outbound_header_server split l req reqHeader) as Hs.
    rewrite Hl, Hname in Hs. exact Hs.
Qed.

(** ** The rewritings on the sample request *)

Lemma sample_request_allocated : request_allocated sample_request sample_world.
Proof. split; by eexists. Qed.

Lemma sample_request_allocated_plain : request_allocated sample_request plain_world.
Proof. split; by eexists. Qed.

(** The location-level rewriting of the sample request toward
    [endpoint_a]: the forwarding headers are set, the client's headers
    kept and [Connection] dropped. *)
Example location_rewriteRequest_sample :
  ∃ outReq w' m,
    httploc.rewriteRequest sample_SplitHostPort sample_location sample_request
      endpoint_a sample_world = Some (outReq, w') ∧
    header_of (http.Header outReq) (http.headers w') = Some m ∧
    m !! "X-Forwarded-For" = Some ["10.0.0.7"] ∧
    m !! "X-Forwarded-Proto" = Some ["http"] ∧
    m !! "X-Forwarded-Host" = Some ["proxy.example"] ∧
    m !! "X-Forwarded-Server" = Some [""] ∧
    m !! "Accept" = Some ["*/*"] ∧
    m !! "Connection" = None ∧
    http.urls w' = [url.mkURL "http" "a.internal:8080" "/v1/items" "page=2"].
Proof.
  eexists _, _, _. split; [vm_compute; reflexivity|].
  split; [reflexivity|]. by vm_compute.
Qed.

(** Witness of C5: the [Connection] header of the sample request is gone
    from what goes to [upstream_a]. *)
Lemma rewriteRequest_strips_hop_headers_witness :
  ∃ outReq w' m,
    vulcan.rewriteRequest upstream_a sample_request sample_world = Some (outReq, w') ∧
    header_of (http.Header outReq) (http.headers w') = Some m ∧
    m !! "Connection" = None.
Proof.
  destruct (rewriteRequest_strips_hop_headers sample_request sample_world
              sample_request_allocated) as [Hproxy _].
  destruct (Hproxy upstream_a) as (outReq & w' & m & Hrun & Hm & Hhop).
  exists outReq, w', m. split; [exact Hrun|]. split; [exact Hm|].
  apply Hhop. apply list_elem_of_here.
Defined.

(** Counterexample to C6 as stated: the upstream has no header overrides
    and the inbound request no hop-by-hop header, so the proxy-level
    rewriting hands back the inbound header map itself, and a header set
    through the outbound request shows on the inbound one. *)
Lemma proxy_rewriteRequest_shares_header_map :
  ∃ outReq w' w'',
    vulcan.rewriteRequest upstream_a sample_request plain_world = Some (outReq, w') ∧
    http.Header outReq = http.Header sample_request ∧
    http.update_header (http.Header outReq)
      (λ m, textproto.Set_ m "X-Probe" "1") w' = Some (tt, w'') ∧
    header_of (http.Header sample_request) (http.headers plain_world)
    = Some {["Accept" := ["*/*"]]} ∧
    header_of (http.Header sample_request) (http.headers w'')
    = Some (<["X-Probe" := ["1"]]> {["Accept" := ["*/*"]]}) ∧
    ¬ outbound_header_fresh sample_request outReq plain_world w'.
Proof.
  eexists _, _, _. split.
  { unfold plain_world.
    eapply proxy_rewriteRequest_run_shared
      with (reqHeader := {["Accept" := ["*/*"]]}); reflexivity. }
  split; [reflexivity|]. split.
  { change (http.Header (http.with_Close false
              (http.with_Proto "HTTP/1.1" 1 1 sample_request))) with (Some 0%nat).
    by apply update_header_run. }
  split; [reflexivity|]. split.
  { reflexivity. }
  intros (h & Hh & Hfresh & _). simpl in Hh, Hfresh.
  inversion Hh; subst. lia.
Qed.

(** Witness of the amended C6: toward [upstream_b], which carries header
    overrides, the outbound header map is a new one. *)
Lemma rewriteRequest_header_map_fresh_witness :
  ∃ outReq w',
    vulcan.rewriteRequest upstream_b sample_request plain_world = Some (outReq, w') ∧
    outbound_header_fresh sample_request outReq plain_world w'.
Proof.
  destruct (rewriteRequest_header_map_fresh_when_copied sample_request plain_world
              sample_request_allocated_plain) as [_ Hproxy].
  destruct (Hproxy upstream_b) as (reqHeader & outReq & w' & Hh & Hrun & Hcase).
  exists outReq, w'. split; [exact Hrun|]. exact Hcase.
Defined.

(** Witness of C9: after rewriting toward [upstream_a] the inbound
    request's URL has that upstream's host. *)
Lemma rewriteRequest_mutates_inbound_url_witness :
  ∃ outReq w' u',
    vulcan.rewriteRequest upstream_a sample_request sample_world = Some (outReq, w') ∧
    http.urls w' !! http.URL sample_request = Some u' ∧
    url.Host u' = "a.internal:8080".
Proof.
  destruct (rewriteRequest_mutates_inbound_url sample_request sample_world
              sample_request_allocated) as [Hproxy _].
  destruct (Hproxy upstream_a) as (outReq & w' & u' & Hrun & _ & Hu & _ & Hhost & _).
  exists outReq, w', u'. split; [exact Hrun|]. split; [exact Hu|]. exact Hhost.
Defined.

(** Witness of C10: the lookup succeeds with ["edge-1"], and the options
    still come back with an empty [Hostname]. *)
Lemma parseOptions_hostname_witness :
  httploc.Hostname
    (fst (httploc.parseOptions ("edge-1", None) (httploc.options sample_location)))
  = "".
Proof.
  destruct (parseOptions_hostname_only_on_error ("edge-1", None)
              (httploc.options sample_location) eq_refl) as [_ Hok].
  destruct (Hok eq_refl) as [Hname _]. exact Hname.
Defined.

(** Witness of C2: the throttled proxy answers 429 with thirty seconds. *)
Lemma getUpstreams_cases_witness :
  vulcan.getUpstreams throttled_proxy sample_instructions
  = ([], Some (vulcan.HttpErr (vulcan.mkHttpError 429 (Some 30%Z)))).
Proof.
  destruct (getUpstreams_cases throttled_proxy sample_instructions [] 30%Z None eq_refl)
    as (_ & Hempty & _).
  destruct (Hempty eq_refl eq_refl) as (e & Hrun & -> & _).
  exact Hrun.
Defined.

(** ** The FSM handler's weights *)

Section fsm_bound.

Variable gcd : Z → Z → Z.

Local Open Scope Z_scope.

Lemma quot_bounded w g :
  1 < g → w ≤ roundrobin.FSMMaxWeight → w ÷ g ≤ roundrobin.FSMMaxWeight.
Proof.
  unfold roundrobin.FSMMaxWeight. intros Hg Hw.
  apply Z.quot_le_upper_bound; lia.
Qed.

Lemma normalizeWeights_bounded ws :
  weights_bounded ws → weights_bounded (roundrobin.normalizeWeights gcd ws).
Proof.
  unfold roundrobin.normalizeWeights, weights_bounded. intros Hws.
  destruct (roundrobin.weightsGcd gcd ws <=? 1) eqn:Hg; [done|].
  apply Z.leb_gt in Hg. apply Forall_fmap.
  eapply Forall_impl; [exact Hws|]. intros w Hw. simpl.
  by apply quot_bounded.
Qed.

Lemma decrease_bounded target current :
  target ≤ roundrobin.FSMMaxWeight → current ≤ roundrobin.FSMMaxWeight →
  roundrobin.decrease target current ≤ roundrobin.FSMMaxWeight.
Proof.
  intros Ht Hc. unfold roundrobin.decrease.
  destruct (_ <? _); [done|]. by apply quot_bounded.
Qed.

Lemma makeOriginalWeights_bounded e endpoints :
  (∀ l, l ∈ endpoints → endpoint_bounded (roundrobin.at_ e l)) →
  weights_bounded (roundrobin.makeOriginalWeights e endpoints).
Proof.
  intros Hb. unfold roundrobin.makeOriginalWeights, weights_bounded.
  apply Forall_fmap, Forall_forall. intros l Hl. simpl. by apply Hb.
Qed.

Lemma convergeWeights_bounded e fsm :
  (∀ l, l ∈ roundrobin.endpoints fsm → endpoint_bounded (roundrobin.at_ e l)) →
  weights_bounded (fst (roundrobin.convergeWeights gcd e fsm)).
Proof.
  intros Hb. unfold roundrobin.convergeWeights. simpl.
  apply normalizeWeights_bounded. apply Forall_fmap, Forall_forall.
  intros l Hl. simpl. destruct (Hb l Hl). by apply decrease_bounded.
Qed.

Lemma adjustWeights_bounded e fsm good bad :
  (∀ l, l ∈ roundrobin.endpoints fsm → endpoint_bounded (roundrobin.at_ e l)) →
  weights_bounded (roundrobin.adjustWeights gcd e fsm good bad).
Proof.
  intros Hb. unfold roundrobin.adjustWeights.
  apply normalizeWeights_bounded. apply Forall_fmap, Forall_forall.
  intros l Hl. simpl. destruct (Hb l Hl) as [_ He].
  destruct (bool_decide _ && _) eqn:Hgood; simpl; [|done].
  apply andb_true_iff in Hgood as [_ Hle]. by apply Z.leb_le.
Qed.

Lemma Init_bounded e endpoints fsm :
  (∀ l, l ∈ endpoints → endpoint_bounded (roundrobin.at_ e l)) →
  fsm_bounded (roundrobin.Init e endpoints fsm) ∧
  roundrobin.endpoints (roundrobin.Init e endpoints fsm) = endpoints.
Proof.
  intros Hb. split; [|done].
  split; simpl; by apply makeOriginalWeights_bounded.
Qed.

Lemma AdjustWeights_bounded e fsm :
  fsm_bounded fsm →
  (∀ l, l ∈ roundrobin.endpoints fsm → endpoint_bounded (roundrobin.at_ e l)) →
  weights_bounded (fst (roundrobin.AdjustWeights gcd e fsm)) ∧
  fsm_bounded (snd (roundrobin.AdjustWeights gcd e fsm)) ∧
  roundrobin.endpoints (snd (roundrobin.AdjustWeights gcd e fsm))
  = roundrobin.endpoints fsm.
Proof.
  intros [Ho Hl] Hb. unfold roundrobin.AdjustWeights.
  case_bool_decide; [done|].
  destruct (negb (roundrobin.metricsReady _ _)); [done|].
  destruct (negb (roundrobin.timerExpired _ _)); [done|].
  destruct (roundrobin.splitEndpoints _ _) as [good bad].
  destruct (bool_decide _ || bool_decide _).
  - pose proof (convergeWeights_bounded e fsm Hb) as Hc.
    destruct (roundrobin.convergeWeights gcd e fsm) as [weights changed].
    simpl in Hc. by destruct changed.
  - pose proof (adjustWeights_bounded e fsm good bad Hb) as Ha.
    simpl. done.
Qed.

Lemma published_bounded_from fsm calls :
  fsm_bounded fsm →
  calls_bounded (roundrobin.endpoints fsm) calls →
  Forall weights_bounded (roundrobin.published gcd fsm calls).
Proof.
  revert fsm. induction calls as [|[e endpoints|e] rest IH]; intros fsm Hf Hc.
  - constructor.
  - simpl in *. destruct Hc as [Hb Hrest].
    destruct (Init_bounded e endpoints fsm Hb) as [Hf' He'].
    apply IH; [done|]. by rewrite He'.
  - simpl in *. destruct Hc as [Hb Hrest].
    destruct (AdjustWeights_bounded e fsm Hf Hb) as (Hw & Hf' & He').
    destruct (roundrobin.AdjustWeights gcd e fsm) as [weights fsm'].
    simpl in *. constructor; [done|]. apply IH; [done|]. by rewrite He'.
Qed.

(** C7, as the code has it: over any sequence of [Init] and
    [AdjustWeights] calls on a new handler, if at every call the
    handler's endpoints have original and effective weights of at most
    [FSMMaxWeight] = 4096, then no weight in any list [AdjustWeights]
    publishes (originals, last weights, converged or diverged, after
    the GCD normalisation) exceeds 4096. *)
Theorem published_weights_bounded calls :
  calls_bounded [] calls →
  Forall weights_bounded (roundrobin.published gcd roundrobin.NewFSMHandler calls).
Proof.
  intros Hc. apply published_bounded_from; [|done].
  split; constructor.
Qed.

End fsm_bound.

(** Counterexample to C7 as stated: the diverge step leaves the good
    endpoint at its weight 5000 (sixteen times that is past the maximum)
    and publishes it. *)
Lemma published_weight_above_max :
  roundrobin.published Z.gcd roundrobin.NewFSMHandler heavy_calls
  = [[roundrobin.mkEndpointWeight 0 5000; roundrobin.mkEndpointWeight 1 1]] ∧
  ¬ Forall weights_bounded
      (roundrobin.published Z.gcd roundrobin.NewFSMHandler heavy_calls).
Proof.
  assert (roundrobin.published Z.gcd roundrobin.NewFSMHandler heavy_calls
          = [[roundrobin.mkEndpointWeight 0 5000; roundrobin.mkEndpointWeight 1 1]])
    as Heq by (vm_compute; reflexivity).
  split; [exact Heq|]. rewrite Heq. intros H.
  apply Forall_cons in H as [H _]. apply Forall_cons in H as [H _].
  simpl in H. unfold roundrobin.FSMMaxWeight in H. lia.
Qed.

Example demo_published :
  roundrobin.published Z.gcd roundrobin.NewFSMHandler demo_calls
  = [[roundrobin.mkEndpointWeight 0 16; roundrobin.mkEndpointWeight 1 16;
      roundrobin.mkEndpointWeight 2 1]].
Proof. vm_compute. reflexivity. Qed.

(** Witness of the amended C7 on the three-endpoint run. *)
Lemma published_weights_bounded_witness :
  Forall weights_bounded
    (roundrobin.published Z.gcd roundrobin.NewFSMHandler demo_calls).
Proof.
  apply (published_weights_bounded Z.gcd demo_calls).
  assert (∀ l, endpoint_bounded (roundrobin.at_ demo_env l)) as Hb.
  { intros l. unfold endpoint_bounded, roundrobin.FSMMaxWeight. simpl. lia. }
  split; [intros l _; apply Hb|]. split; [intros l _; apply Hb|]. exact I.
Defined.

(** ** Forwarding with failover *)

Section forwarding.

Variable p : vulcan.ReverseProxy.

Lemma proxyToUpstream_run req upstream us hs bs cl x u reqHeader b :
  us !! http.URL req = Some u →
  header_of (http.Header req) hs = Some reqHeader →
  bs !! http.Body req = Some b →
  ∃ res n hs' reqHeader',
    http.RoundTrip (vulcan.httpTransport p) x
      (proxy_outbound_url upstream u) (proxy_outbound_header upstream reqHeader)
      (io.remaining b) = (res, n) ∧
    vulcan.proxyToUpstream p req upstream (http.mkWorld us hs bs cl x)
    = Some (forward_error res,
            http.mkWorld
              (<[http.URL req := proxy_outbound_url upstream u]> us) hs'
              (<[http.Body req := io.advance n b]> bs)
              (mirrored cl res)
              (x ++ [http.mkExchange (proxy_outbound_url upstream u)
                       (proxy_outbound_header upstream reqHeader)
                       (io.remaining b) res])) ∧
    header_of (http.Header req) hs' = Some reqHeader'.
Proof.
  intros Hu Hh Hb.
  destruct (proxy_rewriteRequest_total upstream req (http.mkWorld us hs bs cl x))
    as (u' & reqHeader0 & outReq & hs' & Hu' & Hh' & Hrun & Hurl & Hbody & Hout & Hcase).
  { split; simpl; eauto. }
  simpl in Hu', Hh', Hrun. rewrite Hu in Hu'. rewrite Hh in Hh'.
  inversion Hu'; inversion Hh'; subst u' reqHeader0. clear Hu' Hh'.
  destruct (http.RoundTrip (vulcan.httpTransport p) x
              (proxy_outbound_url upstream u) (proxy_outbound_header upstream reqHeader)
              (io.remaining b)) as [res n] eqn:Hrt.
  assert (∃ reqHeader', header_of (http.Header req) hs' = Some reqHeader')
    as [reqHeader' Hh''].
  { destruct (proxy_copies_headers upstream reqHeader).
    - destruct Hcase as [_ ->]. exists reqHeader.
      destruct (http.Header req) as [k|]; simpl in *; [|done].
      rewrite lookup_app_l; [done | by eapply lookup_lt_Some].
    - destruct Hcase as [<- _]. eauto. }
  exists res, n, hs', reqHeader'. split; [done|]. split; [|done].
  unfold vulcan.proxyToUpstream.
  rewrite (bind_run _ _ _ _ _ Hrun). cbv beta iota zeta.
  rewrite Hurl, Hbody.
  go_step deref_url_run.
  go_step read_header_run.
  erewrite bind_run;
    [| apply (deref_run (λ w, http.bodies w !! http.Body req)); exact Hb].
  cbv beta iota zeta. rewrite bind_gets. cbn [http.wire]. rewrite Hrt.
  destruct res as [r|]; reflexivity.
Qed.

End forwarding.

Section failover.

Variable p : vulcan.ReverseProxy.

Lemma proxyRequest_loop_run req reader buffer upstreams :
  http.Body req = reader →
  ∀ us hs bs cl x u reqHeader i,
    us !! http.URL req = Some u →
    header_of (http.Header req) hs = Some reqHeader →
    bs !! reader = Some (io.Buffer buffer i) →
    ∃ res w' new,
      vulcan.proxyRequest_loop p req reader upstreams (http.mkWorld us hs bs cl x)
      = Some (res, w') ∧
      http.wire w' = x ++ new ∧
      failover_run buffer upstreams new res.
Proof.
  intros Hreader.
  induction upstreams as [|upstream rest IH]; intros us hs bs cl x u reqHeader i Hu Hh Hb.
  - eexists _, _, []. split; [reflexivity|]. simpl.
    split; [by rewrite app_nil_r | constructor].
  - cbn [vulcan.proxyRequest_loop].
    erewrite bind_run;
      [| apply (deref_run (λ w, http.bodies w !! reader)); exact Hb].
    cbv beta iota zeta.
    assert (io.Seek 0 0 (io.Buffer buffer i) = (Some 0%Z, io.Buffer buffer 0)) as ->
      by reflexivity.
    rewrite bind_modify. cbn [http.set_bodies http.urls http.headers http.bodies
                               http.client http.wire].
    assert (<[reader := io.Buffer buffer 0]> bs !! http.Body req
            = Some (io.Buffer buffer 0)) as Hb'.
    { rewrite Hreader. by eapply lookup_insert_same. }
    destruct (proxyToUpstream_run p req upstream us hs _ cl x u reqHeader _ Hu Hh Hb')
      as (res & n & hs' & reqHeader' & Hrt & Hrun & Hh').
    rewrite (bind_run _ _ _ _ _ Hrun).
    set (ex := http.mkExchange _ _ _ res) in *.
    assert (sent_to upstream ex) as Hsent by done.
    assert (http.xBody ex = buffer) as Hbody by done.
    destruct res as [r|]; cbn [forward_error].
    + eexists _, _, [ex]. split; [reflexivity|]. split; [done|].
      by eapply run_succeeded.
    + rewrite Hreader, list_insert_insert_eq.
      edestruct (IH (<[http.URL req:=proxy_outbound_url upstream u]> us) hs'
                    (<[reader:=io.advance n (io.Buffer buffer 0)]> bs)
                    (mirrored cl None) (x ++ [ex]))
        as (res & w' & new & Hloop & Hwire & Hrest).
      { by eapply lookup_insert_same. }
      { exact Hh'. }
      { simpl. by eapply lookup_insert_same. }
      exists res, w', (ex :: new). split; [exact Hloop|].
      split; [by rewrite Hwire, <- app_assoc|].
      by eapply run_failed.
Qed.

End failover.

Section proxyRequest.

Variable p : vulcan.ReverseProxy.

Lemma proxyRequest_failover_run req upstreams w b buffer b' :
  request_allocated req w →
  http.bodies w !! http.Body req = Some b →
  io.ReadAll b = (buffer, false, b') →
  ∃ res w' new,
    vulcan.proxyRequest p true req upstreams w = Some (res, w') ∧
    http.wire w' = http.wire w ++ new ∧
    failover_run buffer upstreams new res.
Proof.
  intros [[u Hu] [reqHeader Hh]] Hb Hread.
  destruct w as [us hs bs cl x]; simpl in *.
  unfold vulcan.proxyRequest. cbn [negb].
  erewrite bind_run;
    [| apply (deref_run (λ w, http.bodies w !! http.Body req)); exact Hb].
  cbv beta iota zeta. rewrite Hread.
  rewrite bind_modify, bind_gets, bind_modify.
  cbn [http.set_bodies http.urls http.headers http.bodies http.client http.wire].
  apply (proxyRequest_loop_run p (http.with_Body _ req) _ buffer upstreams eq_refl
           us hs _ cl x u reqHeader 0%Z); [done | done |].
  apply lookup_snoc_new.
Qed.

Lemma proxyRequest_unreadable_run req upstreams w b buffer b' :
  http.bodies w !! http.Body req = Some b →
  io.ReadAll b = (buffer, true, b') →
  ∃ w',
    vulcan.proxyRequest p true req upstreams w
    = Some ((None, Some (vulcan.HttpErr (vulcan.NewHttpError http.StatusBadRequest))), w') ∧
    http.wire w' = http.wire w.
Proof.
  intros Hb Hread. unfold vulcan.proxyRequest. cbn [negb].
  erewrite bind_run;
    [| apply (deref_run (λ w, http.bodies w !! http.Body req)); exact Hb].
  cbv beta iota zeta. rewrite Hread. rewrite bind_modify.
  eexists. split; [reflexivity|]. by destruct w.
Qed.

Lemma proxyRequest_single_run req first rest w b :
  request_allocated req w →
  http.bodies w !! http.Body req = Some b →
  ∃ err w' x,
    vulcan.proxyRequest p false req (first :: rest) w = Some ((Some first, err), w') ∧
    http.wire w' = http.wire w ++ [x] ∧
    sent_to first x ∧ http.xBody x = io.remaining b ∧
    err = forward_error (http.xResult x).
Proof.
  intros [[u Hu] [reqHeader Hh]] Hb.
  destruct w as [us hs bs cl x]; simpl in *.
  destruct (proxyToUpstream_run p req first us hs bs cl x u reqHeader b Hu Hh Hb)
    as (res & n & hs' & reqHeader' & Hrt & Hrun & Hh').
  unfold vulcan.proxyRequest. cbn [negb].
  rewrite (bind_run _ _ _ _ _ Hrun).
  eexists _, _, _. split; [reflexivity|]. simpl. done.
Qed.

(** C1, as the code has it. With failover set and a body that reads to
    its end without error, [proxyRequest] buffers the body, rewinds the
    buffer before each attempt (every attempt is sent the whole body),
    tries the upstreams in list order and returns the first whose forward
    succeeds, or a 502 [HttpError] when all have failed; a body whose
    read fails ends the call with a 400 [HttpError] before any upstream
    is tried. With failover off only the first upstream is tried, it is
    the upstream returned, and its failure comes back as a 502
    [HttpError]. *)
Theorem proxyRequest_failover_in_order req upstreams w b :
  request_allocated req w →
  http.bodies w !! http.Body req = Some b →
  (∀ buffer b', io.ReadAll b = (buffer, false, b') →
     ∃ res w' new,
       vulcan.proxyRequest p true req upstreams w = Some (res, w') ∧
       http.wire w' = http.wire w ++ new ∧
       failover_run buffer upstreams new res) ∧
  (∀ buffer b', io.ReadAll b = (buffer, true, b') →
     ∃ w',
       vulcan.proxyRequest p true req upstreams w
       = Some ((None, Some (vulcan.HttpErr (vulcan.NewHttpError 400))), w') ∧
       http.wire w' = http.wire w) ∧
  (∀ first rest, upstreams = first :: rest →
     ∃ err w' x,
       vulcan.proxyRequest p false req upstreams w = Some ((Some first, err), w') ∧
       http.wire w' = http.wire w ++ [x] ∧
       sent_to first x ∧
       (http.xResult x = None →
          err = Some (vulcan.HttpErr (vulcan.NewHttpError 502))) ∧
       (is_Some (http.xResult x) → err = None)).
Proof.
  intros Hreq Hb. split_and!.
  - intros buffer b' Hread. by eapply proxyRequest_failover_run.
  - intros buffer b' Hread. by eapply proxyRequest_unreadable_run.
  - intros first rest ->.
    destruct (proxyRequest_single_run req first rest w b Hreq Hb)
      as (err & w' & x & Hrun & Hwire & Hsent & _ & ->).
    eexists _, _, _. split; [exact Hrun|]. split; [exact Hwire|].
    split; [exact Hsent|]. split.
    + by intros ->.
    + by intros [r ->].
Qed.

End proxyRequest.

(** What a failover run returns, read off its exchanges. *)
Lemma failover_run_all_failed buffer upstreams new res :
  failover_run buffer upstreams new res →
  Forall (λ x, http.xResult x = None) new →
  res = (None, Some (vulcan.HttpErr (vulcan.NewHttpError 502))) ∧
  Forall2 sent_to upstreams new.
Proof.
  induction 1 as [|upstream rest x r Hs Hb Hr|upstream rest x xs res Hs Hb Hr Hrun IH];
    intros Hall.
  - split; [done | constructor].
  - apply Forall_cons in Hall as [Hx _]. congruence.
  - apply Forall_cons in Hall as [_ Hxs]. destruct (IH Hxs) as [-> Hrest].
    split; [done|]. by constructor.
Qed.

Lemma failover_run_first_success buffer upstreams new upstream err :
  failover_run buffer upstreams new (Some upstream, err) →
  ∃ failed x rest,
    upstreams = failed ++ upstream :: rest ∧
    new = take (length failed) new ++ [x] ∧
    Forall2 sent_to failed (take (length failed) new) ∧
    Forall (λ y, http.xResult y = None) (take (length failed) new) ∧
    sent_to upstream x ∧ is_Some (http.xResult x) ∧ err = None.
Proof.
  remember (Some upstream, err) as res eqn:Hres.
  induction 1 as [|u rest x r Hs Hb Hr|u rest x xs res Hs Hb Hr Hrun IH].
  - discriminate.
  - inversion Hres; subst. exists [], x, rest. simpl.
    split_and!; try done; eauto.
  - destruct (IH Hres) as (failed & y & rest' & -> & Hnew & Hsent & Hfail & Hy & Hok & ->).
    exists (u :: failed), y, rest'. simpl.
    split_and!; try done.
    + by rewrite <- Hnew.
    + by constructor.
    + by constructor.
Qed.

(** Failover from [upstream_a] to [upstream_b]: two attempts, both sent
    the whole body, the second answered. *)
Example proxyRequest_fails_over :
  ∃ w', vulcan.proxyRequest sample_proxy true sample_request
          [upstream_a; upstream_b] sample_world
        = Some ((Some upstream_b, None), w') ∧
        map http.xBody (http.wire w') = [sample_bytes "hello"; sample_bytes "hello"] ∧
        map (λ x, url.Host (http.xURL x)) (http.wire w')
        = ["a.internal:8080"; "b.internal:8443"] ∧
        http.wStatus (http.client w') = [200%Z].
Proof. eexists. split; [vm_compute; reflexivity|]. by vm_compute. Qed.

(** Counterexample to C1 as stated: failover is set, the upstream list
    is not empty and [upstream_b] would answer, yet the body cannot be
    read to its end, so [proxyRequest] returns a 400 [HttpError] and
    tries no upstream: it neither returns the first upstream whose
    forward succeeds nor a 502. *)
Lemma proxyRequest_unreadable_body_is_400 :
  ∃ w',
    vulcan.proxyRequest sample_proxy true sample_request
      [upstream_a; upstream_b] broken_world
    = Some ((None, Some (vulcan.HttpErr (vulcan.mkHttpError 400 None))), w') ∧
    http.wire w' = [] ∧
    ∀ buffer new,
      ¬ failover_run buffer [upstream_a; upstream_b] new
          (None, Some (vulcan.HttpErr (vulcan.mkHttpError 400 None))).
Proof.
  eexists. split; [vm_compute; reflexivity|]. split; [reflexivity|].
  intros buffer new Hrun.
  inversion Hrun as [| |? ? ? ? ? _ _ _ Hrun1]; subst.
  inversion Hrun1 as [| |? ? ? ? ? _ _ _ Hrun2]; subst.
  inversion Hrun2.
Qed.

(** Witness of the amended C1 on the sample request and proxy. *)
Lemma proxyRequest_failover_in_order_witness :
  ∃ res w' new,
    vulcan.proxyRequest sample_proxy true sample_request
      [upstream_a; upstream_b] sample_world = Some (res, w') ∧
    http.wire w' = http.wire sample_world ++ new ∧
    failover_run (sample_bytes "hello") [upstream_a; upstream_b] new res.
Proof.
  destruct (proxyRequest_failover_in_order sample_proxy sample_request
              [upstream_a; upstream_b] sample_world
              (io.NetBody (sample_bytes "hello") false)
              sample_request_allocated eq_refl) as (Hok & _ & _).
  exact (Hok (sample_bytes "hello") (io.NetBody [] false) eq_refl).
Defined.

(** ** The cursor table *)

Lemma argmin_None ps : roundrobin.argmin ps = None → ps = [].
Proof.
  destruct ps as [|p rest]; [done|]. simpl.
  by destruct (roundrobin.argmin rest) as [j|]; [destruct (_ <? _)%Z|].
Qed.

Lemma argmin_least ps j :
  roundrobin.argmin ps = Some j →
  ∃ m, ps !! j = Some m ∧ ∀ k q, ps !! k = Some q → (m ≤ q)%Z.
Proof.
  revert j. induction ps as [|p rest IH]; intros j; [done|]. simpl.
  destruct (roundrobin.argmin rest) as [j'|] eqn:Hrest.
  - destruct (IH j' eq_refl) as (m' & Hm' & Hleast). rewrite Hm'. simpl.
    destruct (m' <? p)%Z eqn:Hlt; intros [= <-].
    + apply Z.ltb_lt in Hlt. exists m'. split; [done|].
      intros [|k] q Hq; simpl in Hq.
      * inversion Hq; subst. lia.
      * by eapply Hleast.
    + apply Z.ltb_ge in Hlt. exists p. split; [done|].
      intros [|k] q Hq; simpl in Hq.
      * inversion Hq; subst. lia.
      * specialize (Hleast k q Hq). lia.
  - intros [= <-]. apply argmin_None in Hrest as ->.
    exists p. split; [done|]. intros [|k] q Hq; simpl in Hq; [|done].
    inversion Hq; subst. lia.
Qed.

Lemma elem_of_delete_NoDup {A} (l : list A) j x y :
  NoDup l → l !! j = Some x → y ∈ delete j l ↔ y ∈ l ∧ y ≠ x.
Proof.
  intros Hnd Hj. rewrite delete_take_drop.
  rewrite <- (take_drop_middle l j x Hj) in Hnd at 1.
  rewrite <- (take_drop_middle l j x Hj) at 3.
  apply NoDup_app in Hnd as (_ & Hsep & Hnd).
  apply NoDup_cons in Hnd as [Hx _].
  rewrite !elem_of_app, elem_of_cons. split.
  - intros [Hy|Hy].
    + split; [by left|]. intros ->. apply (Hsep x Hy). apply list_elem_of_here.
    + split; [by right; right|]. by intros ->.
  - intros [[Hy|[->|Hy]] Hne]; [by left | done | by right].
Qed.

Lemma slot_item cm r i j : slot cm r i → slot cm r j → i = j.
Proof. intros (co & it & Hco & Hi & _) (co' & it' & Hco' & Hj & _). congruence. Qed.

Lemma slot_cursor cm r r' i : slot cm r i → slot cm r' i → r = r'.
Proof.
  intros (co & it & _ & _ & Hit & Hr) (co' & it' & _ & _ & Hit' & Hr'). congruence.
Qed.

Lemma slot_expiry cm r i : slot cm r i → expiry_of cm r = Some (prio cm i).
Proof.
  intros (co & it & Hco & Hi & Hit & _). unfold expiry_of, prio.
  rewrite Hco. simpl. rewrite Hi. simpl. by rewrite Hit.
Qed.

(** *** Counting cursors and heap slots *)

Lemma elem_of_buckets (m : gmap Z (list loc)) r :
  r ∈ mjoin (snd <$> map_to_list m) ↔ ∃ h cs, m !! h = Some cs ∧ r ∈ cs.
Proof.
  rewrite list_elem_of_join. split.
  - intros (cs & Hr & Hcs). apply list_elem_of_fmap in Hcs as ([h cs'] & -> & Hin).
    apply elem_of_map_to_list in Hin. eauto.
  - intros (h & cs & Hm & Hr). exists cs. split; [done|].
    apply list_elem_of_fmap. exists (h, cs). split; [done|].
    by apply elem_of_map_to_list.
Qed.

Lemma NoDup_buckets (key : loc → option Z) (m : gmap Z (list loc)) :
  (∀ h cs, m !! h = Some cs → NoDup cs ∧ ∀ r, r ∈ cs → key r = Some h) →
  NoDup (mjoin (snd <$> map_to_list m)).
Proof.
  induction m as [|h cs m Hfresh IH] using map_ind; intros Hm.
  - rewrite map_to_list_empty. constructor.
  - rewrite map_to_list_insert by done. simpl.
    destruct (Hm h cs) as [Hnd Hkey]; [apply lookup_insert_eq|].
    apply NoDup_app. split; [done|]. split.
    + intros r Hr Hr'. apply elem_of_buckets in Hr' as (h' & cs' & Hm' & Hr').
      destruct (Hm h' cs') as [_ Hkey'].
      { rewrite lookup_insert_ne; [done|]. intros <-. congruence. }
      specialize (Hkey r Hr). specialize (Hkey' r Hr'). congruence.
    + apply IH. intros h' cs' Hm'. apply Hm.
      rewrite lookup_insert_ne; [done|]. intros <-. congruence.
Qed.

Lemma slot_cursor_of cm r i : slot cm r i → cursor_of cm i = r.
Proof. intros (co & it & _ & _ & Hit & Hr). unfold cursor_of. by rewrite Hit. Qed.

Lemma heap_size_is_cursor_count cm :
  cursorMap_wf cm → length (roundrobin.expiryTimes cm) = cursor_count cm.
Proof.
  intros [Hqnd Hq Hbnd Hb]. unfold cursor_count.
  rewrite <- (length_fmap (cursor_of cm)). apply Permutation_length.
  apply NoDup_Permutation.
  - apply NoDup_fmap_2_strong; [|done]. intros i j Hi Hj Heq.
    destruct (Hq i Hi) as (r & _ & Hs & _). destruct (Hq j Hj) as (r' & _ & Hs' & _).
    rewrite (slot_cursor_of _ _ _ Hs), (slot_cursor_of _ _ _ Hs') in Heq. subst r'.
    by eapply slot_item.
  - apply (NoDup_buckets (hash_of cm)). intros h cs Hcs. split; [by eapply Hbnd|].
    intros r Hr. apply Hb. by exists cs.
  - intros r. rewrite elem_of_buckets, list_elem_of_fmap. split.
    + intros (i & -> & Hi). destruct (Hq i Hi) as (r & h & Hs & _ & cs & Hcs & Hr).
      rewrite (slot_cursor_of _ _ _ Hs). eauto.
    + intros (h & cs & Hcs & Hr).
      destruct (Hb h r) as (_ & i & Hs & Hi); [by exists cs|].
      exists i. split; [|done]. symmetry. by apply slot_cursor_of.
Qed.

(** *** Running the garbage collection *)

Lemma cursorIndex_run m pq ca ia r co :
  ca !! r = Some co →
  roundrobin.cursorIndex r (roundrobin.mkCursorMap m pq ca ia)
  = Some (match m !! roundrobin.hash co with
          | None => (-1)%Z
          | Some cs =>
              match list_find (λ c2, c2 = r) cs with
              | Some (idx, _) => Z.of_nat idx
              | None => (-1)%Z
              end
          end, roundrobin.mkCursorMap m pq ca ia).
Proof.
  intros Hco. unfold roundrobin.cursorIndex.
  erewrite bind_run;
    [| apply (deref_run (λ cm, roundrobin.cursor_at cm !! r)); exact Hco].
  cbv beta. rewrite bind_gets. cbn [roundrobin.cursors].
  destruct (m !! roundrobin.hash co) as [cs|]; [|done].
  by destruct (list_find _ cs) as [[idx x]|].
Qed.

Lemma deleteCursor_run m pq ca ia r co :
  ca !! r = Some co →
  ∃ err,
    roundrobin.deleteCursor r (roundrobin.mkCursorMap m pq ca ia)
    = Some (err, roundrobin.mkCursorMap (remove_cursor r (roundrobin.hash co) m) pq ca ia).
Proof.
  intros Hco. unfold roundrobin.deleteCursor, remove_cursor.
  erewrite bind_run;
    [| apply (deref_run (λ cm, roundrobin.cursor_at cm !! r)); exact Hco].
  cbv beta. rewrite bind_gets. cbn [roundrobin.cursors].
  destruct (m !! roundrobin.hash co) as [cs|] eqn:Hcs; [|by eexists].
  rewrite (bind_run _ _ _ _ _ (cursorIndex_run m pq ca ia r co Hco)). rewrite Hcs.
  destruct (list_find _ cs) as [[idx x]|]; [|by eexists].
  assert ((Z.of_nat idx =? -1)%Z = false) as -> by (apply Z.eqb_neq; lia).
  destruct ((Z.of_nat idx =? 0)%Z && (length cs =? 1)%nat); [by eexists|].
  rewrite bind_modify. cbn [roundrobin.set_cursors roundrobin.cursors
    roundrobin.expiryTimes roundrobin.cursor_at roundrobin.item_at].
  rewrite Nat2Z.id. replace (Z.to_nat (Z.of_nat idx + 1)) with (S idx) by lia.
  by eexists.
Qed.

Lemma priorities_run m pq ca ia :
  (∀ i, i ∈ pq → is_Some (ia !! i)) →
  roundrobin.priorities (roundrobin.mkCursorMap m pq ca ia)
  = Some (prio (roundrobin.mkCursorMap m pq ca ia) <$> pq,
          roundrobin.mkCursorMap m pq ca ia).
Proof.
  intros Hall. unfold roundrobin.priorities.
  apply (deref_run (λ cm, mapM (λ i, roundrobin.priority <$> roundrobin.item_at cm !! i)
                               (roundrobin.expiryTimes cm))).
  cbn [roundrobin.item_at roundrobin.expiryTimes].
  apply mapM_Some_2. apply Forall2_fmap_r, Forall_Forall2_diag, Forall_forall.
  intros i Hi. destruct (Hall i Hi) as [it Hit]. unfold prio. simpl. by rewrite Hit.
Qed.

Lemma least_is_least cm j :
  least cm = Some j →
  ∃ i, roundrobin.expiryTimes cm !! j = Some i ∧
       ∀ i', i' ∈ roundrobin.expiryTimes cm → (prio cm i ≤ prio cm i')%Z.
Proof.
  intros Hj. apply argmin_least in Hj as (m & Hm & Hleast).
  rewrite list_lookup_fmap in Hm.
  destruct (roundrobin.expiryTimes cm !! j) as [i|] eqn:Hi; [|done].
  simpl in Hm. inversion Hm; subst. exists i. split; [done|].
  intros i' Hi'. apply list_elem_of_lookup in Hi' as [k Hk].
  apply (Hleast k). by rewrite list_lookup_fmap, Hk.
Qed.

Lemma least_None cm : least cm = None → roundrobin.expiryTimes cm = [].
Proof. intros H. apply argmin_None in H. by apply fmap_nil_inv in H. Qed.

Lemma deleteExpiredCursors_loop_unfold turns now cm :
  cursorMap_wf cm →
  roundrobin.deleteExpiredCursors_loop turns now cm
  = match least cm with
    | None => Some (tt, cm)
    | Some j =>
        match roundrobin.expiryTimes cm !! j with
        | Some i =>
            if (prio cm i >? now)%Z then Some (tt, cm)
            else match turns with
                 | O => None
                 | S turns' =>
                     roundrobin.deleteExpiredCursors_loop turns' now (collect j cm)
                 end
        | None => None
        end
    end.
Proof.
  intros [Hqnd Hq Hbnd Hb]. destruct cm as [m pq ca ia].
  cbn [roundrobin.expiryTimes] in *.
  assert (∀ i, i ∈ pq → is_Some (ia !! i)) as Hitems.
  { intros i Hi. destruct (Hq i Hi) as (r & h & (co & it & _ & _ & Hit & _) & _).
    by exists it. }
  pose proof (priorities_run m pq ca ia Hitems) as Hprio.
  assert (roundrobin.deleteExpiredCursors_loop turns now (roundrobin.mkCursorMap m pq ca ia)
          = (n <~ roundrobin.pq_Len ;;
             if (n =? 0)%nat then ret tt
             else
               i <~ roundrobin.pq_Peek ;;
               it <~ deref (λ cm, roundrobin.item_at cm !! i) ;;
               if (roundrobin.priority it >? now)%Z then ret tt
               else
                 match turns with
                 | O => panic
                 | S turns =>
                     i <~ roundrobin.heap_Pop ;;
                     it <~ deref (λ cm, roundrobin.item_at cm !! i) ;;
                     roundrobin.deleteCursor (roundrobin.c it) ;;;
                     roundrobin.deleteExpiredCursors_loop turns now
                 end)%go (roundrobin.mkCursorMap m pq ca ia)) as ->
    by (by destruct turns).
  unfold roundrobin.pq_Len. rewrite bind_gets. cbn [roundrobin.expiryTimes].
  destruct (least _) as [j|] eqn:Hleast.
  - destruct (least_is_least _ _ Hleast) as (i & Hi & _).
    cbn [roundrobin.expiryTimes] in Hi. rewrite Hi.
    assert ((length pq =? 0)%nat = false) as ->.
    { apply Nat.eqb_neq. apply lookup_lt_Some in Hi. lia. }
    assert (i ∈ pq) as Hin by (by eapply list_elem_of_lookup_2).
    destruct (Hq i Hin) as (r & h & Hslot & Hhash & _).
    pose proof Hslot as (co & it & Hco & _ & Hit & Hr).
    cbn [roundrobin.cursor_at roundrobin.item_at] in Hco, Hit.
    unfold roundrobin.pq_Peek. rewrite bind_bind.
    unfold least in Hleast. cbn [roundrobin.expiryTimes] in Hleast.
    rewrite (bind_run _ _ _ _ _ Hprio). cbv beta. rewrite Hleast.
    erewrite bind_run;
      [| apply (deref_run (λ cm, roundrobin.expiryTimes cm !! j)); exact Hi].
    erewrite bind_run;
      [| apply (deref_run (λ cm, roundrobin.item_at cm !! i)); exact Hit].
    cbv beta.
    assert (prio (roundrobin.mkCursorMap m pq ca ia) i = roundrobin.priority it) as ->.
    { unfold prio. simpl. by rewrite Hit. }
    destruct (roundrobin.priority it >? now)%Z; [done|].
    destruct turns as [|turns]; [done|].
    unfold roundrobin.heap_Pop. rewrite bind_bind.
    rewrite (bind_run _ _ _ _ _ Hprio). cbv beta.
    rewrite Hleast. rewrite bind_bind.
    erewrite bind_run;
      [| apply (deref_run (λ cm, roundrobin.expiryTimes cm !! j)); exact Hi].
    cbv beta. rewrite bind_bind, bind_modify, bind_ret.
    cbn [roundrobin.set_expiryTimes roundrobin.cursors roundrobin.expiryTimes
         roundrobin.cursor_at roundrobin.item_at].
    erewrite bind_run;
      [| apply (deref_run (λ cm, roundrobin.item_at cm !! i)); exact Hit].
    cbv beta. rewrite Hr.
    destruct (deleteCursor_run m (delete j pq) ca ia r co Hco) as [err Hdel].
    rewrite (bind_run _ _ _ _ _ Hdel). f_equal.
    unfold collect. cbn [roundrobin.expiryTimes roundrobin.cursors
                         roundrobin.cursor_at roundrobin.item_at]. rewrite Hi.
    rewrite (slot_cursor_of _ _ _ Hslot). unfold hash_of.
    cbn [roundrobin.cursor_at]. by rewrite Hco.
  - apply least_None in Hleast. cbn [roundrobin.expiryTimes] in Hleast. by subst pq.
Qed.

Lemma remove_cursor_found m h cs r :
  m !! h = Some cs → r ∈ cs →
  ∃ idx, cs !! idx = Some r ∧
         remove_cursor r h m
         = if decide (cs = [r]) then delete h m else <[h := delete idx cs]> m.
Proof.
  intros Hm Hr. unfold remove_cursor. rewrite Hm.
  destruct (list_find (λ c2, c2 = r) cs) as [[idx x]|] eqn:Hfind.
  - apply list_find_Some in Hfind as (Hidx & -> & _). exists idx. split; [done|].
    rewrite <- delete_take_drop.
    destruct (decide (cs = [r])) as [->|Hne].
    + destruct idx as [|idx]; [done|]. by destruct idx.
    + destruct ((Z.of_nat idx =? 0)%Z && (length cs =? 1)%nat) eqn:Hone; [|done].
      apply andb_true_iff in Hone as [Hz Hl].
      apply Z.eqb_eq in Hz. apply Nat.eqb_eq in Hl.
      destruct idx; [|lia]. destruct cs as [|x [|y cs]]; try done.
      simpl in Hidx. by inversion Hidx; subst.
  - apply list_find_None in Hfind. rewrite Forall_forall in Hfind.
    by destruct (Hfind r Hr).
Qed.

Lemma remove_cursor_bucket m h cs r h' r' :
  m !! h = Some cs → NoDup cs → r ∈ cs →
  (∃ cs', remove_cursor r h m !! h' = Some cs' ∧ r' ∈ cs')
  ↔ (∃ cs', m !! h' = Some cs' ∧ r' ∈ cs') ∧ ¬ (h' = h ∧ r' = r).
Proof.
  intros Hm Hnd Hr.
  destruct (remove_cursor_found m h cs r Hm Hr) as (idx & Hidx & ->).
  destruct (decide (h' = h)) as [->|Hne].
  - destruct (decide (cs = [r])) as [->|Hcs].
    + rewrite lookup_delete_eq. split.
      * by intros (cs' & ? & _).
      * intros [(cs' & Hcs' & Hr') Hnot]. rewrite Hm in Hcs'. inversion Hcs'; subst.
        apply list_elem_of_singleton in Hr'. by destruct Hnot.
    + rewrite lookup_insert_eq. split.
      * intros (cs' & [= <-] & Hr').
        apply (elem_of_delete_NoDup cs idx r r' Hnd Hidx) in Hr' as [Hin Hneq].
        split; [eauto | by intros [_ ?]].
      * intros [(cs' & Hcs' & Hr') Hnot]. rewrite Hm in Hcs'. inversion Hcs'; subst.
        eexists. split; [done|].
        apply (elem_of_delete_NoDup cs' idx r r' Hnd Hidx). split; [done|].
        intros ->. by apply Hnot.
  - destruct (decide (cs = [r])).
    + rewrite lookup_delete_ne by done. split; [|by intros [? _]].
      intros Hin. split; [done|]. by intros [? _].
    + rewrite lookup_insert_ne by done. split; [|by intros [? _]].
      intros Hin. split; [done|]. by intros [? _].
Qed.

Lemma remove_cursor_NoDup m h cs r h' cs' :
  m !! h = Some cs → r ∈ cs →
  (∀ k ks, m !! k = Some ks → NoDup ks) →
  remove_cursor r h m !! h' = Some cs' → NoDup cs'.
Proof.
  intros Hm Hr Hall.
  destruct (remove_cursor_found m h cs r Hm Hr) as (idx & Hidx & ->).
  destruct (decide (h' = h)) as [->|Hne].
  - destruct (decide (cs = [r])).
    + by rewrite lookup_delete_eq.
    + rewrite lookup_insert_eq. intros [= <-].
      eapply sublist_NoDup; [by eapply Hall | apply sublist_delete].
  - destruct (decide (cs = [r])).
    + rewrite lookup_delete_ne by done. apply Hall.
    + rewrite lookup_insert_ne by done. apply Hall.
Qed.

Lemma collect_wf cm j i :
  cursorMap_wf cm → roundrobin.expiryTimes cm !! j = Some i →
  cursorMap_wf (collect j cm) ∧
  roundrobin.expiryTimes (collect j cm) = delete j (roundrobin.expiryTimes cm) ∧
  roundrobin.cursor_at (collect j cm) = roundrobin.cursor_at cm ∧
  roundrobin.item_at (collect j cm) = roundrobin.item_at cm ∧
  ∀ h r, in_bucket (collect j cm) h r → in_bucket cm h r.
Proof.
  intros [Hqnd Hq Hbnd Hb] Hi. unfold collect. rewrite Hi.
  assert (i ∈ roundrobin.expiryTimes cm) as Hin by (by eapply list_elem_of_lookup_2).
  destruct (Hq i Hin) as (r & h & Hslot & Hhash & cs & Hcs & Hr).
  rewrite (slot_cursor_of _ _ _ Hslot), Hhash. cbn [default].
  set (cm' := roundrobin.mkCursorMap _ _ _ _).
  assert (∀ h' r', in_bucket cm' h' r' ↔ in_bucket cm h' r' ∧ ¬ (h' = h ∧ r' = r))
    as Hbucket.
  { intros h' r'. apply remove_cursor_bucket with (cs := cs); eauto. }
  assert (∀ r' i', slot cm' r' i' ↔ slot cm r' i') as Hslot' by done.
  assert (∀ i', i' ∈ roundrobin.expiryTimes cm' ↔
                i' ∈ roundrobin.expiryTimes cm ∧ i' ≠ i) as Hqueue.
  { intros i'. by apply elem_of_delete_NoDup. }
  split_and!; try done.
  - split.
    + eapply sublist_NoDup; [exact Hqnd | apply sublist_delete].
    + intros i' Hi'. apply Hqueue in Hi' as [Hi' Hne].
      destruct (Hq i' Hi') as (r' & h' & Hs' & Hh' & Hb').
      exists r', h'. split; [by apply Hslot'|]. split; [done|].
      apply Hbucket. split; [done|]. intros [_ ->].
      apply Hne. by eapply slot_item.
    + intros h' cs'. by eapply remove_cursor_NoDup.
    + intros h' r' Hb'. apply Hbucket in Hb' as [Hb' Hnot].
      destruct (Hb h' r' Hb') as (Hh' & i' & Hs' & Hi').
      split; [done|]. exists i'. split; [by apply Hslot'|].
      apply Hqueue. split; [done|]. intros ->.
      apply Hnot. split; [|by eapply slot_cursor].
      assert (r' = r) as -> by (by eapply slot_cursor).
      unfold hash_of in *. congruence.
  - intros h' r' Hb'. by apply Hbucket in Hb' as [? _].
Qed.

Lemma collect_single_buckets cm j i :
  cursorMap_wf cm → roundrobin.expiryTimes cm !! j = Some i →
  single_buckets cm → single_buckets (collect j cm).
Proof.
  intros Hwf Hi Hone. unfold collect. rewrite Hi.
  assert (i ∈ roundrobin.expiryTimes cm) as Hin by (by eapply list_elem_of_lookup_2).
  destruct (wf_queue cm Hwf i Hin) as (r & h & Hslot & Hhash & cs & Hcs & Hr).
  rewrite (slot_cursor_of _ _ _ Hslot), Hhash. cbn [default].
  destruct (remove_cursor_found _ h cs r Hcs Hr) as (idx & Hidx & Heq).
  unfold single_buckets. cbv zeta. cbn [roundrobin.cursors]. unfold id. rewrite Heq.
  intros h' cs'. destruct (decide (cs = [r])) as [->|Hne].
  - intros [_ Hcs']%lookup_delete_Some. by eapply Hone.
  - specialize (Hone h cs Hcs). destruct cs as [|r0 [|? ?]]; try done.
    apply list_elem_of_singleton in Hr as ->. done.
Qed.

Lemma deleteExpiredCursors_loop_run now turns :
  ∀ cm, cursorMap_wf cm → length (roundrobin.expiryTimes cm) ≤ turns →
    ∃ cm',
      roundrobin.deleteExpiredCursors_loop turns now cm = Some (tt, cm') ∧
      cursorMap_wf cm' ∧
      (∀ i, i ∈ roundrobin.expiryTimes cm' → (now < prio cm' i)%Z) ∧
      roundrobin.cursor_at cm' = roundrobin.cursor_at cm ∧
      roundrobin.item_at cm' = roundrobin.item_at cm ∧
      (∀ h r, in_bucket cm' h r → in_bucket cm h r) ∧
      (single_buckets cm → single_buckets cm').
Proof.
  induction turns as [|turns IH]; intros cm Hwf Hlen;
    rewrite (deleteExpiredCursors_loop_unfold _ now cm Hwf).
  - destruct (least cm) as [j|] eqn:Hleast.
    + destruct (least_is_least cm j Hleast) as (i & Hi & Hmin). rewrite Hi.
      apply lookup_lt_Some in Hi. lia.
    + apply least_None in Hleast. exists cm. split_and!; try done.
      intros i. rewrite Hleast. by intros ?%elem_of_nil.
  - destruct (least cm) as [j|] eqn:Hleast.
    + destruct (least_is_least cm j Hleast) as (i & Hi & Hmin). rewrite Hi.
      destruct (prio cm i >? now)%Z eqn:Hexp.
      * exists cm. split_and!; try done. intros i' Hi'.
        apply Z.gtb_lt in Hexp. specialize (Hmin i' Hi'). lia.
      * destruct (collect_wf cm j i Hwf Hi) as (Hwf' & Hpq' & Hca' & Hia' & Hb').
        destruct (IH (collect j cm) Hwf')
          as (cm' & Hrun & Hwf'' & Hall & Hca & Hia & Hb & Hone).
        { rewrite Hpq', length_delete by eauto. lia. }
        exists cm'. split_and!; try done; try congruence.
        -- intros h r Hr. by apply Hb', Hb.
        -- intros Hone'. apply Hone. by eapply collect_single_buckets.
    + apply least_None in Hleast. exists cm. split_and!; try done.
      intros i. rewrite Hleast. by intros ?%elem_of_nil.
Qed.

Lemma deleteExpiredCursors_loop_nothing now turns cm :
  cursorMap_wf cm →
  (∀ i, i ∈ roundrobin.expiryTimes cm → (now < prio cm i)%Z) →
  roundrobin.deleteExpiredCursors_loop turns now cm = Some (tt, cm).
Proof.
  intros Hwf Hall. rewrite (deleteExpiredCursors_loop_unfold _ now cm Hwf).
  destruct (least cm) as [j|] eqn:Hleast; [|done].
  destruct (least_is_least cm j Hleast) as (i & Hi & _). rewrite Hi.
  assert (now < prio cm i)%Z as Hlt by (by eapply Hall, list_elem_of_lookup_2).
  apply Z.gtb_lt in Hlt. by rewrite Hlt.
Qed.

(** When every bucket holds a single cursor, as in every table built by
    [upsertCursor], the cursors of the map are as many as its keys. *)
Lemma cursor_count_single_buckets cm :
  single_buckets cm → cursor_count cm = size (roundrobin.cursors cm).
Proof.
  unfold cursor_count, single_buckets. generalize (roundrobin.cursors cm). clear cm.
  intros m. induction m as [|h cs m Hfresh IH] using map_ind; intros Hone.
  - by rewrite map_to_list_empty, map_size_empty.
  - rewrite map_to_list_insert, map_size_insert_None by done.
    rewrite fmap_cons.
    change (length (cs ++ mjoin (snd <$> map_to_list m)) = S (size m)).
    rewrite length_app, (Hone h cs) by apply lookup_insert_eq.
    rewrite IH; [done|]. intros h' cs' Hcs'. apply (Hone h').
    rewrite lookup_insert_ne; [done|]. intros <-. congruence.
Qed.

(** C8: on a table in which each cursor occupies exactly one heap slot,
    [deleteExpiredCursors now] returns; afterwards every cursor left in
    the table has an expiry time after [now], the heap has as many items
    as the map has cursors (and, when every bucket held a single cursor,
    as the map has keys), and running it again with the same [now]
    changes nothing. *)
Theorem deleteExpiredCursors_complete now cm :
  cursorMap_wf cm →
  ∃ cm',
    roundrobin.deleteExpiredCursors now cm = Some (tt, cm') ∧
    (∀ r, in_table cm' r → ∃ e, expiry_of cm' r = Some e ∧ (now < e)%Z) ∧
    length (roundrobin.expiryTimes cm') = cursor_count cm' ∧
    (single_buckets cm →
       length (roundrobin.expiryTimes cm') = size (roundrobin.cursors cm')) ∧
    roundrobin.deleteExpiredCursors now cm' = Some (tt, cm').
Proof.
  intros Hwf.
  destruct (deleteExpiredCursors_loop_run now (length (roundrobin.expiryTimes cm))
              cm Hwf (Nat.le_refl _)) as (cm' & Hrun & Hwf' & Hall & _ & _ & _ & Hone).
  exists cm'. split_and!.
  - done.
  - intros r [h Hr]. destruct (wf_bucket cm' Hwf' h r Hr) as (_ & i & Hslot & Hi).
    exists (prio cm' i). split; [by apply slot_expiry | by apply Hall].
  - by apply heap_size_is_cursor_count.
  - intros Hone'. rewrite <- cursor_count_single_buckets by auto.
    by apply heap_size_is_cursor_count.
  - by apply deleteExpiredCursors_loop_nothing.
Qed.

Example demo_table_built :
  (roundrobin.upsertCursor [endpoint_a] 10 ;;;
   roundrobin.upsertCursor [endpoint_b] 30)%go roundrobin.newCursorMap
  = Some (1%nat, demo_table).
Proof. vm_compute. reflexivity. Qed.

Lemma demo_table_wf : cursorMap_wf demo_table.
Proof.
  assert (∀ h cs, roundrobin.cursors demo_table !! h = Some cs →
            (h = roundrobin.computeHash [endpoint_b] ∧ cs = [1%nat]) ∨
            (h = roundrobin.computeHash [endpoint_a] ∧ cs = [0%nat])) as Hbuckets.
  { intros h cs. unfold demo_table. cbn [roundrobin.cursors].
    rewrite lookup_insert_Some, lookup_singleton_Some. intuition auto. }
  assert (NoDup [0; 1]%nat) as Hnd.
  { apply NoDup_cons. split; [|apply NoDup_singleton].
    intros H%list_elem_of_singleton. discriminate. }
  split.
  - exact Hnd.
  - intros i Hi. cbn [roundrobin.expiryTimes demo_table] in Hi.
    apply elem_of_cons in Hi as [->|Hi]; [|apply list_elem_of_singleton in Hi as ->].
    + exists 0%nat, (roundrobin.computeHash [endpoint_a]). split_and!.
      * by eexists _, _.
      * done.
      * exists [0%nat]. split; [by vm_compute | apply list_elem_of_here].
    + exists 1%nat, (roundrobin.computeHash [endpoint_b]). split_and!.
      * by eexists _, _.
      * done.
      * exists [1%nat]. split; [by vm_compute | apply list_elem_of_here].
  - intros h cs Hcs. destruct (Hbuckets h cs Hcs) as [[_ ->]|[_ ->]];
      apply NoDup_singleton.
  - intros h r (cs & Hcs & Hr).
    destruct (Hbuckets h cs Hcs) as [[-> ->]|[-> ->]];
      apply list_elem_of_singleton in Hr as ->.
    + split; [done|]. exists 1%nat. split; [by eexists _, _|].
      cbn [roundrobin.expiryTimes demo_table]. set_solver.
    + split; [done|]. exists 0%nat. split; [by eexists _, _|].
      cbn [roundrobin.expiryTimes demo_table]. set_solver.
Qed.

(** Collecting at time 20 removes the cursor of [[a]] and keeps that of
    [[b]]. *)
Example demo_table_collected :
  ∃ cm', roundrobin.deleteExpiredCursors 20 demo_table = Some (tt, cm') ∧
         map_to_list (roundrobin.cursors cm')
         = [(roundrobin.computeHash [endpoint_b], [1%nat])] ∧
         roundrobin.expiryTimes cm' = [1%nat].
Proof. eexists. split; [vm_compute; reflexivity|]. by vm_compute. Qed.

(** Witness of C8 on the two-cursor table at time 20. *)
Lemma deleteExpiredCursors_complete_witness :
  ∃ cm',
    roundrobin.deleteExpiredCursors 20 demo_table = Some (tt, cm') ∧
    (∀ r, in_table cm' r → ∃ e, expiry_of cm' r = Some e ∧ (20 < e)%Z) ∧
    length (roundrobin.expiryTimes cm') = cursor_count cm' ∧
    (single_buckets demo_table →
       length (roundrobin.expiryTimes cm') = size (roundrobin.cursors cm')) ∧
    roundrobin.deleteExpiredCursors 20 cm' = Some (tt, cm').
Proof. exact (deleteExpiredCursors_complete 20 demo_table demo_table_wf). Defined.

(** *** Cursor lookup *)

Example backends_collide :
  roundrobin.computeHash [backend_229599] = 1093752856%Z ∧
  roundrobin.computeHash [backend_432382] = 1093752856%Z.
Proof. by vm_compute. Qed.

(** The ids are hashed one after the other with no separator, so the
    hash only sees their concatenation. *)
Example split_ids_collide :
  roundrobin.computeHash [endpoint_at "ab"; endpoint_at "c"]
  = roundrobin.computeHash [endpoint_at "a"; endpoint_at "bc"].
Proof. by vm_compute. Qed.

(** C3, at a table that is empty: [upsertCursor] for [[backend_229599]]
    creates cursor 0; [upsertCursor] for the different id sequence
    [[backend_432382]] then finds the bucket of their common hash with a
    single cursor in it and returns that cursor, made for the other ids,
    without comparing the ids; no second cursor is created. *)
Theorem upsertCursor_other_ids_same_cursor :
  ∃ cm,
    (c1 <~ roundrobin.upsertCursor [backend_229599] 10 ;;
     c2 <~ roundrobin.upsertCursor [backend_432382] 20 ;;
     ret (c1, c2))%go roundrobin.newCursorMap = Some ((0%nat, 0%nat), cm) ∧
    map loadbalance.Id [backend_229599] ≠ map loadbalance.Id [backend_432382] ∧
    roundrobin.endpointIds <$> roundrobin.cursor_at cm !! 0%nat
    = Some ["http://backend-229599:8080"] ∧
    length (roundrobin.cursor_at cm) = 1%nat.
Proof.
  eexists. split; [vm_compute; reflexivity|]. split; [discriminate|].
  by vm_compute.
Qed.

Example upsertCursor_split_ids_same_cursor :
  ∃ cm,
    (c1 <~ roundrobin.upsertCursor [endpoint_at "ab"; endpoint_at "c"] 10 ;;
     c2 <~ roundrobin.upsertCursor [endpoint_at "a"; endpoint_at "bc"] 20 ;;
     ret (c1, c2))%go roundrobin.newCursorMap = Some ((0%nat, 0%nat), cm).
Proof. eexists. vm_compute. reflexivity. Qed.

(** *** Running [upsertCursor] *)

Lemma getCursor_loop_run m pq ca ia endpoints cs :
  roundrobin.getCursor_loop cs endpoints (roundrobin.mkCursorMap m pq ca ia)
  = (λ r, (r, roundrobin.mkCursorMap m pq ca ia)) <$> find_same ca endpoints cs.
Proof.
  induction cs as [|c rest IH]; [done|]. cbn [roundrobin.getCursor_loop find_same].
  destruct (ca !! c) as [co|] eqn:Hco.
  - erewrite bind_run;
      [| apply (deref_run (λ cm, roundrobin.cursor_at cm !! c)); exact Hco].
    cbv beta. by destruct (roundrobin.sameEndpoints co endpoints).
  - apply bind_panic. unfold deref. cbn [roundrobin.cursor_at]. by rewrite Hco.
Qed.

Lemma getCursor_run m pq ca ia endpoints :
  roundrobin.getCursor endpoints (roundrobin.mkCursorMap m pq ca ia)
  = (λ r, (r, roundrobin.mkCursorMap m pq ca ia)) <$> find_cursor m ca endpoints.
Proof.
  unfold roundrobin.getCursor, find_cursor. cbv zeta. rewrite bind_gets.
  cbn [roundrobin.cursors].
  destruct (m !! roundrobin.computeHash endpoints) as [cs|]; [|done].
  destruct (length cs =? 1)%nat; [done|]. apply getCursor_loop_run.
Qed.

Lemma upsertCursor_run endpoints expiryTime cm :
  roundrobin.upsertCursor endpoints expiryTime cm = upsert endpoints expiryTime cm.
Proof.
  destruct cm as [m pq ca ia]. unfold roundrobin.upsertCursor, upsert.
  unfold bind at 1. rewrite getCursor_run.
  destruct (find_cursor m ca endpoints) as [[c|]|]; cbn [fmap option_fmap option_map].
  - destruct (ca !! c) as [co|] eqn:Hco; cycle 1.
    { apply bind_panic. unfold deref. cbn [roundrobin.cursor_at]. by rewrite Hco. }
    erewrite bind_run;
      [| apply (deref_run (λ cm, roundrobin.cursor_at cm !! c)); exact Hco].
    cbv beta. cbn [mbind option_bind].
    destruct (roundrobin.item co) as [i|]; [|done].
    cbn [roundrobin.pq_Update mbind option_bind].
    destruct (ia !! i) as [it|] eqn:Hit; cycle 1.
    { apply bind_panic, bind_panic. unfold deref. cbn [roundrobin.item_at].
      by rewrite Hit. }
    rewrite bind_bind.
    erewrite bind_run;
      [| apply (deref_run (λ cm, roundrobin.item_at cm !! i)); exact Hit].
    reflexivity.
  - unfold roundrobin.addCursor. cbv zeta. rewrite !bind_bind, bind_gets.
    rewrite bind_bind, bind_modify, bind_bind, bind_gets.
    cbn [roundrobin.set_cursor_at roundrobin.cursors roundrobin.expiryTimes
         roundrobin.cursor_at roundrobin.item_at roundrobin.newCursor roundrobin.hash].
    set (h := roundrobin.computeHash endpoints).
    assert (∀ k : unit → Go roundrobin.cursorMap loc, ∀ s,
              bind (match m !! h with
                    | Some cs => modify (roundrobin.set_cursors (λ m0, <[h:=cs ++ [length ca]]> m0))
                    | None => modify (roundrobin.set_cursors (λ m0, <[h:=[length ca]]> m0))
                    end) k s
              = k tt (roundrobin.set_cursors
                        (λ m0, <[h := default [] (m !! h) ++ [length ca]]> m0) s)) as Hadd.
    { intros k s. by destruct (m !! h). }
    rewrite bind_bind, Hadd, bind_ret, bind_gets, bind_modify.
    cbn [roundrobin.set_cursors roundrobin.set_item_at roundrobin.cursors
         roundrobin.expiryTimes roundrobin.cursor_at roundrobin.item_at].
    erewrite bind_run;
      [| apply (deref_run (λ cm, roundrobin.cursor_at cm !! length ca));
         apply lookup_snoc_new].
    cbv beta. rewrite bind_modify. unfold roundrobin.heap_Push. rewrite bind_modify.
    cbn [roundrobin.set_cursor_at roundrobin.set_expiryTimes roundrobin.cursors
         roundrobin.expiryTimes roundrobin.cursor_at roundrobin.item_at
         roundrobin.index roundrobin.hash roundrobin.endpointIds].
    unfold roundrobin.set_expiryTimes, roundrobin.set_cursor_at, roundrobin.set_item_at,
      roundrobin.set_cursors, roundrobin.newCursor, ret.
    cbn [roundrobin.cursors roundrobin.expiryTimes roundrobin.cursor_at
         roundrobin.item_at roundrobin.index roundrobin.hash roundrobin.endpointIds].
    by rewrite insert_snoc_new.
  - done.
Qed.

Lemma computeHash_ids endpoints :
  roundrobin.computeHash endpoints
  = foldl roundrobin.sum32_Write roundrobin.offset32 (map loadbalance.Id endpoints).
Proof.
  unfold roundrobin.computeHash. generalize roundrobin.offset32.
  induction endpoints as [|e rest IH]; intros h; [done|]. simpl. apply IH.
Qed.

Lemma sameEndpoints_ids co endpoints :
  roundrobin.sameEndpoints co endpoints = true
  ↔ roundrobin.endpointIds co = map loadbalance.Id endpoints.
Proof.
  unfold roundrobin.sameEndpoints. generalize (roundrobin.endpointIds co).
  intros ids. destruct (length ids =? length endpoints)%nat eqn:Hlen; simpl.
  - apply Nat.eqb_eq in Hlen. revert endpoints Hlen.
    induction ids as [|a ids IH]; intros [|b endpoints] Hlen; simpl in *; try done.
    rewrite andb_true_iff, String.eqb_eq, IH by lia. split.
    + by intros [-> ->].
    + by intros [= -> ->].
  - apply Nat.eqb_neq in Hlen. split; [done|]. intros ->.
    by rewrite length_map in Hlen.
Qed.

Lemma sameEndpoints_same_ids co endpoints endpoints' :
  map loadbalance.Id endpoints = map loadbalance.Id endpoints' →
  roundrobin.sameEndpoints co endpoints = roundrobin.sameEndpoints co endpoints'.
Proof.
  intros Hids. apply eq_true_iff_eq. by rewrite !sameEndpoints_ids, Hids.
Qed.

Lemma find_same_same_ids ca endpoints endpoints' cs :
  map loadbalance.Id endpoints = map loadbalance.Id endpoints' →
  find_same ca endpoints cs = find_same ca endpoints' cs.
Proof.
  intros Hids. induction cs as [|c rest IH]; [done|]. simpl.
  destruct (ca !! c) as [co|]; [|done].
  by rewrite (sameEndpoints_same_ids co _ _ Hids), IH.
Qed.

Lemma find_cursor_same_ids m ca endpoints endpoints' :
  map loadbalance.Id endpoints = map loadbalance.Id endpoints' →
  find_cursor m ca endpoints = find_cursor m ca endpoints'.
Proof.
  intros Hids. unfold find_cursor.
  rewrite (computeHash_ids endpoints), (computeHash_ids endpoints'), Hids.
  destruct (m !! _) as [cs|]; [|done].
  by rewrite (find_same_same_ids ca _ _ cs Hids).
Qed.

(** A search that finds nothing goes on to find a matching cursor added
    at the end of the bucket. *)
Lemma find_same_added ca endpoints cs co :
  find_same ca endpoints cs = Some None →
  roundrobin.sameEndpoints co endpoints = true →
  find_same (ca ++ [co]) endpoints (cs ++ [length ca]) = Some (Some (length ca)).
Proof.
  intros Hnone Hsame. induction cs as [|c rest IH]; simpl in *.
  - by rewrite lookup_snoc_new, Hsame.
  - destruct (ca !! c) as [co'|] eqn:Hco'; [|done].
    rewrite (lookup_app_l_Some _ _ _ _ Hco').
    destruct (roundrobin.sameEndpoints co' endpoints); [done|]. by apply IH.
Qed.

(** The first half of C3: on any table, once [upsertCursor] has returned
    a cursor for an id sequence, [upsertCursor] for the same id sequence
    returns that same cursor, allocates nothing, leaves the map, the
    queue and the cursors as they are and sets the cursor's expiry. *)
Lemma upsertCursor_same_ids_same_cursor cm endpoints endpoints' t1 t2 c1 cm1 :
  map loadbalance.Id endpoints = map loadbalance.Id endpoints' →
  roundrobin.upsertCursor endpoints t1 cm = Some (c1, cm1) →
  ∃ cm2,
    roundrobin.upsertCursor endpoints' t2 cm1 = Some (c1, cm2) ∧
    roundrobin.cursors cm2 = roundrobin.cursors cm1 ∧
    roundrobin.expiryTimes cm2 = roundrobin.expiryTimes cm1 ∧
    roundrobin.cursor_at cm2 = roundrobin.cursor_at cm1 ∧
    length (roundrobin.item_at cm2) = length (roundrobin.item_at cm1) ∧
    expiry_of cm2 c1 = Some t2.
Proof.
  intros Hids. rewrite !upsertCursor_run. destruct cm as [m pq ca ia].
  unfold upsert at 1.
  destruct (find_cursor m ca endpoints) as [[c|]|] eqn:Hfind; [| |done].
  - destruct (ca !! c) as [co|] eqn:Hco; [|done]. cbn [mbind option_bind].
    destruct (roundrobin.item co) as [i|] eqn:Hi; [|done]. cbn [mbind option_bind].
    destruct (ia !! i) as [it|] eqn:Hit; [|done]. cbn [mbind option_bind].
    intros [= <- <-]. unfold upsert.
    rewrite <- (find_cursor_same_ids m ca _ _ Hids), Hfind, Hco.
    cbn [mbind option_bind]. rewrite Hi. cbn [mbind option_bind].
    rewrite (lookup_insert_same _ _ _ _ Hit). cbn [mbind option_bind].
    eexists. split; [reflexivity|]. cbn [roundrobin.cursors roundrobin.expiryTimes
      roundrobin.cursor_at roundrobin.item_at]. split_and!; try done.
    + by rewrite !length_insert.
    + unfold expiry_of. cbn [roundrobin.cursor_at roundrobin.item_at].
      rewrite Hco. cbn [mbind option_bind]. rewrite Hi. cbn [mbind option_bind].
      rewrite list_lookup_insert_eq; [done|].
      rewrite length_insert. by eapply lookup_lt_Some.
  - cbv zeta. intros [= <- <-]. unfold upsert.
    set (h := roundrobin.computeHash endpoints).
    set (co := roundrobin.mkCursor 0 h (Some (length ia)) (map loadbalance.Id endpoints)).
    assert (roundrobin.sameEndpoints co endpoints' = true) as Hsame.
    { apply sameEndpoints_ids. by rewrite <- Hids. }
    assert (find_cursor (<[h := default [] (m !! h) ++ [length ca]]> m) (ca ++ [co])
              endpoints' = Some (Some (length ca))) as ->.
    { unfold find_cursor. rewrite (computeHash_ids endpoints'), <- Hids.
      rewrite <- computeHash_ids. fold h. rewrite lookup_insert_eq.
      unfold find_cursor in Hfind. fold h in Hfind.
      destruct (m !! h) as [cs|]; cbn [default]; [|done].
      destruct (length cs =? 1)%nat eqn:Hone.
      { apply Nat.eqb_eq in Hone. destruct cs as [|c0 [|? ?]]; done. }
      rewrite (find_same_same_ids ca _ _ cs Hids) in Hfind.
      rewrite length_app. simpl.
      destruct (length cs + 1 =? 1)%nat eqn:Hone'.
      { apply Nat.eqb_eq in Hone'. destruct cs; [done | simpl in Hone'; lia]. }
      by apply find_same_added. }
    rewrite lookup_snoc_new. cbn [mbind option_bind roundrobin.item co].
    rewrite lookup_snoc_new. cbn [mbind option_bind].
    eexists. split; [reflexivity|]. cbn [roundrobin.cursors roundrobin.expiryTimes
      roundrobin.cursor_at roundrobin.item_at]. split_and!; try done.
    + by rewrite length_insert.
    + unfold expiry_of. cbn [roundrobin.cursor_at roundrobin.item_at].
      rewrite lookup_snoc_new. cbn [mbind option_bind roundrobin.item co].
      by rewrite insert_snoc_new, lookup_snoc_new.
Qed.

(** *** The tables the code builds *)

Lemma newCursorMap_wf : cursorMap_wf roundrobin.newCursorMap.
Proof.
  split.
  - constructor.
  - by intros i ?%elem_of_nil.
  - intros h cs. cbn [roundrobin.cursors roundrobin.newCursorMap].
    by rewrite lookup_empty.
  - intros h r (cs & Hcs & _). cbn [roundrobin.cursors roundrobin.newCursorMap] in Hcs.
    by rewrite lookup_empty in Hcs.
Qed.

Lemma find_same_total ca endpoints cs :
  (∀ c, c ∈ cs → is_Some (ca !! c)) →
  ∃ r, find_same ca endpoints cs = Some r ∧ ∀ c, r = Some c → c ∈ cs.
Proof.
  induction cs as [|c rest IH]; intros Hall; simpl.
  - exists None. by split.
  - destruct (Hall c) as [co ->]; [apply list_elem_of_here|].
    destruct (roundrobin.sameEndpoints co endpoints).
    + exists (Some c). split; [done|]. intros ? [= <-]. apply list_elem_of_here.
    + destruct IH as (r & -> & Hr).
      { intros c' Hc'. apply Hall. by apply list_elem_of_further. }
      exists r. split; [done|]. intros c' Hc'. apply list_elem_of_further. by apply Hr.
Qed.

Lemma find_cursor_total cm endpoints :
  cursorMap_wf cm →
  ∃ r, find_cursor (roundrobin.cursors cm) (roundrobin.cursor_at cm) endpoints = Some r ∧
       ∀ c, r = Some c → in_bucket cm (roundrobin.computeHash endpoints) c.
Proof.
  intros Hwf. unfold find_cursor, in_bucket.
  destruct (roundrobin.cursors cm !! _) as [cs|] eqn:Hcs.
  - destruct (length cs =? 1)%nat.
    + eexists. split; [done|]. intros c Hc. exists cs. split; [done|].
      by eapply list_elem_of_lookup_2.
    + destruct (find_same_total (roundrobin.cursor_at cm) endpoints cs) as (r & Hr & Hin).
      { intros c Hc.
        destruct (wf_bucket cm Hwf (roundrobin.computeHash endpoints) c) as [Hh _];
          [by exists cs|].
        unfold hash_of in Hh. by destruct (roundrobin.cursor_at cm !! c). }
      exists r. split; [done|]. intros c Hc. exists cs. split; [done|]. by apply Hin.
  - exists None. by split.
Qed.

(** [upsertCursor] runs on a well-formed table and leaves it well-formed. *)
Lemma upsertCursor_wf cm endpoints expiryTime :
  cursorMap_wf cm →
  ∃ c cm', roundrobin.upsertCursor endpoints expiryTime cm = Some (c, cm') ∧
           cursorMap_wf cm'.
Proof.
  intros Hwf. rewrite upsertCursor_run.
  destruct (find_cursor_total cm endpoints Hwf) as (found & Hfind & Hfound).
  destruct cm as [m pq ca ia]. unfold upsert.
  cbn [roundrobin.cursors roundrobin.cursor_at] in Hfind. rewrite Hfind.
  destruct found as [c|].
  - destruct (wf_bucket _ Hwf _ c (Hfound c eq_refl)) as (_ & i & Hslot & _).
    destruct Hslot as (co & it & Hco & Hi & Hit & Hc).
    cbn [roundrobin.cursor_at roundrobin.item_at] in Hco, Hit.
    rewrite Hco. cbn [mbind option_bind]. rewrite Hi. cbn [mbind option_bind].
    rewrite Hit. cbn [mbind option_bind]. eexists _, _. split; [reflexivity|].
    assert (∀ r j, slot (roundrobin.mkCursorMap m pq ca ia) r j →
                   slot (roundrobin.mkCursorMap m pq ca
                           (<[i := roundrobin.mkPqItem (roundrobin.c it) expiryTime]> ia))
                        r j) as Hkeep.
    { intros r j (co' & it' & Hco' & Hj & Hit' & Hr).
      cbn [roundrobin.cursor_at roundrobin.item_at] in *.
      destruct (decide (j = i)) as [->|Hne].
      - exists co', (roundrobin.mkPqItem (roundrobin.c it) expiryTime).
        split_and!; try done.
        + cbn [roundrobin.item_at]. by eapply lookup_insert_same.
        + cbn [roundrobin.c]. congruence.
      - exists co', it'. split_and!; try done.
        cbn [roundrobin.item_at]. by rewrite list_lookup_insert_ne. }
    destruct Hwf as [Hqnd Hq Hbnd Hb]. split.
    + exact Hqnd.
    + intros j Hj. destruct (Hq j Hj) as (r & h & Hs & Hh & Hin).
      exists r, h. split; [by apply Hkeep|]. by split.
    + exact Hbnd.
    + intros h r Hin. destruct (Hb h r Hin) as (Hh & j & Hs & Hj).
      split; [done|]. exists j. split; [by apply Hkeep | done].
  - cbv zeta. eexists _, _. split; [reflexivity|].
    set (h := roundrobin.computeHash endpoints).
    set (co := roundrobin.mkCursor 0 h (Some (length ia)) _).
    set (it := roundrobin.mkPqItem (length ca) expiryTime).
    set (cs0 := default [] (m !! h)).
    set (cm := roundrobin.mkCursorMap m pq ca ia) in *.
    set (cm' := roundrobin.mkCursorMap _ _ _ _).
    destruct Hwf as [Hqnd Hq Hbnd Hb].
    assert (∀ r j, slot cm r j → slot cm' r j) as Hkeep.
    { intros r j (co' & it' & Hco' & Hj & Hit' & Hr). exists co', it'.
      cbn [roundrobin.cursor_at roundrobin.item_at cm cm'] in *.
      split_and!; try done; by apply lookup_app_l_Some. }
    assert (∀ r h', hash_of cm r = Some h' → hash_of cm' r = Some h') as Hhash.
    { intros r h'. unfold hash_of. cbn [roundrobin.cursor_at cm cm'].
      destruct (ca !! r) as [co'|] eqn:Hco'; [|done].
      by rewrite (lookup_app_l_Some _ _ _ _ Hco'). }
    assert (∀ h' r, in_bucket cm h' r → in_bucket cm' h' r) as Hin_keep.
    { intros h' r (cs & Hcs & Hr). cbn [roundrobin.cursors cm] in Hcs.
      unfold in_bucket. cbn [roundrobin.cursors cm'].
      destruct (decide (h' = h)) as [->|Hne].
      - rewrite lookup_insert_eq. eexists. split; [done|].
        unfold cs0. rewrite Hcs. simpl. apply elem_of_app. by left.
      - rewrite lookup_insert_ne by done. eauto. }
    assert (∀ h' r, in_bucket cm' h' r →
                    in_bucket cm h' r ∨ (h' = h ∧ r = length ca)) as Hin_inv.
    { intros h' r (cs & Hcs & Hr). cbn [roundrobin.cursors cm'] in Hcs.
      destruct (decide (h' = h)) as [->|Hne].
      - rewrite lookup_insert_eq in Hcs. inversion Hcs; subst cs.
        apply elem_of_app in Hr as [Hr|Hr].
        + left. unfold cs0 in Hr. unfold in_bucket. cbn [roundrobin.cursors cm].
          destruct (m !! h) as [cs|]; [eauto|]. by apply elem_of_nil in Hr.
        + right. by apply list_elem_of_singleton in Hr.
      - rewrite lookup_insert_ne in Hcs by done. left. by exists cs. }
    assert (∀ h' r, in_bucket cm h' r → r < length ca) as Hold_cursor.
    { intros h' r Hr. destruct (Hb h' r Hr) as [Hh _]. unfold hash_of in Hh.
      cbn [roundrobin.cursor_at cm] in Hh.
      destruct (ca !! r) eqn:Hr'; [|done]. by eapply lookup_lt_Some. }
    assert (∀ j, j ∈ pq → j < length ia) as Hold_item.
    { intros j Hj. destruct (Hq j Hj) as (r & h' & (co' & it' & _ & _ & Hit' & _) & _).
      by eapply lookup_lt_Some. }
    assert (slot cm' (length ca) (length ia)) as Hnew.
    { exists co, it. cbn [roundrobin.cursor_at roundrobin.item_at cm'].
      by rewrite !lookup_snoc_new. }
    assert (hash_of cm' (length ca) = Some h) as Hnew_hash.
    { unfold hash_of. cbn [roundrobin.cursor_at cm']. by rewrite lookup_snoc_new. }
    assert (in_bucket cm' h (length ca)) as Hnew_in.
    { unfold in_bucket. cbn [roundrobin.cursors cm']. rewrite lookup_insert_eq.
      eexists. split; [done|]. apply elem_of_app. right. apply list_elem_of_here. }
    split.
    + cbn [roundrobin.expiryTimes cm']. apply NoDup_app. split; [done|]. split.
      * intros j Hj Hj'. apply list_elem_of_singleton in Hj' as ->.
        specialize (Hold_item _ Hj). lia.
      * apply NoDup_singleton.
    + intros j Hj. cbn [roundrobin.expiryTimes cm'] in Hj.
      apply elem_of_app in Hj as [Hj|Hj];
        [|apply list_elem_of_singleton in Hj as ->].
      * destruct (Hq j Hj) as (r & h' & Hs & Hh & Hin). exists r, h'. auto.
      * exists (length ca), h. auto.
    + intros h' cs Hcs. cbn [roundrobin.cursors cm'] in Hcs.
      destruct (decide (h' = h)) as [->|Hne].
      * rewrite lookup_insert_eq in Hcs. inversion Hcs; subst cs.
        apply NoDup_app. split.
        { unfold cs0. destruct (m !! h) as [cs|] eqn:Hm; [by eapply Hbnd|constructor]. }
        split; [|apply NoDup_singleton].
        intros r Hr Hr'. apply list_elem_of_singleton in Hr' as ->.
        assert (in_bucket cm h (length ca)) as Hold.
        { unfold cs0 in Hr. unfold in_bucket. cbn [roundrobin.cursors cm].
          destruct (m !! h) as [cs|]; [eauto|]. by apply elem_of_nil in Hr. }
        specialize (Hold_cursor _ _ Hold). lia.
      * rewrite lookup_insert_ne in Hcs by done. by eapply Hbnd.
    + intros h' r Hr. destruct (Hin_inv h' r Hr) as [Hold|[-> ->]].
      * destruct (Hb h' r Hold) as (Hh & j & Hs & Hj). split; [auto|].
        exists j. split; [auto|]. cbn [roundrobin.expiryTimes cm'].
        apply elem_of_app. by left.
      * split; [done|]. exists (length ia). split; [done|].
        cbn [roundrobin.expiryTimes cm']. apply elem_of_app. right.
        apply list_elem_of_here.
Qed.

(** Tables built by [upsertCursor] hold one cursor per bucket:
    [getCursor] answers with the only cursor of a bucket, so [addCursor]
    only ever runs on a hash that has no bucket yet. *)
Lemma newCursorMap_single_buckets : single_buckets roundrobin.newCursorMap.
Proof.
  intros h cs. unfold roundrobin.newCursorMap. cbn [roundrobin.cursors].
  by rewrite lookup_empty.
Qed.

Lemma upsertCursor_single_buckets cm endpoints expiryTime c cm' :
  single_buckets cm →
  roundrobin.upsertCursor endpoints expiryTime cm = Some (c, cm') →
  single_buckets cm'.
Proof.
  rewrite upsertCursor_run. intros Hone. destruct cm as [m pq ca ia].
  unfold upsert, find_cursor.
  destruct (m !! roundrobin.computeHash endpoints) as [cs|] eqn:Hcs.
  - pose proof (Hone _ _ Hcs) as Hl. destruct cs as [|c0 [|? ?]]; try done.
    cbn [length Nat.eqb lookup list_lookup].
    destruct (ca !! c0) as [co|]; cbn [mbind option_bind]; [|done].
    destruct (roundrobin.item co) as [i|]; cbn [mbind option_bind]; [|done].
    destruct (ia !! i) as [it|]; cbn [mbind option_bind]; [|done].
    intros [= <- <-]. exact Hone.
  - cbv zeta. intros [= <- <-]. intros h' cs'. cbn [roundrobin.cursors default].
    destruct (decide (h' = roundrobin.computeHash endpoints)) as [->|Hne].
    + rewrite lookup_insert_eq. by intros [= <-].
    + rewrite lookup_insert_ne by done. apply Hone.
Qed.

(** [deleteExpiredCursors] leaves a well-formed table well-formed. *)
Lemma deleteExpiredCursors_wf now cm :
  cursorMap_wf cm →
  ∃ cm', roundrobin.deleteExpiredCursors now cm = Some (tt, cm') ∧ cursorMap_wf cm'.
Proof.
  intros Hwf.
  destruct (deleteExpiredCursors_loop_run now (length (roundrobin.expiryTimes cm))
              cm Hwf (Nat.le_refl _)) as (cm' & Hrun & Hwf' & _).
  by exists cm'.
Qed.

(** Header names as Go canonicalises them. *)
Example canonical_te : textproto.CanonicalMIMEHeaderKey "TE" = "Te".
Proof. reflexivity. Qed.

Example canonical_keep_alive :
  textproto.CanonicalMIMEHeaderKey "keep-alive" = "Keep-Alive".
Proof. reflexivity. Qed.

Example canonical_invalid :
  textproto.CanonicalMIMEHeaderKey "x forwarded" = "x forwarded".
Proof. reflexivity. Qed.

(** * Further properties of the code *)

(** ** Settings validation (proxy.go) *)


Section settings_outcome.

Context {Backend : Type}.
Implicit Types s : vulcan.ProxySettings Backend.

(** X1: [validateProxySettings] returns no error exactly for settings that are
    not nil, name at least one control server and carry a throttler backend
    and a load balancer; it returns settings exactly when it returns no
    error. *)
Theorem validateProxySettings_error_iff (s : option (vulcan.ProxySettings Backend)) :
  (snd (vulcan.validateProxySettings s) = None ↔ ∃ s0, s = Some s0 ∧ accepted s0) ∧
  (fst (vulcan.validateProxySettings s) = None
   ↔ snd (vulcan.validateProxySettings s) ≠ None).
Proof.
  destruct s as [s|]; simpl.
  - unfold accepted. repeat case_bool_decide; simpl.
    + split; [|done]. split; [done|]. intros (s0 & [= <-] & Hcs & _).
      exfalso. by apply Hcs, nil_length_inv.
    + split; [|done]. split; [done|]. by intros (s0 & [= <-] & _ & ? & _).
    + split; [|done]. split; [done|]. by intros (s0 & [= <-] & _ & _ & ?).
    + split; [|done]. split; [|done]. intros _. exists s. split; [done|].
      split_and!; try done. intros Hnil. by rewrite Hnil in *.
  - split; [|done]. split; [done|]. by intros (s0 & ? & _).
Qed.

(** X2: the settings [validateProxySettings] returns are those it was
    given, but for [HttpReadTimeout], which is the ten-second default when
    it was zero and is kept otherwise (a negative one included); it is never
    zero afterwards, and [HttpDialTimeout] is never changed. *)
Theorem validateProxySettings_returned s s' :
  vulcan.validateProxySettings (Some s) = (Some s', None) →
  vulcan.ControlServers s' = vulcan.ControlServers s ∧
  vulcan.ThrottlerBackend s' = vulcan.ThrottlerBackend s ∧
  vulcan.LoadBalancer_ s' = vulcan.LoadBalancer_ s ∧
  vulcan.HttpDialTimeout s' = vulcan.HttpDialTimeout s ∧
  vulcan.HttpReadTimeout s'
  = (if (vulcan.HttpReadTimeout s =? 0)%Z then vulcan.DefaultHttpReadTimeout
     else vulcan.HttpReadTimeout s) ∧
  vulcan.HttpReadTimeout s' ≠ 0%Z.
Proof.
  unfold vulcan.validateProxySettings. intros H.
  repeat case_bool_decide; try discriminate.
  destruct (vulcan.HttpReadTimeout s =? 0)%Z eqn:Hz; simpl in H.
  - inversion H; subst s'. simpl. done.
  - rewrite Hz in H. inversion H; subst s'. split_and!; try done.
    by apply Z.eqb_neq.
Qed.

End settings_outcome.

(** Witness of X2: settings with a read timeout of -1 ns and no dial
    timeout come back unchanged. *)
Lemma validateProxySettings_returned_witness :
  vulcan.validateProxySettings (Some negative_timeout_settings)
  = (Some negative_timeout_settings, None) ∧
  vulcan.HttpReadTimeout negative_timeout_settings = (-1)%Z ∧
  vulcan.HttpDialTimeout negative_timeout_settings = 0%Z.
Proof.
  assert (vulcan.validateProxySettings (Some negative_timeout_settings)
          = (Some negative_timeout_settings, None)) as Hrun by reflexivity.
  split; [exact Hrun|].
  destruct (validateProxySettings_returned _ _ Hrun) as (_ & _ & _ & Hd & Hr & _).
  split; [exact Hr | exact Hd].
Defined.

(** ** The client's side of forwarding (proxy.go) *)

Section forwarding_outcome.

Variable p : vulcan.ReverseProxy.

(** X3: with an empty upstream list [proxyRequest] panics on [upstreams[0]]
    when failover is off; with failover on and a readable body it returns a
    502 [HttpError], sends nothing and writes nothing to the client. *)
Theorem proxyRequest_no_upstreams req w b :
  http.bodies w !! http.Body req = Some b →
  vulcan.proxyRequest p false req [] w = None ∧
  ∀ buffer b', io.ReadAll b = (buffer, false, b') →
    ∃ w',
      vulcan.proxyRequest p true req [] w
      = Some ((None, Some (vulcan.HttpErr (vulcan.NewHttpError 502))), w') ∧
      http.wire w' = http.wire w ∧ http.client w' = http.client w.
Proof.
  intros Hb. split; [done|]. intros buffer b' Hread.
  unfold vulcan.proxyRequest. cbn [negb].
  erewrite bind_run;
    [| apply (deref_run (λ w, http.bodies w !! http.Body req)); exact Hb].
  cbv beta iota zeta. rewrite Hread.
  rewrite bind_modify, bind_gets, bind_modify.
  eexists. split; [reflexivity|]. by destruct w.
Qed.

(** What the client has received after a failover loop. *)
Lemma proxyRequest_loop_client req reader buffer upstreams :
  http.Body req = reader →
  ∀ us hs bs cl x u reqHeader i,
    us !! http.URL req = Some u →
    header_of (http.Header req) hs = Some reqHeader →
    bs !! reader = Some (io.Buffer buffer i) →
    ∃ res w',
      vulcan.proxyRequest_loop p req reader upstreams (http.mkWorld us hs bs cl x)
      = Some (res, w') ∧
      match snd res with
      | Some _ => http.client w' = cl
      | None =>
          ∃ y r, last (http.wire w') = Some y ∧ http.xResult y = Some r ∧
                 http.client w' = mirrored cl (Some r)
      end.
Proof.
  intros Hreader.
  induction upstreams as [|upstream rest IH]; intros us hs bs cl x u reqHeader i Hu Hh Hb.
  - eexists _, _. split; [reflexivity|]. done.
  - cbn [vulcan.proxyRequest_loop].
    erewrite bind_run;
      [| apply (deref_run (λ w, http.bodies w !! reader)); exact Hb].
    cbv beta iota zeta.
    assert (io.Seek 0 0 (io.Buffer buffer i) = (Some 0%Z, io.Buffer buffer 0)) as ->
      by reflexivity.
    rewrite bind_modify. cbn [http.set_bodies http.urls http.headers http.bodies
                               http.client http.wire].
    assert (<[reader := io.Buffer buffer 0]> bs !! http.Body req
            = Some (io.Buffer buffer 0)) as Hb'.
    { rewrite Hreader. by eapply lookup_insert_same. }
    destruct (proxyToUpstream_run p req upstream us hs _ cl x u reqHeader _ Hu Hh Hb')
      as (res & n & hs' & reqHeader' & Hrt & Hrun & Hh').
    rewrite (bind_run _ _ _ _ _ Hrun).
    destruct res as [r|]; cbn [forward_error].
    + eexists _, _. split; [reflexivity|]. cbn [snd http.client http.wire].
      eexists _, r. rewrite last_snoc. done.
    + rewrite Hreader, list_insert_insert_eq.
      edestruct (IH (<[http.URL req:=proxy_outbound_url upstream u]> us) hs'
                    (<[reader:=io.advance n (io.Buffer buffer 0)]> bs)
                    (mirrored cl None))
        as (res & w' & Hloop & Hclient).
      { by eapply lookup_insert_same. }
      { exact Hh'. }
      { simpl. by eapply lookup_insert_same. }
      exists res, w'. split; [exact Hloop|]. exact Hclient.
Qed.

(** X4: whenever [proxyRequest] returns an error, nothing has been written
    to the client; when it returns without one, the client has received
    exactly the response of the last exchange on the wire (its headers
    copied, its status written once, its body appended). *)
Theorem proxyRequest_client_outcome failover req upstreams w b res w' :
  request_allocated req w →
  http.bodies w !! http.Body req = Some b →
  vulcan.proxyRequest p failover req upstreams w = Some (res, w') →
  match snd res with
  | Some _ => http.client w' = http.client w
  | None =>
      ∃ y r, last (http.wire w') = Some y ∧ http.xResult y = Some r ∧
             http.client w' = mirrored (http.client w) (Some r)
  end.
Proof.
  intros [[u Hu] [reqHeader Hh]] Hb.
  destruct w as [us hs bs cl x]; simpl in *.
  unfold vulcan.proxyRequest. destruct failover; cbn [negb].
  - erewrite bind_run;
      [| apply (deref_run (λ w, http.bodies w !! http.Body req)); exact Hb].
    cbv beta iota zeta. destruct (io.ReadAll b) as [[buffer failed] b'].
    rewrite bind_modify.
    cbn [http.set_bodies http.urls http.headers http.bodies http.client http.wire].
    destruct failed.
    + by intros [= <- <-].
    + rewrite bind_gets, bind_modify.
      cbn [http.set_bodies http.urls http.headers http.bodies http.client http.wire].
      edestruct (proxyRequest_loop_client
                   (http.with_Body (length (<[http.Body req:=b']> bs)) req)
                   (length (<[http.Body req:=b']> bs)) buffer upstreams eq_refl
                   us hs (<[http.Body req:=b']> bs ++ [io.Buffer buffer 0]) cl x u
                   reqHeader 0%Z) as (res0 & w0 & Hrun & Hcl); [done | done | |].
      { apply lookup_snoc_new. }
      unfold http.set_bodies.
      cbn [http.urls http.headers http.bodies http.client http.wire].
      rewrite Hrun. by intros [= <- <-].
  - destruct upstreams as [|first rest]; [done|].
    destruct (proxyToUpstream_run p req first us hs bs cl x u reqHeader b Hu Hh Hb)
      as (r & n & hs' & reqHeader' & Hrt & Hrun & Hh').
    rewrite (bind_run _ _ _ _ _ Hrun). intros [= <- <-].
    destruct r as [r|]; cbn [forward_error snd http.client http.wire mirrored]; [|done].
    eexists _, r. by rewrite last_snoc.
Qed.

End forwarding_outcome.

(** Witness of X3: the sample request with no upstream at all. *)
Lemma proxyRequest_no_upstreams_witness :
  vulcan.proxyRequest sample_proxy false sample_request [] sample_world = None ∧
  ∃ w',
    vulcan.proxyRequest sample_proxy true sample_request [] sample_world
    = Some ((None, Some (vulcan.HttpErr (vulcan.NewHttpError 502))), w') ∧
    http.wire w' = [] ∧ http.client w' = http.client sample_world.
Proof.
  destruct (proxyRequest_no_upstreams sample_proxy sample_request sample_world
              (io.NetBody (sample_bytes "hello") false) eq_refl) as [Hpanic Hfail].
  split; [exact Hpanic|].
  exact (Hfail (sample_bytes "hello") (io.NetBody [] false) eq_refl).
Defined.

(** Witness of X4: after the failover from [upstream_a] to
    [upstream_b] the client holds the answer of [upstream_b]. *)
Lemma proxyRequest_client_outcome_witness :
  ∃ w', vulcan.proxyRequest sample_proxy true sample_request
          [upstream_a; upstream_b] sample_world
        = Some ((Some upstream_b, None), w') ∧
        ∃ y r, last (http.wire w') = Some y ∧ http.xResult y = Some r ∧
               http.client w' = mirrored (http.client sample_world) (Some r).
Proof.
  destruct proxyRequest_fails_over as (w' & Hrun & _).
  exists w'. split; [exact Hrun|].
  exact (proxyRequest_client_outcome sample_proxy true sample_request
           [upstream_a; upstream_b] sample_world
           (io.NetBody (sample_bytes "hello") false) _ w'
           sample_request_allocated eq_refl Hrun).
Defined.

(** ** Error replies, rewriting and location options *)


(** X5: [replyError] answers an [HttpError] with its own status code and
    any other error with 500; it sets [Content-Type] to [application/json]
    (replacing what was there, leaving the other headers), reads the
    request body to its end and touches nothing else. *)
Theorem replyError_outcome (Body : vulcan.HttpError → list Byte.byte) err req w b :
  http.bodies w !! http.Body req = Some b →
  ∃ w' b',
    vulcan.replyError Body err req w = Some (tt, w') ∧
    http.wStatus (http.client w')
    = http.wStatus (http.client w)
      ++ [match err with
          | vulcan.HttpErr e => vulcan.StatusCode e
          | vulcan.OtherErr _ => 500%Z
          end] ∧
    http.wHeader (http.client w') !! "Content-Type" = Some ["application/json"] ∧
    (∀ k, k ≠ "Content-Type" →
          http.wHeader (http.client w') !! k = http.wHeader (http.client w) !! k) ∧
    http.bodies w' !! http.Body req = Some b' ∧ io.remaining b' = [] ∧
    http.wire w' = http.wire w ∧ http.urls w' = http.urls w ∧
    http.headers w' = http.headers w.
Proof.
  intros Hb. destruct w as [us hs bs cl x]; simpl in *.
  unfold vulcan.replyError. cbv zeta.
  erewrite bind_run;
    [| apply (deref_run (λ w, http.bodies w !! http.Body req)); exact Hb].
  cbv beta. rewrite bind_modify.
  eexists _, (snd (io.ReadAll b)). split; [reflexivity|].
  cbn [http.set_bodies http.set_client http.urls http.headers http.bodies
       http.client http.wire http.wStatus http.wHeader].
  split_and!; try done.
  - by destruct err.
  - apply lookup_insert_eq.
  - intros k Hk. unfold textproto.Set_. by rewrite lookup_insert_ne.
  - by eapply lookup_insert_same.
  - destruct b as [data failing|s i]; simpl; [done|].
    rewrite Nat2Z.id. apply drop_all.
Qed.

(** Witness of X5: an error that is no [HttpError] is answered with 500. *)
Lemma replyError_outcome_witness :
  ∃ w',
    vulcan.replyError (λ _, sample_bytes "{}") (vulcan.OtherErr "backend down")
      sample_request sample_world = Some (tt, w') ∧
    http.wStatus (http.client w') = [500%Z] ∧
    http.wHeader (http.client w') !! "Content-Type" = Some ["application/json"].
Proof.
  destruct (replyError_outcome (λ _, sample_bytes "{}") (vulcan.OtherErr "backend down")
              sample_request sample_world (io.NetBody (sample_bytes "hello") false)
              eq_refl) as (w' & b' & Hrun & Hst & Hct & _).
  exists w'. split; [exact Hrun|]. split; [exact Hst | exact Hct].
Defined.

(** X6: both rewritings return the inbound request with [Proto] set to
    HTTP/1.1 and [Close] to false and, at most, another header map; of the
    URLs only the one the request points to changes, its query is kept (and
    with the location-level rewriting its path as well); bodies, client and
    wire are left alone. *)
Theorem rewriteRequest_frame req w :
  request_allocated req w →
  (∀ upstream, ∃ outReq w' u,
     vulcan.rewriteRequest upstream req w = Some (outReq, w') ∧
     http.with_Header (http.Header req) outReq
     = http.with_Close false (http.with_Proto "HTTP/1.1" 1 1 req) ∧
     http.urls w !! http.URL req = Some u ∧
     http.urls w'
     = <[http.URL req := url.mkURL (url.Scheme (vulcan.Url upstream))
                           (url.Host (vulcan.Url upstream))
                           (url.Path (vulcan.Url upstream)) (url.RawQuery u)]>
         (http.urls w) ∧
     http.bodies w' = http.bodies w ∧ http.client w' = http.client w ∧
     http.wire w' = http.wire w) ∧
  (∀ split l endpoint, ∃ outReq w' u,
     httploc.rewriteRequest split l req endpoint w = Some (outReq, w') ∧
     http.with_Header (http.Header req) outReq
     = http.with_Close false (http.with_Proto "HTTP/1.1" 1 1 req) ∧
     http.urls w !! http.URL req = Some u ∧
     http.urls w'
     = <[http.URL req := url.mkURL (url.Scheme (loadbalance.GetUrl endpoint))
                           (url.Host (loadbalance.GetUrl endpoint))
                           (url.Path u) (url.RawQuery u)]>
         (http.urls w) ∧
     http.bodies w' = http.bodies w ∧ http.client w' = http.client w ∧
     http.wire w' = http.wire w).
Proof.
  intros [[u Hu] [reqHeader Hh]]. destruct w as [us hs bs cl x]; simpl in *. split.
  - intros upstream. destruct (proxy_copies_headers upstream reqHeader) eqn:Hc.
    + eexists _, _, u.
      split; [by apply proxy_rewriteRequest_run_fresh|]. by destruct req.
    + eexists _, _, u.
      split; [by apply proxy_rewriteRequest_run_shared|]. by destruct req.
  - intros split l endpoint. eexists _, _, u.
    split; [by apply location_rewriteRequest_run|]. by destruct req.
Qed.

(** Witness of X6: the sample request toward [endpoint_a] keeps its
    method, body, path and query. *)
Lemma rewriteRequest_frame_witness :
  ∃ outReq w',
    httploc.rewriteRequest sample_SplitHostPort sample_location sample_request
      endpoint_a sample_world = Some (outReq, w') ∧
    http.Method outReq = "POST" ∧ http.Body outReq = http.Body sample_request ∧
    http.urls w' = [url.mkURL "http" "a.internal:8080" "/v1/items" "page=2"] ∧
    http.bodies w' = http.bodies sample_world.
Proof.
  destruct (rewriteRequest_frame sample_request sample_world sample_request_allocated)
    as [_ Hloc].
  destruct (Hloc sample_SplitHostPort sample_location endpoint_a)
    as (outReq & w' & u & Hrun & Hreq & Hu & Hurls & Hbodies & _).
  exists outReq, w'. split; [exact Hrun|].
  split; [exact (f_equal http.Method Hreq)|].
  split; [exact (f_equal http.Body Hreq)|].
  split; [|exact Hbodies].
  rewrite Hurls. injection Hu as <-. reflexivity.
Defined.

(** ** Header copies *)









Section location_headers.

Variable split : string → option (string * string).
Variables (l : httploc.HttpLocation) (req : http.Request)
          (endpoint : loadbalance.Endpoint).




End location_headers.






(** ** Location options *)

(** One assignment of a straight-line function body. *)
Ltac let_step :=
  lazymatch goal with
  | |- (let x := ?e in @?f x) = ?r => change (f e = r)
  end;
  cbv beta iota delta [httploc.Timeouts httploc.Read httploc.Dial httploc.ShouldFailover
                       httploc.Hostname httploc.TrustForwardHeader httploc.TimeProvider_
                       fst snd].

(** [parseOptions], field by field. *)
Lemma parseOptions_fields os_Hostname o :
  httploc.parseOptions os_Hostname o
  = (httploc.mkOptions
       (httploc.mkTimeouts
          (if bool_decide (httploc.Read (httploc.Timeouts o) ≤ 0)%Z
           then httploc.DefaultHttpReadTimeout else httploc.Read (httploc.Timeouts o))
          (if bool_decide (httploc.Dial (httploc.Timeouts o) ≤ 0)%Z
           then httploc.DefaultHttpDialTimeout else httploc.Dial (httploc.Timeouts o)))
       (Some (default (failover.And [failover.MaxAttempts 2; failover.OnErrors;
                                      failover.OnGets])
                      (httploc.ShouldFailover o)))
       (if String.eqb (httploc.Hostname o) "" && bool_decide (snd os_Hostname ≠ None)
        then fst os_Hostname else httploc.Hostname o)
       (httploc.TrustForwardHeader o)
       (Some (default httploc.RealTime (httploc.TimeProvider_ o))),
     None).
Proof.
  destruct o as [[rd dl] sf hn tr tp], os_Hostname as [h err].
  cbv beta delta [httploc.parseOptions].
  cbv beta iota delta [httploc.Timeouts httploc.Read httploc.Dial httploc.ShouldFailover
                       httploc.Hostname httploc.TrustForwardHeader httploc.TimeProvider_
                       fst snd].
  destruct (bool_decide (rd ≤ 0)%Z); let_step.
  all: destruct (bool_decide (dl ≤ 0)%Z); let_step.
  all: destruct (String.eqb hn ""); destruct (bool_decide (err ≠ None)); let_step.
  all: destruct tp; let_step.
  all: by destruct sf.
Qed.

(** X10: [parseOptions] never fails; a timeout that is zero or negative
    becomes the ten-second default and a positive one is kept, so both are
    positive afterwards; a missing time provider becomes the real clock and
    a missing failover predicate the default one, supplied ones are kept;
    [TrustForwardHeader] and a non-empty [Hostname] are kept. *)
Theorem parseOptions_normalises os_Hostname o :
  let o' := fst (httploc.parseOptions os_Hostname o) in
  snd (httploc.parseOptions os_Hostname o) = None ∧
  httploc.Read (httploc.Timeouts o')
  = (if bool_decide (httploc.Read (httploc.Timeouts o) ≤ 0)%Z
     then httploc.DefaultHttpReadTimeout else httploc.Read (httploc.Timeouts o)) ∧
  httploc.Dial (httploc.Timeouts o')
  = (if bool_decide (httploc.Dial (httploc.Timeouts o) ≤ 0)%Z
     then httploc.DefaultHttpDialTimeout else httploc.Dial (httploc.Timeouts o)) ∧
  (0 < httploc.Read (httploc.Timeouts o'))%Z ∧
  (0 < httploc.Dial (httploc.Timeouts o'))%Z ∧
  httploc.TimeProvider_ o'
  = Some (default httploc.RealTime (httploc.TimeProvider_ o)) ∧
  httploc.ShouldFailover o'
  = Some (default (failover.And [failover.MaxAttempts 2; failover.OnErrors;
                                  failover.OnGets])
                  (httploc.ShouldFailover o)) ∧
  httploc.TrustForwardHeader o' = httploc.TrustForwardHeader o ∧
  (httploc.Hostname o ≠ "" → httploc.Hostname o' = httploc.Hostname o).
Proof.
  rewrite parseOptions_fields. cbv zeta.
  cbn [fst snd httploc.Timeouts httploc.Read httploc.Dial httploc.ShouldFailover
       httploc.Hostname httploc.TrustForwardHeader httploc.TimeProvider_].
  split_and!; try done.
  - case_bool_decide; [by vm_compute | lia].
  - case_bool_decide; [by vm_compute | lia].
  - intros Hne. apply String.eqb_neq in Hne. by rewrite Hne.
Qed.

(** X11: parsing options that [parseOptions] returned changes nothing. *)
Theorem parseOptions_idempotent os_Hostname o :
  httploc.parseOptions os_Hostname (fst (httploc.parseOptions os_Hostname o))
  = httploc.parseOptions os_Hostname o.
Proof.
  rewrite (parseOptions_fields os_Hostname (fst _)).
  rewrite (parseOptions_fields os_Hostname o).
  cbn [fst snd httploc.Timeouts httploc.Read httploc.Dial httploc.ShouldFailover
       httploc.Hostname httploc.TrustForwardHeader httploc.TimeProvider_ default].
  assert (bool_decide (httploc.DefaultHttpReadTimeout ≤ 0)%Z = false) as Hr by done.
  assert (bool_decide (httploc.DefaultHttpDialTimeout ≤ 0)%Z = false) as Hd by done.
  f_equal. f_equal; [f_equal|].
  - destruct (bool_decide (httploc.Read _ ≤ 0)%Z) eqn:Hrd; by rewrite ?Hr, ?Hrd.
  - destruct (bool_decide (httploc.Dial _ ≤ 0)%Z) eqn:Hdl; by rewrite ?Hd, ?Hdl.
  - destruct (String.eqb (httploc.Hostname o) "") eqn:Hhn,
      (bool_decide (snd os_Hostname ≠ None)) eqn:Herr;
      cbn [andb]; rewrite ?Hhn, ?Herr; cbn [andb]; try done.
    by destruct (String.eqb (fst os_Hostname) "").
Qed.

(** ** The attempts of a failover run (proxy.go) *)



Section attempts.

Variable p : vulcan.ReverseProxy.




End attempts.



(** ** The FSM handler: weights and backoff *)

(** X12: [decrease] undoes [increase]: for a weight [w] that [increase]
    multiplies without overflow, [decrease target (increase w)] is [w], or
    [target] when that is larger. *)
Theorem decrease_undoes_increase target w :
  (0 ≤ w)%Z → (w * roundrobin.FSMGrowFactor < 2 ^ 63)%Z →
  roundrobin.decrease target (roundrobin.increase w) = Z.max target w.
Proof.
  unfold roundrobin.decrease, roundrobin.increase, roundrobin.FSMGrowFactor, wrap64.
  intros Hw Hmax. cbv zeta.
  replace ((w * 16 + 2 ^ 63) `mod` 2 ^ 64 - 2 ^ 63)%Z with (w * 16)%Z.
  2:{ rewrite Z.mod_small; lia. }
  rewrite Z.quot_mul by lia.
  destruct (w <? target)%Z eqn:Hlt.
  - apply Z.ltb_lt in Hlt. lia.
  - apply Z.ltb_ge in Hlt. lia.
Qed.

(** Witness of X12: weight 4 with target 1. *)
Lemma decrease_undoes_increase_witness :
  roundrobin.decrease 1 (roundrobin.increase 4) = 4%Z.
Proof. apply (decrease_undoes_increase 1 4); [lia | by vm_compute]. Defined.

Section weights.

Local Open Scope Z_scope.

Variable gcd : Z → Z → Z.
Hypothesis gcd_nonneg : ∀ a b, 0 ≤ gcd a b.
Hypothesis gcd_divide : ∀ a b, (gcd a b | a) ∧ (gcd a b | b).

Lemma weightsGcd_divides ws :
  Forall (λ w, 0 ≤ roundrobin.Weight w) ws →
  Forall (λ w, (roundrobin.weightsGcd gcd ws | roundrobin.Weight w)) ws.
Proof using gcd_nonneg gcd_divide.
  unfold roundrobin.weightsGcd.
  assert (∀ ws d, 0 ≤ d →
            (foldl (λ divisor w, if divisor =? -1 then roundrobin.Weight w
                                 else gcd divisor (roundrobin.Weight w)) d ws | d) ∧
            Forall (λ w, (foldl (λ divisor w, if divisor =? -1 then roundrobin.Weight w
                                              else gcd divisor (roundrobin.Weight w)) d ws
                          | roundrobin.Weight w)) ws) as Hfold.
  { clear ws. induction ws as [|w ws IH]; intros d Hd; simpl.
    - split; [done | constructor].
    - assert ((d =? -1) = false) as -> by (apply Z.eqb_neq; lia).
      destruct (IH (gcd d (roundrobin.Weight w)) (gcd_nonneg _ _)) as [Hdiv Hall].
      destruct (gcd_divide d (roundrobin.Weight w)) as [Hl Hr].
      split; [by etrans|]. constructor; [by etrans | done]. }
  intros Hws. destruct ws as [|w ws]; [constructor|]. simpl.
  apply Forall_cons in Hws as [Hw Hws].
  destruct (Hfold ws (roundrobin.Weight w) Hw) as [Hdiv Hall].
  by constructor.
Qed.

(** X13: for a [gcd] that is non-negative and divides both its arguments,
    [normalizeWeights] divides every weight of a list of non-negative
    weights by one common factor of at least 1 and keeps the endpoints: the
    proportions between the weights are unchanged. *)
Theorem normalizeWeights_common_factor ws :
  Forall (λ w, 0 ≤ roundrobin.Weight w) ws →
  ∃ g, 1 ≤ g ∧
       ws = map (λ w, roundrobin.mkEndpointWeight (roundrobin.Endpoint w)
                        (g * roundrobin.Weight w))
                (roundrobin.normalizeWeights gcd ws).
Proof using gcd_nonneg gcd_divide.
  intros Hws. unfold roundrobin.normalizeWeights. cbv zeta.
  pose proof (weightsGcd_divides ws Hws) as Hdiv.
  destruct (roundrobin.weightsGcd gcd ws <=? 1) eqn:Hg.
  - exists 1. split; [lia|]. rewrite <- (map_id ws) at 1. apply map_ext.
    intros [e w]. simpl. f_equal. lia.
  - apply Z.leb_gt in Hg. exists (roundrobin.weightsGcd gcd ws). split; [lia|].
    rewrite map_map. rewrite <- (map_id ws) at 1.
    apply map_ext_Forall. eapply Forall_impl; [exact Hdiv|].
    intros [e w] [q Hq]. simpl in *. f_equal. subst w.
    rewrite Z.quot_mul by lia. lia.
Qed.

End weights.

(** Witness of X13: weights 16 and 4 with [Z.gcd]. *)
Lemma normalizeWeights_common_factor_witness :
  ∃ g, (1 ≤ g)%Z ∧
       [roundrobin.mkEndpointWeight 0 16; roundrobin.mkEndpointWeight 1 4]
       = map (λ w, roundrobin.mkEndpointWeight (roundrobin.Endpoint w)
                     (g * roundrobin.Weight w)%Z)
             (roundrobin.normalizeWeights Z.gcd
                [roundrobin.mkEndpointWeight 0 16; roundrobin.mkEndpointWeight 1 4]).
Proof.
  apply (normalizeWeights_common_factor Z.gcd Z.gcd_nonneg).
  - intros a b. split; [apply Z.gcd_divide_l | apply Z.gcd_divide_r].
  - repeat constructor; simpl; lia.
Defined.

Section fsm_lists.

Local Open Scope Z_scope.

Variable gcd : Z → Z → Z.

Lemma normalizeWeights_endpoints ws :
  map roundrobin.Endpoint (roundrobin.normalizeWeights gcd ws)
  = map roundrobin.Endpoint ws.
Proof.
  unfold roundrobin.normalizeWeights. cbv zeta.
  destruct (_ <=? 1); [done|]. by rewrite map_map.
Qed.

(** The lists the handler stores name its endpoints, in order. *)
Lemma AdjustWeights_aligned e fsm :
  map roundrobin.Endpoint (roundrobin.originalWeights fsm) = roundrobin.endpoints fsm →
  map roundrobin.Endpoint (roundrobin.lastWeights fsm) = roundrobin.endpoints fsm →
  let '(ws, fsm') := roundrobin.AdjustWeights gcd e fsm in
  map roundrobin.Endpoint ws = roundrobin.endpoints fsm ∧
  roundrobin.endpoints fsm' = roundrobin.endpoints fsm ∧
  map roundrobin.Endpoint (roundrobin.originalWeights fsm') = roundrobin.endpoints fsm ∧
  map roundrobin.Endpoint (roundrobin.lastWeights fsm') = roundrobin.endpoints fsm.
Proof.
  intros Ho Hl. unfold roundrobin.AdjustWeights.
  case_bool_decide; [done|].
  destruct (negb (roundrobin.metricsReady _ _)); [done|].
  destruct (negb (roundrobin.timerExpired _ _)); [done|].
  destruct (roundrobin.splitEndpoints _ _) as [good bad].
  destruct (bool_decide _ || bool_decide _).
  - unfold roundrobin.convergeWeights. cbv zeta.
    assert (map roundrobin.Endpoint
              (roundrobin.normalizeWeights gcd
                 (map (λ l, roundrobin.mkEndpointWeight l
                              (roundrobin.decrease
                                 (roundrobin.GetOriginalWeight (roundrobin.at_ e l))
                                 (roundrobin.GetEffectiveWeight (roundrobin.at_ e l))))
                      (roundrobin.endpoints fsm)))
            = roundrobin.endpoints fsm) as Hc.
    { rewrite normalizeWeights_endpoints, map_map. apply map_id. }
    by destruct (existsb _ _).
  - cbn. split_and!; try done.
    all: unfold roundrobin.adjustWeights; rewrite normalizeWeights_endpoints, map_map.
    all: rewrite <- (map_id (roundrobin.endpoints fsm)) at 2; apply map_ext.
    all: intros l; by destruct (bool_decide _ && _).
Qed.

Lemma published_aligned_from fsm calls :
  map roundrobin.Endpoint (roundrobin.originalWeights fsm) = roundrobin.endpoints fsm →
  map roundrobin.Endpoint (roundrobin.lastWeights fsm) = roundrobin.endpoints fsm →
  map (map roundrobin.Endpoint) (roundrobin.published gcd fsm calls)
  = endpoints_at_calls (roundrobin.endpoints fsm) calls.
Proof.
  revert fsm. induction calls as [|[e endpoints|e] rest IH]; intros fsm Ho Hl.
  - done.
  - cbn [roundrobin.published endpoints_at_calls]. rewrite IH; [done| |].
    all: unfold roundrobin.Init, roundrobin.makeOriginalWeights; cbn;
      rewrite map_map; apply map_id.
  - cbn [roundrobin.published endpoints_at_calls].
    pose proof (AdjustWeights_aligned e fsm Ho Hl) as Ha.
    destruct (roundrobin.AdjustWeights gcd e fsm) as [ws fsm'].
    destruct Ha as (Hws & He & Ho' & Hl'). cbn [map]. rewrite Hws. f_equal.
    rewrite <- He. apply IH; by rewrite He.
Qed.

(** X14: over any sequence of [Init] and [AdjustWeights] calls on a new
    handler, every list [AdjustWeights] returns names exactly the endpoints
    the handler holds at that call, one weight for each, in their order. *)
Theorem published_weights_aligned calls :
  map (map roundrobin.Endpoint) (roundrobin.published gcd roundrobin.NewFSMHandler calls)
  = endpoints_at_calls [] calls.
Proof. by apply published_aligned_from. Qed.

Lemma AdjustWeights_cases e fsm :
  snd (roundrobin.AdjustWeights gcd e fsm) = fsm ∨
  (¬ (length (roundrobin.endpoints fsm) < 2)%nat ∧
   ∃ ws, roundrobin.AdjustWeights gcd e fsm
         = (ws, roundrobin.setTimer e (roundrobin.set_lastWeights ws fsm))).
Proof.
  unfold roundrobin.AdjustWeights.
  case_bool_decide as Hlen; [by left|].
  destruct (negb (roundrobin.metricsReady e _)); [by left|].
  destruct (negb (roundrobin.timerExpired e _)); [by left|].
  destruct (roundrobin.splitEndpoints e _) as [good bad].
  destruct (bool_decide _ || bool_decide _).
  - destruct (roundrobin.convergeWeights gcd e fsm) as [weights changed].
    destruct changed; [|by left]. right. split; [done|]. by eexists.
  - right. split; [done|]. by eexists.
Qed.

(** X15: once an [AdjustWeights] call has changed the handler, every call
    made no later than [backoffDuration] after it leaves the handler as it
    is and returns the same weights again (the original weights while the
    metrics are not ready). *)
Theorem AdjustWeights_backoff e e' fsm :
  snd (roundrobin.AdjustWeights gcd e fsm) ≠ fsm →
  roundrobin.UtcNow e' ≤ roundrobin.UtcNow e + roundrobin.backoffDuration fsm →
  roundrobin.AdjustWeights gcd e' (snd (roundrobin.AdjustWeights gcd e fsm))
  = (if roundrobin.metricsReady e' (roundrobin.endpoints fsm)
     then fst (roundrobin.AdjustWeights gcd e fsm)
     else roundrobin.originalWeights fsm,
     snd (roundrobin.AdjustWeights gcd e fsm)).
Proof.
  intros Hchanged Hle.
  destruct (AdjustWeights_cases e fsm) as [Hsame|(Hlen & ws & Hrun)]; [done|].
  rewrite Hrun. cbn [fst snd].
  unfold roundrobin.AdjustWeights. cbn [roundrobin.endpoints roundrobin.setTimer
    roundrobin.set_lastWeights roundrobin.originalWeights roundrobin.lastWeights].
  rewrite bool_decide_eq_false_2 by done.
  destruct (roundrobin.metricsReady e' _); cbn [negb]; [|done].
  unfold roundrobin.timerExpired.
  cbn [roundrobin.timer roundrobin.backoffDuration roundrobin.setTimer
       roundrobin.set_lastWeights].
  assert ((roundrobin.UtcNow e + roundrobin.backoffDuration fsm <? roundrobin.UtcNow e')
          = false) as -> by (apply Z.ltb_ge; lia).
  done.
Qed.

End fsm_lists.

(** Witness of X15: a second call at the same instant on the
    three-endpoint handler. *)
Lemma AdjustWeights_backoff_witness :
  let fsm := roundrobin.Init demo_env [0; 1; 2]%nat roundrobin.NewFSMHandler in
  roundrobin.AdjustWeights Z.gcd demo_env (snd (roundrobin.AdjustWeights Z.gcd demo_env fsm))
  = roundrobin.AdjustWeights Z.gcd demo_env fsm.
Proof.
  apply (AdjustWeights_backoff Z.gcd demo_env demo_env
           (roundrobin.Init demo_env [0; 1; 2]%nat roundrobin.NewFSMHandler)).
  - by vm_compute.
  - by vm_compute.
Defined.

(** ** The cursor table: hashing, walking, deleting, expiring *)

(** ** Hashing and comparing endpoint lists *)

Lemma sum32_Write_app h a b :
  roundrobin.sum32_Write h (a +:+ b) = roundrobin.sum32_Write (roundrobin.sum32_Write h a) b.
Proof.
  unfold roundrobin.sum32_Write.
  assert (String.list_ascii_of_string (a +:+ b)
          = String.list_ascii_of_string a ++ String.list_ascii_of_string b) as ->.
  { induction a as [|ch a IH]; simpl; [done|]. by rewrite IH. }
  apply foldl_app.
Qed.

Lemma lxor_byte_bounded a ch :
  (0 ≤ a < 2 ^ 32)%Z → (0 ≤ Z.lxor a (Z.of_N (N_of_ascii ch)) < 2 ^ 32)%Z.
Proof.
  intros Ha.
  assert (0 ≤ Z.of_N (N_of_ascii ch) < 2 ^ 32)%Z as Hb.
  { pose proof (N_ascii_bounded ch). lia. }
  split; [apply Z.lxor_nonneg; lia|].
  destruct (decide (Z.lxor a (Z.of_N (N_of_ascii ch)) = 0%Z)) as [->|Hne]; [lia|].
  apply Z.log2_lt_pow2; [apply Z.le_neq; split; [apply Z.lxor_nonneg|]; lia|].
  eapply Z.le_lt_trans; [apply Z.log2_lxor; lia|].
  apply Z.max_lub_lt.
  - destruct (decide (a = 0%Z)) as [->|]; [done|]. apply Z.log2_lt_pow2; lia.
  - destruct (decide (Z.of_N (N_of_ascii ch) = 0%Z)) as [->|]; [done|].
    apply Z.log2_lt_pow2; lia.
Qed.

Lemma sum32_Write_bounded h data :
  (0 ≤ h < 2 ^ 32)%Z → (0 ≤ roundrobin.sum32_Write h data < 2 ^ 32)%Z.
Proof.
  unfold roundrobin.sum32_Write. generalize (String.list_ascii_of_string data).
  intros l. revert h. induction l as [|ch l IH]; intros h Hh; simpl; [done|].
  apply IH. apply lxor_byte_bounded. unfold wrap32. apply Z.mod_pos_bound. lia.
Qed.

(** X16: [computeHash] is the FNV-1 hash of the ids written one after the
    other, so it depends on their concatenation only, and it is a 32-bit
    value. *)
Theorem computeHash_concat endpoints :
  roundrobin.computeHash endpoints
  = roundrobin.sum32_Write roundrobin.offset32
      (foldr String.append "" (map loadbalance.Id endpoints)) ∧
  (0 ≤ roundrobin.computeHash endpoints < 2 ^ 32)%Z.
Proof.
  assert (∀ h, foldl (λ h endpoint, roundrobin.sum32_Write h (loadbalance.Id endpoint))
                 h endpoints
               = roundrobin.sum32_Write h
                   (foldr String.append "" (map loadbalance.Id endpoints))) as Heq.
  { induction endpoints as [|e rest IH]; intros h; simpl; [done|].
    by rewrite IH, sum32_Write_app. }
  unfold roundrobin.computeHash. rewrite Heq. split; [done|].
  apply sum32_Write_bounded. by vm_compute.
Qed.

(** X17: [endpointSetsEqual] holds exactly when the two lists have the
    same ids in the same order, and it is the test [sameEndpoints] applies
    to the ids stored in a new cursor. *)
Theorem endpointSetsEqual_ids a b :
  (roundrobin.endpointSetsEqual a b = true
   ↔ map loadbalance.Id a = map loadbalance.Id b) ∧
  roundrobin.sameEndpoints (roundrobin.newCursor a) b = roundrobin.endpointSetsEqual a b.
Proof.
  assert (roundrobin.endpointSetsEqual a b = true
          ↔ map loadbalance.Id a = map loadbalance.Id b) as Hiff.
  { unfold roundrobin.endpointSetsEqual.
    destruct (length a =? length b)%nat eqn:Hlen; simpl.
    - apply Nat.eqb_eq in Hlen. revert b Hlen.
      induction a as [|x a IH]; intros [|y b] Hlen; simpl in *; try done.
      rewrite andb_true_iff, String.eqb_eq, IH by lia. split.
      + by intros [-> ->].
      + by intros [= -> ->].
    - apply Nat.eqb_neq in Hlen. split; [done|]. intros Heq.
      apply (f_equal length) in Heq. by rewrite !length_map in Heq. }
  split; [exact Hiff|]. apply eq_true_iff_eq.
  by rewrite sameEndpoints_ids, Hiff.
Qed.

(** ** Walking a cursor over its endpoints *)

Lemma at_index_run c i m pq ca ia co :
  ca !! c = Some co →
  at_index c i (roundrobin.mkCursorMap m pq ca ia)
  = roundrobin.mkCursorMap m pq
      (<[c := roundrobin.mkCursor i (roundrobin.hash co) (roundrobin.item co)
                (roundrobin.endpointIds co)]> ca) ia.
Proof. intros Hco. unfold at_index, roundrobin.set_cursor_at. simpl. by rewrite Hco. Qed.

Lemma at_index_cursor c i cm co :
  roundrobin.cursor_at cm !! c = Some co →
  roundrobin.cursor_at (at_index c i cm) !! c
  = Some (roundrobin.mkCursor i (roundrobin.hash co) (roundrobin.item co)
            (roundrobin.endpointIds co)).
Proof.
  intros Hco. destruct cm as [m pq ca ia]. simpl in Hco.
  rewrite (at_index_run _ _ _ _ _ _ _ Hco). simpl. by eapply lookup_insert_same.
Qed.

Lemma at_index_at_index c i j cm :
  at_index c j (at_index c i cm) = at_index c j cm.
Proof.
  destruct cm as [m pq ca ia].
  destruct (ca !! c) as [co|] eqn:Hco.
  - rewrite (at_index_run _ i _ _ _ _ _ Hco).
    erewrite at_index_run by (by eapply lookup_insert_same).
    rewrite (at_index_run _ j _ _ _ _ _ Hco). simpl.
    by rewrite list_insert_insert_eq.
  - unfold at_index, roundrobin.set_cursor_at. simpl. rewrite Hco. simpl. by rewrite Hco.
Qed.

Lemma at_index_same c cm co :
  roundrobin.cursor_at cm !! c = Some co →
  at_index c (roundrobin.index co) cm = cm.
Proof.
  intros Hco. destruct cm as [m pq ca ia]. simpl in Hco.
  rewrite (at_index_run _ _ _ _ _ _ _ Hco). f_equal.
  apply list_insert_id. by destruct co.
Qed.

Lemma mod_succ_add n i j : n ≠ 0 → (S i `mod` n + j) `mod` n = (i + S j) `mod` n.
Proof. intros Hn. rewrite Nat.Div0.add_mod_idemp_l. f_equal. lia. Qed.

(** One turn of the loop of [next]. *)
Lemma next_loop_turn turns c endpoints cm co i e :
  roundrobin.cursor_at cm !! c = Some co →
  roundrobin.index co = Z.of_nat i →
  endpoints !! i = Some e →
  roundrobin.next_loop (S turns) c endpoints cm
  = (if loadbalance.IsActive e then ret (Some e, None)
     else roundrobin.next_loop turns c endpoints)
      (at_index c (Z.of_nat (S i `mod` length endpoints)) cm).
Proof.
  intros Hco Hi He. destruct cm as [m pq ca ia]. simpl in Hco.
  cbn [roundrobin.next_loop].
  erewrite bind_run;
    [| apply (deref_run (λ cm, roundrobin.cursor_at cm !! c)); exact Hco].
  cbv beta. rewrite Hi.
  assert ((Z.of_nat i <? 0)%Z = false) as -> by (apply Z.ltb_ge; lia).
  rewrite Nat2Z.id.
  erewrite bind_run; [| apply (deref_run (λ _, endpoints !! i)); exact He].
  cbv beta. rewrite bind_modify.
  rewrite (at_index_run _ _ _ _ _ _ _ Hco).
  unfold roundrobin.set_cursor_at. simpl.
  assert (Z.rem (Z.of_nat i + 1) (Z.of_nat (length endpoints))
          = Z.of_nat (S i `mod` length endpoints)) as ->.
  { assert (length endpoints ≠ 0) by (apply lookup_lt_Some in He; lia).
    rewrite Z.rem_mod_nonneg by lia. rewrite Nat2Z.inj_mod. f_equal. lia. }
  done.
Qed.

Lemma next_loop_skips endpoints c e k :
  loadbalance.IsActive e = true →
  ∀ turns cm co i,
    k < turns →
    roundrobin.cursor_at cm !! c = Some co →
    roundrobin.index co = Z.of_nat i → i < length endpoints →
    (∀ j, j < k → ∃ e', endpoints !! ((i + j) `mod` length endpoints) = Some e' ∧
                        loadbalance.IsActive e' = false) →
    endpoints !! ((i + k) `mod` length endpoints) = Some e →
    roundrobin.next_loop turns c endpoints cm
    = Some ((Some e, None),
            at_index c (Z.of_nat ((i + k + 1) `mod` length endpoints)) cm).
Proof.
  intros Hactive. induction k as [|k IH]; intros turns cm co i Hk Hco Hi Hlt Hskip He.
  - destruct turns as [|turns]; [lia|].
    rewrite Nat.add_0_r, Nat.mod_small in He by done.
    rewrite (next_loop_turn _ _ _ _ _ _ _ Hco Hi He), Hactive.
    by replace (i + 0 + 1) with (S i) by lia.
  - destruct turns as [|turns]; [lia|].
    destruct (Hskip 0) as (e' & He' & Hdown); [lia|].
    rewrite Nat.add_0_r, Nat.mod_small in He' by done.
    rewrite (next_loop_turn _ _ _ _ _ _ _ Hco Hi He'), Hdown.
    assert (length endpoints ≠ 0) as Hn by lia.
    erewrite (IH turns _ _ (S i `mod` length endpoints)).
    + rewrite at_index_at_index, <- Nat.add_assoc, mod_succ_add by done.
      by replace (i + S (k + 1)) with (i + S k + 1) by lia.
    + lia.
    + by apply at_index_cursor.
    + done.
    + by apply Nat.mod_upper_bound.
    + intros j Hj. destruct (Hskip (S j)) as (e'' & He'' & Hdown''); [lia|].
      exists e''. split; [|done]. by rewrite mod_succ_add.
    + by rewrite mod_succ_add.
Qed.

(** X18: when the cursor stands at index [i], the [k] endpoints from there
    on (wrapping around) are inactive and the one after them is active,
    [next] returns that endpoint without error and leaves the cursor just
    past it; nothing else of the table changes. *)
Theorem next_first_active cm c co endpoints i k e :
  roundrobin.cursor_at cm !! c = Some co →
  roundrobin.index co = Z.of_nat i → i < length endpoints →
  k < length endpoints →
  (∀ j, j < k → ∃ e', endpoints !! ((i + j) `mod` length endpoints) = Some e' ∧
                      loadbalance.IsActive e' = false) →
  endpoints !! ((i + k) `mod` length endpoints) = Some e →
  loadbalance.IsActive e = true →
  roundrobin.next c endpoints cm
  = Some ((Some e, None),
          at_index c (Z.of_nat ((i + k + 1) `mod` length endpoints)) cm).
Proof.
  intros Hco Hi Hlt Hk Hskip He Hactive. unfold roundrobin.next.
  by eapply next_loop_skips.
Qed.

Lemma next_loop_none_active endpoints c :
  Forall (λ e, loadbalance.IsActive e = false) endpoints →
  ∀ turns cm co i,
    roundrobin.cursor_at cm !! c = Some co →
    roundrobin.index co = Z.of_nat i → i < length endpoints →
    roundrobin.next_loop turns c endpoints cm
    = Some ((None, Some "No available endpoints!"),
            at_index c (Z.of_nat ((i + turns) `mod` length endpoints)) cm).
Proof.
  intros Hdown. induction turns as [|turns IH]; intros cm co i Hco Hi Hlt.
  - simpl. rewrite Nat.add_0_r, Nat.mod_small by done.
    rewrite <- Hi. by rewrite (at_index_same _ _ _ Hco).
  - destruct (lookup_lt_is_Some_2 endpoints i Hlt) as [e He].
    rewrite (next_loop_turn _ _ _ _ _ _ _ Hco Hi He).
    rewrite Forall_forall in Hdown.
    rewrite (Hdown e) by (by eapply list_elem_of_lookup_2).
    assert (length endpoints ≠ 0) as Hn by lia.
    erewrite (IH _ _ (S i `mod` length endpoints)).
    + by rewrite at_index_at_index, mod_succ_add.
    + by apply at_index_cursor.
    + done.
    + by apply Nat.mod_upper_bound.
Qed.

(** X19: when no endpoint is active, [next] returns the error
    [No available endpoints!] and, having gone full circle, leaves the
    cursor where it stood; on an empty list it does so without looking at
    the cursor. *)
Theorem next_none_active cm c endpoints :
  Forall (λ e, loadbalance.IsActive e = false) endpoints →
  (endpoints = [] ∨
   ∃ co, roundrobin.cursor_at cm !! c = Some co ∧
         (0 ≤ roundrobin.index co < Z.of_nat (length endpoints))%Z) →
  roundrobin.next c endpoints cm = Some ((None, Some "No available endpoints!"), cm).
Proof.
  intros Hdown [->|(co & Hco & Hi)]; [done|]. unfold roundrobin.next.
  rewrite (next_loop_none_active endpoints c Hdown _ cm co
             (Z.to_nat (roundrobin.index co)) Hco) by lia.
  rewrite <- Nat.Div0.add_mod_idemp_r, Nat.Div0.mod_same, Nat.add_0_r.
  rewrite Nat.mod_small by lia. rewrite Z2Nat.id by lia.
  by rewrite (at_index_same _ _ _ Hco).
Qed.

(** X20: on a non-empty list, [next] panics when the cursor's index is
    negative or not below the length of the list (as for a cursor made for
    a longer list), and when the cursor is not allocated. *)
Theorem next_index_out_of_range cm c endpoints :
  endpoints ≠ [] →
  match roundrobin.cursor_at cm !! c with
  | Some co =>
      (roundrobin.index co < 0 ∨ Z.of_nat (length endpoints) ≤ roundrobin.index co)%Z
  | None => True
  end →
  roundrobin.next c endpoints cm = None.
Proof.
  intros Hne Hout. unfold roundrobin.next.
  destruct endpoints as [|e0 rest]; [done|]. cbn [length roundrobin.next_loop].
  destruct (roundrobin.cursor_at cm !! c) as [co|] eqn:Hco.
  - erewrite bind_run;
      [| apply (deref_run (λ cm, roundrobin.cursor_at cm !! c)); exact Hco].
    cbv beta. apply bind_panic.
    destruct (roundrobin.index co <? 0)%Z eqn:Hneg; [done|].
    apply Z.ltb_ge in Hneg. unfold deref.
    rewrite lookup_ge_None_2; [done|]. cbn [length] in *. lia.
  - apply bind_panic. unfold deref. by rewrite Hco.
Qed.

(** X21: when all endpoints are active, [k] calls of [next] in a row
    return the endpoints in cyclic order from where the cursor stood, the
    [j]-th call returning the endpoint at [(i + j) mod len], and leave the
    cursor at [(i + k) mod len]. *)
Theorem next_round_robin cm c co endpoints i k :
  Forall (λ e, loadbalance.IsActive e = true) endpoints →
  roundrobin.cursor_at cm !! c = Some co →
  roundrobin.index co = Z.of_nat i → i < length endpoints →
  ∃ rs,
    next_calls k c endpoints cm
    = Some (rs, at_index c (Z.of_nat ((i + k) `mod` length endpoints)) cm) ∧
    length rs = k ∧
    ∀ j, j < k →
         rs !! j = Some (endpoints !! ((i + j) `mod` length endpoints), None).
Proof.
  intros Hup. revert cm co i. induction k as [|k IH]; intros cm co i Hco Hi Hlt.
  - exists []. simpl. rewrite Nat.add_0_r, Nat.mod_small by done.
    rewrite <- Hi, (at_index_same _ _ _ Hco). split; [done|]. split; [done|]. lia.
  - destruct (lookup_lt_is_Some_2 endpoints i Hlt) as [e He].
    assert (loadbalance.IsActive e = true) as Hactive.
    { rewrite Forall_forall in Hup. apply Hup. by eapply list_elem_of_lookup_2. }
    assert (length endpoints ≠ 0) as Hn by lia.
    assert (roundrobin.next c endpoints cm
            = Some ((Some e, None),
                    at_index c (Z.of_nat (S i `mod` length endpoints)) cm)) as Hnext.
    { unfold roundrobin.next.
      rewrite (next_loop_skips endpoints c e 0 Hactive _ cm co i); try done; try lia.
      - by replace (i + 0 + 1) with (S i) by lia.
      - by rewrite Nat.add_0_r, Nat.mod_small. }
    edestruct (IH (at_index c (Z.of_nat (S i `mod` length endpoints)) cm))
      as (rs & Hrun & Hlen & Hrs).
    { by apply at_index_cursor. }
    { done. }
    { by apply Nat.mod_upper_bound. }
    exists ((Some e, None) :: rs). split; [|split].
    + cbn [next_calls]. rewrite (bind_run _ _ _ _ _ Hnext).
      rewrite (bind_run _ _ _ _ _ Hrun). unfold ret.
      by rewrite at_index_at_index, mod_succ_add.
    + simpl. by rewrite Hlen.
    + intros [|j] Hj; simpl.
      * by rewrite Nat.add_0_r, Nat.mod_small, He.
      * rewrite Hrs by lia. by rewrite mod_succ_add.
Qed.

(** Witness of X18: from the second of three endpoints, which is down,
    [next] returns the third and wraps to the first. *)
Lemma next_first_active_witness :
  roundrobin.next 0 [endpoint_a; endpoint_down; endpoint_b] table_three
  = Some ((Some endpoint_b, None), at_index 0 0 table_three).
Proof.
  apply (next_first_active table_three 0%nat _ [endpoint_a; endpoint_down; endpoint_b]
           1 1 endpoint_b eq_refl eq_refl); [simpl; lia | simpl; lia | | done | done].
  intros j Hj. assert (j = 0) as -> by lia. by exists endpoint_down.
Defined.

(** Witness of X19: two endpoints, both down. *)
Lemma next_none_active_witness :
  roundrobin.next 0 [endpoint_down; endpoint_down] table_a
  = Some ((None, Some "No available endpoints!"), table_a).
Proof.
  apply next_none_active; [by repeat constructor|].
  right. eexists. split; [reflexivity|]. simpl. lia.
Defined.

(** Witness of X20: a cursor at index 1 used with a one-element
    list. *)
Lemma next_index_out_of_range_witness :
  roundrobin.next 0 [endpoint_a] table_three = None.
Proof. apply next_index_out_of_range; [done|]. simpl. lia. Defined.

(** Witness of X21: three calls over two endpoints. *)
Lemma next_round_robin_witness :
  ∃ rs,
    next_calls 3 0 [endpoint_a; endpoint_b] table_a
    = Some (rs, at_index 0 1 table_a) ∧
    length rs = 3 ∧
    ∀ j, j < 3 → rs !! j = Some ([endpoint_a; endpoint_b] !! ((0 + j) `mod` 2), None).
Proof.
  apply (next_round_robin table_a 0
           (roundrobin.mkCursor 0 (roundrobin.computeHash [endpoint_a]) (Some 0%nat) ["a"])
           [endpoint_a; endpoint_b] 0 3).
  - by repeat constructor.
  - reflexivity.
  - reflexivity.
  - simpl. lia.
Defined.

(** ** Deleting a cursor *)

Lemma deleteCursor_result m pq ca ia r co :
  ca !! r = Some co →
  roundrobin.deleteCursor r (roundrobin.mkCursorMap m pq ca ia)
  = Some (match m !! roundrobin.hash co with
          | None => Some "Cursor not found"
          | Some cs =>
              match list_find (λ c2, c2 = r) cs with
              | None => Some "Cursor not found"
              | Some _ => None
              end
          end,
          roundrobin.mkCursorMap (remove_cursor r (roundrobin.hash co) m) pq ca ia).
Proof.
  intros Hco. unfold roundrobin.deleteCursor, remove_cursor.
  erewrite bind_run;
    [| apply (deref_run (λ cm, roundrobin.cursor_at cm !! r)); exact Hco].
  cbv beta. rewrite bind_gets. cbn [roundrobin.cursors].
  destruct (m !! roundrobin.hash co) as [cs|] eqn:Hcs; [|done].
  rewrite (bind_run _ _ _ _ _ (cursorIndex_run m pq ca ia r co Hco)). rewrite Hcs.
  destruct (list_find _ cs) as [[idx x]|]; [|done].
  assert ((Z.of_nat idx =? -1)%Z = false) as -> by (apply Z.eqb_neq; lia).
  destruct ((Z.of_nat idx =? 0)%Z && (length cs =? 1)%nat); [done|].
  rewrite bind_modify. cbn [roundrobin.set_cursors roundrobin.cursors
    roundrobin.expiryTimes roundrobin.cursor_at roundrobin.item_at].
  rewrite Nat2Z.id. by replace (Z.to_nat (Z.of_nat idx + 1)) with (S idx) by lia.
Qed.

(** X22: [deleteCursor] never touches the queue or the cursors themselves;
    for a cursor held in the bucket of its hash it returns no error and
    takes exactly that cursor out of the map, and otherwise it returns
    [Cursor not found] and leaves the table as it is. *)
Theorem deleteCursor_outcome cm c co :
  roundrobin.cursor_at cm !! c = Some co →
  (∀ cs, roundrobin.cursors cm !! roundrobin.hash co = Some cs → NoDup cs) →
  ∃ err cm',
    roundrobin.deleteCursor c cm = Some (err, cm') ∧
    roundrobin.expiryTimes cm' = roundrobin.expiryTimes cm ∧
    roundrobin.cursor_at cm' = roundrobin.cursor_at cm ∧
    roundrobin.item_at cm' = roundrobin.item_at cm ∧
    (in_bucket cm (roundrobin.hash co) c →
       err = None ∧
       ∀ h r, in_bucket cm' h r
              ↔ in_bucket cm h r ∧ ¬ (h = roundrobin.hash co ∧ r = c)) ∧
    (¬ in_bucket cm (roundrobin.hash co) c →
       err = Some "Cursor not found" ∧ cm' = cm).
Proof.
  intros Hco Hnd. destruct cm as [m pq ca ia]. simpl in Hco, Hnd.
  eexists _, _. split; [by apply deleteCursor_result|].
  cbn [roundrobin.expiryTimes roundrobin.cursor_at roundrobin.item_at].
  split_and!; try done.
  - intros (cs & Hcs & Hc). cbn [roundrobin.cursors] in Hcs. rewrite Hcs. split.
    + destruct (list_find _ cs) as [[idx x]|] eqn:Hfind; [done|].
      apply list_find_None in Hfind. rewrite Forall_forall in Hfind.
      by destruct (Hfind c Hc).
    + intros h r. unfold in_bucket. cbn [roundrobin.cursors].
      by apply remove_cursor_bucket with (cs := cs); eauto.
  - intros Hnot. unfold remove_cursor.
    destruct (m !! roundrobin.hash co) as [cs|] eqn:Hcs; [|done].
    destruct (list_find _ cs) as [[idx x]|] eqn:Hfind; [|done].
    apply list_find_Some in Hfind as (Hidx & -> & _).
    destruct Hnot. exists cs. split; [done|]. by eapply list_elem_of_lookup_2.
Qed.

(** Witness of X22: deleting the cursor of [[a]] from the two-cursor
    table leaves the queue with both items. *)
Lemma deleteCursor_outcome_witness :
  ∃ cm',
    roundrobin.deleteCursor 0 demo_table = Some (None, cm') ∧
    roundrobin.expiryTimes cm' = [0; 1]%nat ∧
    ¬ in_bucket cm' (roundrobin.computeHash [endpoint_a]) 0%nat.
Proof.
  destruct (deleteCursor_outcome demo_table 0%nat
              (roundrobin.mkCursor 0 (roundrobin.computeHash [endpoint_a]) (Some 0%nat) ["a"])
              eq_refl)
    as (err & cm' & Hrun & Hpq & _ & _ & Hin & _).
  { intros cs Hcs. by eapply (wf_bucket_NoDup demo_table demo_table_wf). }
  destruct Hin as [-> Hgone].
  { exists [0%nat]. split; [by vm_compute | apply list_elem_of_here]. }
  exists cm'. split; [exact Hrun|]. split; [exact Hpq|].
  intros [_ Hnot]%Hgone. by apply Hnot.
Defined.

(** ** What the garbage collection keeps *)

Lemma collect_keeps cm j i h r :
  cursorMap_wf cm → roundrobin.expiryTimes cm !! j = Some i →
  in_bucket cm h r → r ≠ cursor_of cm i →
  in_bucket (collect j cm) h r.
Proof.
  intros Hwf Hi Hr Hne. unfold collect. rewrite Hi.
  assert (i ∈ roundrobin.expiryTimes cm) as Hin by (by eapply list_elem_of_lookup_2).
  destruct (wf_queue cm Hwf i Hin) as (r0 & h0 & Hslot & Hhash & cs & Hcs & Hr0).
  rewrite (slot_cursor_of _ _ _ Hslot) in Hne |- *. rewrite Hhash. cbn [default].
  unfold in_bucket. cbn [roundrobin.cursors]. unfold id.
  apply (remove_cursor_bucket _ h0 cs r0 h r Hcs); [by eapply wf_bucket_NoDup | done |].
  split; [done|]. by intros [_ ?].
Qed.

Lemma expiry_of_arenas cm cm' r :
  roundrobin.cursor_at cm' = roundrobin.cursor_at cm →
  roundrobin.item_at cm' = roundrobin.item_at cm →
  expiry_of cm' r = expiry_of cm r.
Proof. unfold expiry_of. by intros -> ->. Qed.

Lemma deleteExpiredCursors_loop_keeps now turns :
  ∀ cm cm' h r e,
    cursorMap_wf cm →
    roundrobin.deleteExpiredCursors_loop turns now cm = Some (tt, cm') →
    in_bucket cm h r → expiry_of cm r = Some e → (now < e)%Z →
    in_bucket cm' h r.
Proof.
  induction turns as [|turns IH]; intros cm cm' h r e Hwf Hrun Hr He Hlt;
    rewrite (deleteExpiredCursors_loop_unfold _ now cm Hwf) in Hrun.
  - destruct (least cm) as [j|]; [|by injection Hrun as <-].
    destruct (roundrobin.expiryTimes cm !! j) as [i|]; [|done].
    destruct (prio cm i >? now)%Z; [by injection Hrun as <- | done].
  - destruct (least cm) as [j|]; [|by injection Hrun as <-].
    destruct (roundrobin.expiryTimes cm !! j) as [i|] eqn:Hi; [|done].
    destruct (prio cm i >? now)%Z eqn:Hexp; [by injection Hrun as <-|].
    destruct (collect_wf cm j i Hwf Hi) as (Hwf' & _ & Hca & Hia & _).
    apply (IH (collect j cm) cm' h r e Hwf' Hrun); [|by rewrite (expiry_of_arenas cm (collect j cm)) | done].
    apply (collect_keeps cm j i h r Hwf Hi Hr). intros ->.
    assert (i ∈ roundrobin.expiryTimes cm) as Hin by (by eapply list_elem_of_lookup_2).
    destruct (wf_queue cm Hwf i Hin) as (r0 & h0 & Hslot & _).
    rewrite (slot_cursor_of _ _ _ Hslot) in He.
    rewrite (slot_expiry _ _ _ Hslot) in He. injection He as <-.
    rewrite Z.gtb_ltb in Hexp. apply Z.ltb_ge in Hexp. lia.
Qed.

Lemma deleteExpiredCursors_buckets now cm cm' :
  cursorMap_wf cm →
  roundrobin.deleteExpiredCursors now cm = Some (tt, cm') →
  roundrobin.cursor_at cm' = roundrobin.cursor_at cm ∧
  roundrobin.item_at cm' = roundrobin.item_at cm ∧
  ∀ h r, in_bucket cm' h r
         ↔ in_bucket cm h r ∧ ∃ e, expiry_of cm r = Some e ∧ (now < e)%Z.
Proof.
  intros Hwf Hrun.
  assert (roundrobin.deleteExpiredCursors now cm
          = roundrobin.deleteExpiredCursors_loop (length (roundrobin.expiryTimes cm))
              now cm) as Hloop by done.
  rewrite Hloop in Hrun.
  destruct (deleteExpiredCursors_loop_run now (length (roundrobin.expiryTimes cm))
              cm Hwf (Nat.le_refl _))
    as (cm'' & Hrun' & Hwf' & Hall & Hca & Hia & Hsub & _).
  rewrite Hrun in Hrun'. injection Hrun' as <-.
  split; [done|]. split; [done|]. intros h r. split.
  - intros Hr. split; [by apply Hsub|].
    destruct (wf_bucket cm' Hwf' h r Hr) as (_ & i & Hslot & Hi).
    exists (prio cm' i). split; [|by apply Hall].
    rewrite <- (expiry_of_arenas cm cm' r Hca Hia). by apply slot_expiry.
  - intros (Hr & e & He & Hlt).
    by apply (deleteExpiredCursors_loop_keeps now _ cm cm' h r e Hwf Hrun).
Qed.

(** X23: after [deleteExpiredCursors now] the map holds exactly the cursors
    it held before whose expiry time is after [now]: no cursor that has not
    expired is dropped. *)
Theorem deleteExpiredCursors_exact now cm cm' :
  cursorMap_wf cm →
  roundrobin.deleteExpiredCursors now cm = Some (tt, cm') →
  roundrobin.cursor_at cm' = roundrobin.cursor_at cm ∧
  roundrobin.item_at cm' = roundrobin.item_at cm ∧
  ∀ h r, in_bucket cm' h r
         ↔ in_bucket cm h r ∧ ∃ e, expiry_of cm r = Some e ∧ (now < e)%Z.
Proof. apply deleteExpiredCursors_buckets. Qed.

(** Witness of X23: at time 20 the cursor expiring at 30 stays and
    the one expiring at 10 goes. *)
Lemma deleteExpiredCursors_exact_witness :
  ∃ cm',
    roundrobin.deleteExpiredCursors 20 demo_table = Some (tt, cm') ∧
    in_bucket cm' (roundrobin.computeHash [endpoint_b]) 1%nat ∧
    ¬ in_bucket cm' (roundrobin.computeHash [endpoint_a]) 0%nat.
Proof.
  destruct demo_table_collected as (cm' & Hrun & _).
  destruct (deleteExpiredCursors_exact 20 demo_table cm' demo_table_wf Hrun)
    as (_ & _ & Hiff).
  exists cm'. split; [exact Hrun|]. split.
  - apply Hiff. split.
    + exists [1%nat]. split; [by vm_compute | apply list_elem_of_here].
    + exists 30%Z. split; [reflexivity | lia].
  - intros (_ & e & He & Hlt)%Hiff. vm_compute in He. injection He as <-. lia.
Defined.

(** ** Looking a cursor up after [upsertCursor] *)

Lemma find_same_found ca endpoints cs c :
  find_same ca endpoints cs = Some (Some c) → c ∈ cs.
Proof.
  induction cs as [|c0 rest IH]; simpl; [done|].
  destruct (ca !! c0) as [co|]; [|done].
  destruct (roundrobin.sameEndpoints co endpoints).
  - intros [= <-]. apply list_elem_of_here.
  - intros H. apply list_elem_of_further. by apply IH.
Qed.

Lemma find_cursor_found m ca endpoints c :
  find_cursor m ca endpoints = Some (Some c) →
  ∃ cs, m !! roundrobin.computeHash endpoints = Some cs ∧ c ∈ cs.
Proof.
  unfold find_cursor. destruct (m !! _) as [cs|]; [|done].
  destruct (length cs =? 1)%nat.
  - intros [= Hc]. exists cs. split; [done|]. by eapply list_elem_of_lookup_2.
  - intros Hc. exists cs. split; [done|]. by eapply find_same_found.
Qed.

(** What [upsertCursor] leaves behind for the next lookup. *)
Lemma upsert_lookup endpoints endpoints' t cm c cm1 :
  map loadbalance.Id endpoints = map loadbalance.Id endpoints' →
  upsert endpoints t cm = Some (c, cm1) →
  find_cursor (roundrobin.cursors cm1) (roundrobin.cursor_at cm1) endpoints'
  = Some (Some c) ∧
  in_bucket cm1 (roundrobin.computeHash endpoints) c ∧
  expiry_of cm1 c = Some t.
Proof.
  intros Hids. destruct cm as [m pq ca ia]. unfold upsert.
  destruct (find_cursor m ca endpoints) as [[c0|]|] eqn:Hfind; [| |done].
  - destruct (ca !! c0) as [co|] eqn:Hco; [|done]. cbn [mbind option_bind].
    destruct (roundrobin.item co) as [i|] eqn:Hi; [|done]. cbn [mbind option_bind].
    destruct (ia !! i) as [it|] eqn:Hit; [|done]. cbn [mbind option_bind].
    intros [= <- <-]. cbn [roundrobin.cursors roundrobin.cursor_at]. split_and!.
    + by rewrite <- (find_cursor_same_ids m ca _ _ Hids).
    + by apply find_cursor_found in Hfind.
    + unfold expiry_of. cbn [roundrobin.cursor_at roundrobin.item_at].
      rewrite Hco. cbn [mbind option_bind]. rewrite Hi. cbn [mbind option_bind].
      by rewrite (lookup_insert_same _ _ _ _ Hit).
  - cbv zeta. intros [= <- <-]. cbn [roundrobin.cursors roundrobin.cursor_at].
    set (h := roundrobin.computeHash endpoints).
    set (co := roundrobin.mkCursor 0 h (Some (length ia)) (map loadbalance.Id endpoints)).
    assert (roundrobin.sameEndpoints co endpoints' = true) as Hsame.
    { apply sameEndpoints_ids. by rewrite <- Hids. }
    split_and!.
    + unfold find_cursor. rewrite (computeHash_ids endpoints'), <- Hids.
      rewrite <- computeHash_ids. fold h. rewrite lookup_insert_eq.
      unfold find_cursor in Hfind. fold h in Hfind.
      destruct (m !! h) as [cs|]; cbn [default]; [|done].
      destruct (length cs =? 1)%nat eqn:Hone.
      { apply Nat.eqb_eq in Hone. destruct cs as [|c0 [|? ?]]; done. }
      rewrite (find_same_same_ids ca _ _ cs Hids) in Hfind.
      rewrite length_app. simpl.
      destruct (length cs + 1 =? 1)%nat eqn:Hone'.
      { apply Nat.eqb_eq in Hone'. destruct cs; [done | simpl in Hone'; lia]. }
      by apply find_same_added.
    + eexists. split; [apply lookup_insert_eq|]. apply elem_of_app. right.
      apply list_elem_of_here.
    + unfold expiry_of. cbn [roundrobin.cursor_at roundrobin.item_at].
      rewrite lookup_snoc_new. cbn [mbind option_bind roundrobin.item co].
      by rewrite lookup_snoc_new.
Qed.

(** X24: after [upsertCursor] has returned a cursor for an id sequence,
    [getCursor] for the same ids finds that cursor, and its expiry time is
    the one just given. *)
Theorem upsertCursor_then_getCursor cm endpoints endpoints' t c cm1 :
  map loadbalance.Id endpoints = map loadbalance.Id endpoints' →
  roundrobin.upsertCursor endpoints t cm = Some (c, cm1) →
  roundrobin.getCursor endpoints' cm1 = Some (Some c, cm1) ∧
  expiry_of cm1 c = Some t.
Proof.
  intros Hids. rewrite upsertCursor_run. intros Hrun.
  destruct (upsert_lookup _ _ _ _ _ _ Hids Hrun) as (Hfind & _ & Hexp).
  split; [|done]. destruct cm1 as [m pq ca ia]. rewrite getCursor_run.
  cbn [roundrobin.cursors roundrobin.cursor_at] in Hfind. by rewrite Hfind.
Qed.

(** Witness of X24: the table built by one [upsertCursor]. *)
Lemma upsertCursor_then_getCursor_witness :
  roundrobin.getCursor [endpoint_a] table_a = Some (Some 0%nat, table_a) ∧
  expiry_of table_a 0%nat = Some 10%Z.
Proof.
  apply (upsertCursor_then_getCursor roundrobin.newCursorMap [endpoint_a] [endpoint_a]
           10%Z 0%nat table_a eq_refl).
  by vm_compute.
Defined.

(** ** The tables the code builds *)

Lemma at_index_frame c i cm :
  roundrobin.cursors (at_index c i cm) = roundrobin.cursors cm ∧
  roundrobin.expiryTimes (at_index c i cm) = roundrobin.expiryTimes cm ∧
  roundrobin.item_at (at_index c i cm) = roundrobin.item_at cm ∧
  (∀ r, hash_of (at_index c i cm) r = hash_of cm r) ∧
  (∀ r j, slot (at_index c i cm) r j ↔ slot cm r j).
Proof.
  destruct cm as [m pq ca ia]. unfold at_index, roundrobin.set_cursor_at.
  cbn [roundrobin.cursors roundrobin.expiryTimes roundrobin.cursor_at roundrobin.item_at].
  destruct (ca !! c) as [co|] eqn:Hco; [|done].
  set (co' := roundrobin.mkCursor _ _ _ _).
  assert (∀ r, ∃ a b, ca !! r = a ∧ <[c := co']> ca !! r = b ∧
                      roundrobin.hash <$> a = roundrobin.hash <$> b ∧
                      (a ≫= roundrobin.item) = (b ≫= roundrobin.item) ∧
                      (is_Some a ↔ is_Some b)) as Hsame.
  { intros r. eexists _, _. split; [done|]. split; [done|].
    destruct (decide (r = c)) as [->|Hne].
    - rewrite (lookup_insert_same _ _ _ _ Hco), Hco. by split_and!.
    - by rewrite list_lookup_insert_ne. }
  split_and!; try done.
  - intros r. unfold hash_of. cbn [roundrobin.cursor_at].
    by destruct (Hsame r) as (a & b & <- & <- & -> & _).
  - intros r j. unfold slot. cbn [roundrobin.cursor_at roundrobin.item_at].
    destruct (Hsame r) as (a & b & Ha & Hb & _ & Hitem & _).
    rewrite Ha, Hb. split.
    + intros (x & it & -> & Hx & Hit & Hr). destruct a as [y|] eqn:Hy.
      * exists y, it. split_and!; try done. simpl in Hitem. congruence.
      * simpl in Hitem. congruence.
    + intros (x & it & -> & Hx & Hit & Hr). destruct b as [y|] eqn:Hy.
      * exists y, it. split_and!; try done. simpl in Hitem. congruence.
      * simpl in Hitem. congruence.
Qed.

Lemma at_index_wf c i cm : cursorMap_wf cm → cursorMap_wf (at_index c i cm).
Proof.
  intros [Hqnd Hq Hbnd Hb].
  destruct (at_index_frame c i cm) as (Hm & Hpq & Hia & Hhash & Hslot).
  split; rewrite ?Hpq, ?Hm; try done.
  - intros j Hj. destruct (Hq j Hj) as (r & h & Hs & Hh & Hin).
    exists r, h. rewrite Hslot, Hhash. split_and!; try done.
  - intros h r Hin. unfold in_bucket in Hin. rewrite Hm in Hin.
    destruct (Hb h r Hin) as (Hh & j & Hs & Hj).
    rewrite Hhash. split; [done|]. exists j. by rewrite Hslot.
Qed.

Lemma next_loop_state turns c endpoints :
  ∀ cm r cm',
    roundrobin.next_loop turns c endpoints cm = Some (r, cm') →
    cm' = cm ∨ ∃ i, cm' = at_index c i cm.
Proof.
  induction turns as [|turns IH]; intros cm r cm'; cbn [roundrobin.next_loop].
  - intros [= <- <-]. by left.
  - unfold bind at 1, deref at 1.
    destruct (roundrobin.cursor_at cm !! c) as [co|] eqn:Hco; [|done].
    unfold bind at 1.
    destruct (roundrobin.index co <? 0)%Z; [done|]. unfold deref at 1.
    destruct (endpoints !! _) as [e|]; [|done].
    rewrite bind_modify.
    assert (roundrobin.set_cursor_at
              (λ objs, <[c := roundrobin.mkCursor
                              (Z.rem (roundrobin.index co + 1)
                                 (Z.of_nat (length endpoints)))
                              (roundrobin.hash co) (roundrobin.item co)
                              (roundrobin.endpointIds co)]> objs) cm
            = at_index c (Z.rem (roundrobin.index co + 1) (Z.of_nat (length endpoints)))
                cm) as ->.
    { unfold at_index, roundrobin.set_cursor_at. by rewrite Hco. }
    destruct (loadbalance.IsActive e).
    + intros [= <- <-]. right. by eexists.
    + intros Hrun. apply IH in Hrun as [->|[i ->]]; right; [by eexists|].
      rewrite at_index_at_index. by eexists.
Qed.

Lemma split_ids_collide_sym :
  roundrobin.computeHash [endpoint_at "a"; endpoint_at "bc"]
  = roundrobin.computeHash [endpoint_at "ab"; endpoint_at "c"].
Proof. by vm_compute. Qed.

Lemma next_keeps_invariants c endpoints cm r cm' :
  roundrobin.next c endpoints cm = Some (r, cm') →
  cursorMap_wf cm → single_buckets cm →
  cursorMap_wf cm' ∧ single_buckets cm'.
Proof.
  intros Hrun Hwf Hone. apply next_loop_state in Hrun as [->|[i ->]]; [done|].
  split; [by apply at_index_wf|]. unfold single_buckets.
  by destruct (at_index_frame c i cm) as (-> & _).
Qed.

Lemma built_wf cm : built cm → cursorMap_wf cm ∧ single_buckets cm.
Proof.
  induction 1 as [|cm endpoints t c cm' _ [Hwf Hone] Hrun
                  |cm c endpoints r cm' _ [Hwf Hone] Hrun
                  |cm now cm' _ [Hwf Hone] Hrun].
  - split; [apply newCursorMap_wf | apply newCursorMap_single_buckets].
  - split; [|by eapply upsertCursor_single_buckets].
    destruct (upsertCursor_wf cm endpoints t Hwf) as (c' & cm'' & Hrun' & Hwf').
    rewrite Hrun in Hrun'. by injection Hrun' as <- <-.
  - by eapply next_keeps_invariants.
  - destruct (deleteExpiredCursors_loop_run now (length (roundrobin.expiryTimes cm))
                cm Hwf (Nat.le_refl _)) as (cm'' & Hrun' & Hwf' & _ & _ & _ & _ & Hone').
    change (roundrobin.deleteExpiredCursors now cm)
      with (roundrobin.deleteExpiredCursors_loop (length (roundrobin.expiryTimes cm))
              now cm) in Hrun.
    rewrite Hrun in Hrun'. injection Hrun' as <-. auto.
Qed.

(** X25: on every table the code builds, each cursor has one queue item
    and each bucket one cursor, the queue is as long as the map has keys,
    and neither [upsertCursor] nor [deleteExpiredCursors] panics. *)
Theorem built_invariant cm :
  built cm →
  cursorMap_wf cm ∧ single_buckets cm ∧
  length (roundrobin.expiryTimes cm) = size (roundrobin.cursors cm) ∧
  (∀ endpoints expiryTime,
     ∃ c cm', roundrobin.upsertCursor endpoints expiryTime cm = Some (c, cm')) ∧
  (∀ now, ∃ cm', roundrobin.deleteExpiredCursors now cm = Some (tt, cm')).
Proof.
  intros Hbuilt. destruct (built_wf cm Hbuilt) as [Hwf Hone]. split_and!; try done.
  - rewrite <- cursor_count_single_buckets by done.
    by apply heap_size_is_cursor_count.
  - intros endpoints t.
    destruct (upsertCursor_wf cm endpoints t Hwf) as (c & cm' & Hrun & _). eauto.
  - intros now. destruct (deleteExpiredCursors_wf now cm Hwf) as (cm' & Hrun & _). eauto.
Qed.

Lemma table_a_built : built table_a.
Proof.
  apply (built_upsert roundrobin.newCursorMap [endpoint_a] 10%Z 0%nat table_a built_new).
  by vm_compute.
Qed.

(** Witness of X25: the table built by one [upsertCursor]. *)
Lemma built_invariant_witness :
  length (roundrobin.expiryTimes table_a) = size (roundrobin.cursors table_a) ∧
  ∃ c cm', roundrobin.upsertCursor [endpoint_b] 30%Z table_a = Some (c, cm').
Proof.
  destruct (built_invariant table_a table_a_built) as (_ & _ & Hsize & Hupsert & _).
  split; [exact Hsize | exact (Hupsert [endpoint_b] 30%Z)].
Defined.

(** X26: on a table the code builds, once [upsertCursor] has returned a
    cursor for some endpoints, [upsertCursor] for any endpoints with the
    same hash returns that same cursor and only sets its expiry time: the
    ids are never compared. *)
Theorem upsertCursor_same_hash_same_cursor cm endpoints endpoints' t t' c cm1 :
  built cm →
  roundrobin.computeHash endpoints' = roundrobin.computeHash endpoints →
  roundrobin.upsertCursor endpoints t cm = Some (c, cm1) →
  ∃ cm2,
    roundrobin.upsertCursor endpoints' t' cm1 = Some (c, cm2) ∧
    roundrobin.cursors cm2 = roundrobin.cursors cm1 ∧
    roundrobin.expiryTimes cm2 = roundrobin.expiryTimes cm1 ∧
    roundrobin.cursor_at cm2 = roundrobin.cursor_at cm1 ∧
    expiry_of cm2 c = Some t'.
Proof.
  intros Hbuilt Hhash Hrun.
  destruct (built_wf cm1 (built_upsert _ _ _ _ _ Hbuilt Hrun)) as [Hwf Hone].
  rewrite upsertCursor_run in Hrun.
  destruct (upsert_lookup endpoints endpoints t cm c cm1 eq_refl Hrun)
    as (_ & Hin & _).
  pose proof Hin as (cs & Hcs & Hc).
  pose proof (Hone _ _ Hcs) as Hlen.
  destruct cs as [|c0 [|? ?]]; try done. apply list_elem_of_singleton in Hc as <-.
  destruct (wf_bucket cm1 Hwf _ c Hin) as (_ & i & (co & it & Hco & Hi & Hit & _) & _).
  rewrite upsertCursor_run. destruct cm1 as [m pq ca ia].
  cbn [roundrobin.cursors roundrobin.cursor_at roundrobin.item_at] in *.
  unfold upsert, find_cursor. rewrite Hhash, Hcs. cbn [length Nat.eqb lookup list_lookup].
  rewrite Hco. cbn [mbind option_bind]. rewrite Hi. cbn [mbind option_bind].
  rewrite Hit. cbn [mbind option_bind].
  eexists. split; [reflexivity|].
  cbn [roundrobin.cursors roundrobin.expiryTimes roundrobin.cursor_at roundrobin.item_at].
  split_and!; try done.
  unfold expiry_of. cbn [roundrobin.cursor_at roundrobin.item_at].
  rewrite Hco. cbn [mbind option_bind]. rewrite Hi. cbn [mbind option_bind].
  by rewrite (lookup_insert_same _ _ _ _ Hit).
Qed.

(** Witness of X26: the id sequences [ab, c] and [a, bc]. *)
Lemma upsertCursor_same_hash_same_cursor_witness :
  ∃ cm1 cm2,
    roundrobin.upsertCursor [endpoint_at "ab"; endpoint_at "c"] 10%Z
      roundrobin.newCursorMap = Some (0%nat, cm1) ∧
    roundrobin.upsertCursor [endpoint_at "a"; endpoint_at "bc"] 20%Z cm1
    = Some (0%nat, cm2) ∧
    expiry_of cm2 0%nat = Some 20%Z.
Proof.
  eexists. 
  assert (roundrobin.upsertCursor [endpoint_at "ab"; endpoint_at "c"] 10%Z
            roundrobin.newCursorMap
          = Some (0%nat,
                  roundrobin.mkCursorMap
                    {[roundrobin.computeHash [endpoint_at "ab"; endpoint_at "c"]
                      := [0%nat]]}
                    [0%nat]
                    [roundrobin.mkCursor 0
                       (roundrobin.computeHash [endpoint_at "ab"; endpoint_at "c"])
                       (Some 0%nat) ["ab"; "c"]]
                    [roundrobin.mkPqItem 0 10])) as Hrun by (by vm_compute).
  destruct (upsertCursor_same_hash_same_cursor roundrobin.newCursorMap
              [endpoint_at "ab"; endpoint_at "c"] [endpoint_at "a"; endpoint_at "bc"]
              10%Z 20%Z 0%nat _ built_new split_ids_collide_sym Hrun)
    as (cm2 & Hrun2 & _ & _ & _ & Hexp).
  exists cm2. split; [exact Hrun|]. split; [exact Hrun2 | exact Hexp].
Defined.

(** X27: [cursorIndex] leaves the table as it is and returns -1 exactly
    when the cursor is not in the bucket of its hash; otherwise it returns
    the first position of the cursor in that bucket. *)
Theorem cursorIndex_outcome cm c co :
  roundrobin.cursor_at cm !! c = Some co →
  ∃ idx,
    roundrobin.cursorIndex c cm = Some (idx, cm) ∧
    (idx = (-1)%Z ↔ ¬ in_bucket cm (roundrobin.hash co) c) ∧
    (idx ≠ (-1)%Z →
       ∃ cs, roundrobin.cursors cm !! roundrobin.hash co = Some cs ∧
             (0 ≤ idx)%Z ∧ cs !! Z.to_nat idx = Some c ∧
             ∀ j, j < Z.to_nat idx → cs !! j ≠ Some c).
Proof.
  intros Hco. destruct cm as [m pq ca ia]. simpl in Hco.
  eexists. split; [by apply cursorIndex_run|].
  unfold in_bucket. cbn [roundrobin.cursors].
  destruct (m !! roundrobin.hash co) as [cs|] eqn:Hcs.
  - destruct (list_find (λ c2, c2 = c) cs) as [[idx x]|] eqn:Hfind.
    + apply list_find_Some in Hfind as (Hidx & -> & Hfirst). split.
      * split; [lia|]. intros []. exists cs. split; [done|].
        by eapply list_elem_of_lookup_2.
      * intros _. exists cs. rewrite Nat2Z.id. split_and!; try done; try lia.
        intros j Hj Hcj. by apply (Hfirst j c).
    + apply list_find_None in Hfind. rewrite Forall_forall in Hfind. split; [|done].
      split; [|done]. intros _ (cs' & [= <-] & Hc). by apply (Hfind c).
  - split; [|done]. split; [|done]. by intros _ (cs & ? & _).
Qed.

(** Witness of X27: the cursor of [[b]] in the two-cursor table. *)
Lemma cursorIndex_outcome_witness :
  ∃ idx, roundrobin.cursorIndex 1 demo_table = Some (idx, demo_table) ∧
         idx ≠ (-1)%Z ∧
         ∃ cs, roundrobin.cursors demo_table !! roundrobin.computeHash [endpoint_b]
               = Some cs ∧ cs !! Z.to_nat idx = Some 1%nat.
Proof.
  destruct (cursorIndex_outcome demo_table 1%nat
              (roundrobin.mkCursor 0 (roundrobin.computeHash [endpoint_b]) (Some 1%nat) ["b"])
              eq_refl) as (idx & Hrun & Hiff & Hfound).
  assert (idx ≠ (-1)%Z) as Hne.
  { intros Heq. apply Hiff in Heq. apply Heq.
    exists [1%nat]. split; [by vm_compute | apply list_elem_of_here]. }
  exists idx. split; [exact Hrun|]. split; [exact Hne|].
  destruct (Hfound Hne) as (cs & Hcs & _ & Hidx & _). by exists cs.
Defined.

(** ** Time to live *)

(** X28: on a table the code builds, a cursor upserted with expiry time
    [t] is still found by [getCursor] after [deleteExpiredCursors now] when
    [now < t], and is gone when [t <= now]. *)
Theorem cursor_time_to_live cm endpoints t c cm1 now cm2 :
  built cm →
  roundrobin.upsertCursor endpoints t cm = Some (c, cm1) →
  roundrobin.deleteExpiredCursors now cm1 = Some (tt, cm2) →
  roundrobin.getCursor endpoints cm2
  = Some (if bool_decide (now < t)%Z then Some c else None, cm2).
Proof.
  intros Hbuilt Hup Hgc.
  pose proof (built_upsert _ _ _ _ _ Hbuilt Hup) as Hbuilt1.
  pose proof (built_collected _ _ _ Hbuilt1 Hgc) as Hbuilt2.
  destruct (built_wf cm1 Hbuilt1) as [Hwf1 Hone1].
  destruct (built_wf cm2 Hbuilt2) as [Hwf2 Hone2].
  rewrite upsertCursor_run in Hup.
  destruct (upsert_lookup endpoints endpoints t cm c cm1 eq_refl Hup)
    as (_ & Hin & Hexp).
  destruct (deleteExpiredCursors_buckets now cm1 cm2 Hwf1 Hgc) as (_ & _ & Hiff).
  set (h := roundrobin.computeHash endpoints) in *.
  assert (∀ r, in_bucket cm1 h r → r = c) as Honly.
  { intros r (cs & Hcs & Hr). destruct Hin as (cs' & Hcs' & Hc).
    rewrite Hcs in Hcs'. injection Hcs' as <-.
    pose proof (Hone1 _ _ Hcs) as Hlen. destruct cs as [|c0 [|? ?]]; try done.
    apply list_elem_of_singleton in Hr, Hc. congruence. }
  destruct cm2 as [m pq ca ia]. rewrite getCursor_run. unfold find_cursor. fold h.
  cbn [roundrobin.cursors] in *.
  destruct (m !! h) as [cs|] eqn:Hcs.
  - pose proof (Hone2 _ _ Hcs) as Hlen. destruct cs as [|c0 [|? ?]]; try done.
    cbn [length Nat.eqb lookup list_lookup fmap option_fmap option_map].
    assert (in_bucket (roundrobin.mkCursorMap m pq ca ia) h c0) as Hc0.
    { exists [c0]. split; [done | apply list_elem_of_here]. }
    apply Hiff in Hc0 as (Hc0 & e & He & Hlt).
    apply Honly in Hc0 as ->. rewrite Hexp in He. injection He as <-.
    by rewrite bool_decide_eq_true_2.
  - cbn [fmap option_fmap option_map]. case_bool_decide as Hlt; [|done].
    assert (in_bucket (roundrobin.mkCursorMap m pq ca ia) h c) as (cs & Hcs' & _).
    { apply Hiff. split; [done|]. by exists t. }
    cbn [roundrobin.cursors] in Hcs'. congruence.
Qed.

(** Witness of X28: a cursor expiring at 10 is gone at time 10. *)
Lemma cursor_time_to_live_witness :
  ∃ cm2,
    roundrobin.deleteExpiredCursors 10 table_a = Some (tt, cm2) ∧
    roundrobin.getCursor [endpoint_a] cm2 = Some (None, cm2).
Proof.
  assert (roundrobin.deleteExpiredCursors 10 table_a
          = Some (tt, roundrobin.mkCursorMap ∅ []
                        [roundrobin.mkCursor 0 (roundrobin.computeHash [endpoint_a])
                           (Some 0%nat) ["a"]]
                        [roundrobin.mkPqItem 0 10])) as Hgc by (by vm_compute).
  eexists. split; [exact Hgc|].
  apply (cursor_time_to_live roundrobin.newCursorMap [endpoint_a] 10%Z 0%nat table_a
           10%Z _ built_new); [by vm_compute | exact Hgc].
Defined.
